(** * Encrypted financial planning tool: the confidential computation exchange

    A shallow embedding of [client.cpp], [server.cpp] and the two-input
    client/server pair of the repository, and the properties of the
    session they run: the length-prefixed transport, the positional
    handshake, the fixed-point codec and the evaluation pipeline.

    Conventions.
    - A [std::string] is a [list byte].
    - [size_t] is 8 bytes wide and stored little-endian, as on the Linux
      x86-64 platform the README names.
    - In the programs a [double] is modelled by an exact rational ([Q]):
      the session theorems are about the scaled integers, which the
      rounding of double arithmetic does not reach. The codec itself is
      also given in IEEE 754 binary64 arithmetic (module [Binary64]), where
      the rounding of the product and of the quotient is part of the model.
    - The socket calls [send] and [recv] and the Microsoft SEAL classes are
      not code of the repository: the former are modelled after POSIX, the
      latter are an abstract interface with a stated contract. *)

From Stdlib Require Import ZArith QArith Qabs Qround List Lia Lqa Bool SpecFloat.
From coqutil Require Import Byte Word.LittleEndianList.
Import ListNotations.

Local Open Scope Z_scope.

(* ================================================================== *)
(** * The byte stream under a connected socket *)
(* ================================================================== *)

Definition bytes := list byte.

(** What a read meets once the bytes the peer has written are used up. *)
Inductive StreamEnd :=
| PeerClosed        (* orderly shutdown: [recv] returns what is left, then 0 *)
| ConnectionError   (* [recv] returns what is left, then -1 *)
| Silent.           (* the peer keeps the connection open and writes nothing *)

(** The process's view of its connected socket, with the two pieces of the
    environment the helpers depend on: how many [send] calls still succeed
    and the indeterminate content of the uninitialised [data_size]. *)
Record World := mkWorld {
  inbound : bytes;
  inbound_end : StreamEnd;
  outbound : bytes;
  send_credit : option nat;   (* [None]: every [send] succeeds *)
  stack_junk : Z
}.

Definition set_inbound (w : World) (i : bytes) : World :=
  mkWorld i (inbound_end w) (outbound w) (send_credit w) (stack_junk w).

Definition sizeof_size_t : nat := 8.

(** [std::vector<char>::max_size()] on the platform: [PTRDIFF_MAX]. The
    constructor throws [std::length_error] beyond it. *)
Definition VECTOR_MAX_SIZE : Z := 2 ^ 63 - 1.

(** [recv(sock, buf, len, MSG_WAITALL)]: [None] when the call never
    returns; otherwise the return value and the bytes stored at the start
    of the buffer. *)
Definition recv (len : Z) (w : World) : option (Z * bytes * World) :=
  if len <=? Z.of_nat (length (inbound w)) then
    Some (len, firstn (Z.to_nat len) (inbound w),
          set_inbound w (skipn (Z.to_nat len) (inbound w)))
  else
    match inbound_end w, inbound w with
    | Silent, _ => None
    | ConnectionError, [] => Some (-1, [], w)
    | _, rest => Some (Z.of_nat (length rest), rest, set_inbound w [])
    end.

(** The buffer after a read that stored [got] at its start. *)
Definition stored (got buf : bytes) : bytes := got ++ skipn (length got) buf.

(** [send(sock, buf, len, 0)] on a blocking socket, for the calls that
    either take the whole buffer or fail with -1: [send_credit] counts the
    calls that go through before one fails. A call that takes only a part
    of the buffer, or that ends the process on [SIGPIPE], is not modelled. *)
Definition send (data : bytes) (w : World) : Z * World :=
  match send_credit w with
  | Some O => (-1, w)
  | Some (S n) =>
      (Z.of_nat (length data),
       mkWorld (inbound w) (inbound_end w) (outbound w ++ data) (Some n) (stack_junk w))
  | None =>
      (Z.of_nat (length data),
       mkWorld (inbound w) (inbound_end w) (outbound w ++ data) None (stack_junk w))
  end.

(* ================================================================== *)
(** * Processes: state, early return, uncaught exception, blocking *)
(* ================================================================== *)

(** Behaviour the C++ standard leaves undefined stops the model. *)
Inductive Fault := OutOfRangeConversion | IndexOutOfBounds.

Inductive Status :=
| Returned (code : Z)   (* [main] returned [code] *)
| Uncaught              (* an exception left [main]: [std::terminate] *)
| Blocked               (* a [recv] never returned *)
| Undefined (f : Fault).

Inductive Result (A : Type) :=
| Val (a : A)
| Stop (s : Status).
Arguments Val {A} a.
Arguments Stop {A} s.

Definition M (A : Type) : Type := World -> Result A * World.

Definition ret {A} (a : A) : M A := fun w => (Val a, w).

Definition bind {A B} (m : M A) (k : A -> M B) : M B :=
  fun w => match m w with
           | (Val a, w') => k a w'
           | (Stop s, w') => (Stop s, w')
           end.

Notation "x <- m ;; k" := (bind m (fun x => k))
  (at level 61, m at next level, right associativity).

Definition exit {A} (code : Z) : M A := fun w => (Stop (Returned code), w).
Definition throw {A} : M A := fun w => (Stop Uncaught, w).

(** A library call that throws when it fails. *)
Definition or_throw {A} (o : option A) : M A :=
  match o with Some a => ret a | None => throw end.

Definition or_undefined {A} (f : Fault) (o : option A) : M A :=
  match o with Some a => ret a | None => fun w => (Stop (Undefined f), w) end.

Definition sys_recv (len : Z) : M (Z * bytes) :=
  fun w => match recv len w with
           | Some (r, got, w') => (Val (r, got), w')
           | None => (Stop Blocked, w)
           end.

Definition sys_send (data : bytes) : M Z :=
  fun w => let (r, w') := send data w in (Val r, w').

Definition junk : M Z := fun w => (Val (stack_junk w), w).

(** The status a run of [main] ends with. *)
Definition run (main : M Z) (w : World) : Status * World :=
  match main w with
  | (Val code, w') => (Returned code, w')
  | (Stop s, w') => (s, w')
  end.

(* ================================================================== *)
(** * Framed transport: [send_data] and [receive_data] *)
(* ================================================================== *)

Definition empty (s : bytes) : bool :=
  match s with [] => true | _ => false end.

(** [bool send_data(int sock, const string& data)] *)
Definition send_data (data : bytes) : M bool :=
  let data_size := Z.of_nat (length data) in
  r <- sys_send (le_split sizeof_size_t data_size) ;;
  if r =? -1 then ret false else
  r <- sys_send data ;;
  if r =? -1 then ret false else
  ret true.

(** [string receive_data(int sock)]; the empty string is its failure value.
    The buffer is taken to be allocated whenever its size is one a vector
    can have. *)
Definition receive_data : M bytes :=
  uninit <- junk ;;
  r <- sys_recv (Z.of_nat sizeof_size_t) ;;
  if fst r =? -1 then ret [] else
  let data_size := le_combine (stored (snd r) (le_split sizeof_size_t uninit)) in
  if data_size >? VECTOR_MAX_SIZE then throw else
  let buffer := repeat Byte.x00 (Z.to_nat data_size) in
  r <- sys_recv data_size ;;
  if fst r =? -1 then ret [] else
  ret (stored (snd r) buffer).

(** What one frame looks like on the wire. *)
Definition frame (data : bytes) : bytes :=
  le_split sizeof_size_t (Z.of_nat (length data)) ++ data.

Definition frames (l : list bytes) : bytes := concat (map frame l).

(* ================================================================== *)
(** * Fixed-point codec *)
(* ================================================================== *)

Definition double := Q.

(** [const double SCALE_FACTOR = 100.0;] in every program of the repository. *)
Definition SCALE_FACTOR : double := (100 # 1)%Q.

(** [round] of <cmath>: the nearest integer, halfway cases away from zero. *)
Definition round (x : double) : Z :=
  if Qle_bool 0 x then Qfloor (x + (1 # 2))%Q else Qceiling (x - (1 # 2))%Q.

(** [static_cast<int64_t>] of an integral double: undefined when the value
    does not fit. *)
Definition to_int64 (z : Z) : option Z :=
  if (- 2 ^ 63 <=? z) && (z <? 2 ^ 63) then Some z else None.

(** The source keeps the scaled integer only. The exponent (how many
    factors [SCALE_FACTOR] the integer carries) is bookkeeping the source
    does by choosing the divisor when it descales; the record writes it
    down. Only [magnitude] ever reaches the encoder. *)
Record ScaledAmount := mkScaled { magnitude : Z; exponent : nat }.

(** [static_cast<int64_t>(round(d * SCALE_FACTOR))], for any scale factor. *)
Definition toScaled (d s : double) : option ScaledAmount :=
  match to_int64 (round (d * s)%Q) with
  | Some v => Some (mkScaled v 1)
  | None => None
  end.

(** [static_cast<double>(v) / SCALE_FACTOR] for exponent 1 and
    [static_cast<double>(v) / (SCALE_FACTOR * SCALE_FACTOR)] for exponent 2. *)
Definition fromScaled (a : ScaledAmount) (s : double) : double :=
  (inject_Z (magnitude a) / s ^ Z.of_nat (exponent a))%Q.

Definition descale (e : nat) (v : Z) : double := fromScaled (mkScaled v e) SCALE_FACTOR.

(* ================================================================== *)
(** * The codec in the arithmetic of the machine *)
(* ================================================================== *)

(** The same two expressions with a [double] as the IEEE 754 binary64
    number it is on the platform: [*] and [/] and the conversion from a
    64-bit integer round to the nearest representable number, ties to
    even. *)
Module Binary64.

Definition prec : Z := 53.
Definition emax : Z := 1024.

Definition binary64 := spec_float.

Definition mul : binary64 -> binary64 -> binary64 := SFmul prec emax.
Definition div : binary64 -> binary64 -> binary64 := SFdiv prec emax.

(** [static_cast<double>(v)] of a 64-bit integer. *)
Definition of_int64 (v : Z) : binary64 := binary_normalize prec emax v 0 false.

(** The number a finite double stands for. *)
Definition value (x : binary64) : option Q :=
  match x with
  | S754_zero _ => Some (0 # 1)%Q
  | S754_finite s m e =>
      let n := if s then Z.neg m else Z.pos m in
      Some (match e with
            | Z.neg p => Qred (n # 2 ^ p)
            | _ => inject_Z (n * 2 ^ e)
            end)
  | S754_infinity _ | S754_nan => None
  end.

(** The sign bit of a double, and the double with the opposite sign. *)
Definition sign_bit (x : binary64) : bool :=
  match x with
  | S754_zero s | S754_infinity s | S754_finite s _ _ => s
  | S754_nan => false
  end.

Definition opp : binary64 -> binary64 := SFopp.

(** The double a decimal numeral [n / d] is read as by the compiler or by
    [stod]: the nearest one, for [n] and [d] below [2 ^ 53]. *)
Definition decimal (n d : Z) : binary64 := div (of_int64 n) (of_int64 d).

(** [const double SCALE_FACTOR = 100.0;] *)
Definition SCALE_FACTOR : binary64 := of_int64 100.

(** [static_cast<int64_t>(round(d * s))]. [round] of a finite double is
    the nearest integer to the number it stands for, which is a double
    again; of an infinity or a NaN it is that infinity or NaN, which the
    cast leaves undefined, as it does an integer beyond 64 bits. *)
Definition toScaled (d s : binary64) : option ScaledAmount :=
  match value (mul d s) with
  | Some product =>
      match to_int64 (round product) with
      | Some v => Some (mkScaled v 1)
      | None => None
      end
  | None => None
  end.

(** The divisor the source writes for an exponent: [SCALE_FACTOR] for 1,
    [SCALE_FACTOR * SCALE_FACTOR] for 2. *)
Fixpoint divisor (s : binary64) (e : nat) : binary64 :=
  match e with
  | O => of_int64 1
  | S e' => match e' with O => s | S _ => mul s (divisor s e') end
  end.

(** [static_cast<double>(v) / SCALE_FACTOR] and
    [static_cast<double>(v) / (SCALE_FACTOR * SCALE_FACTOR)]. *)
Definition fromScaled (a : ScaledAmount) (s : binary64) : binary64 :=
  div (of_int64 (magnitude a)) (divisor s (exponent a)).

End Binary64.

(* ================================================================== *)
(** * The Microsoft SEAL interface the programs are written against *)
(* ================================================================== *)

(** The classes and member functions of SEAL that the programs call. A
    [load] returns [None] where the C++ function throws. *)
Class SEAL := {
  EncryptionParameters : Type;
  SEALContext : Type;
  SecretKey : Type;
  PublicKey : Type;
  RelinKeys : Type;
  GaloisKeys : Type;
  Plaintext : Type;
  Ciphertext : Type;
  Seed : Type;   (* the randomness one [encrypt] call draws *)
  make_context : EncryptionParameters -> SEALContext;
  parms_save : EncryptionParameters -> bytes;
  parms_load : bytes -> option EncryptionParameters;
  public_key_save : PublicKey -> bytes;
  public_key_load : SEALContext -> bytes -> option PublicKey;
  relin_keys_save : RelinKeys -> bytes;
  relin_keys_load : SEALContext -> bytes -> option RelinKeys;
  galois_keys_save : GaloisKeys -> bytes;
  galois_keys_load : SEALContext -> bytes -> option GaloisKeys;
  plaintext_save : Plaintext -> bytes;
  plaintext_load : SEALContext -> bytes -> option Plaintext;
  ciphertext_save : Ciphertext -> bytes;
  ciphertext_load : SEALContext -> bytes -> option Ciphertext;
  slot_count : SEALContext -> nat;
  plain_modulus : SEALContext -> Z;
  encode : SEALContext -> list Z -> Plaintext;
  decode : SEALContext -> Plaintext -> list Z;
  encrypt : SEALContext -> PublicKey -> Seed -> Plaintext -> Ciphertext;
  decrypt : SEALContext -> SecretKey -> Ciphertext -> Plaintext;
  evaluator_add : SEALContext -> Ciphertext -> Ciphertext -> Ciphertext;
  evaluator_sub : SEALContext -> Ciphertext -> Ciphertext -> Ciphertext;
  evaluator_sub_plain : SEALContext -> Ciphertext -> Plaintext -> Ciphertext;
  evaluator_multiply_plain : SEALContext -> Ciphertext -> Plaintext -> Ciphertext;
  evaluator_relinearize : SEALContext -> Ciphertext -> RelinKeys -> Ciphertext
}.

(** The representative of [x] modulo [t] that [BatchEncoder::decode] hands
    back as a signed integer. *)
Definition centered (t x : Z) : Z :=
  let r := x mod t in if r >? t / 2 then r - t else r.

(** Slot-wise combination of two decoded vectors. *)
Fixpoint zip_with {A B C} (f : A -> B -> C) (l : list A) (m : list B) : list C :=
  match l, m with
  | a :: l', b :: m' => f a b :: zip_with f l' m'
  | _, _ => []
  end.

Section Library.
Context {L : SEAL}.

(** What [KeyGenerator keygen(context)] hands to the owner. *)
Record KeyGenerator := mkKeys {
  secret_key : SecretKey;
  public_key : PublicKey;
  relin_keys : RelinKeys;
  galois_keys : GaloisKeys
}.

Definition with_secret_key (k : KeyGenerator) (sk : SecretKey) : KeyGenerator :=
  mkKeys sk (public_key k) (relin_keys k) (galois_keys k).

(** The integers a ciphertext carries, as the key owner reads them. *)
Definition slots (context : SEALContext) (sk : SecretKey) (c : Ciphertext) : list Z :=
  decode context (decrypt context sk c).

Definition fits (context : SEALContext) (v : Z) : Prop :=
  2 * Z.abs v < plain_modulus context.

Definition nonzero (context : SEALContext) (p : Plaintext) : Prop :=
  decode context p <> repeat 0 (slot_count context).

(** A saved object is a [std::string] that [receive_data] does not take for
    its failure value: not empty, and no longer than a string can be. *)
Definition sendable (b : bytes) : Prop :=
  b <> [] /\ Z.of_nat (length b) <= VECTOR_MAX_SIZE.

(** The contract of the library for one session: a context and the keys of
    one owner. [pt_ok] and [ct_ok] stand for "valid for the context" (and,
    for a ciphertext, decryptable by the owner). The encoder is asked only
    for values within the plain modulus, and [multiply_plain] only for a
    plaintext that is not zero, which the evaluator refuses; noise growth
    is outside the model. *)
Section Contract.
Variables (parms : EncryptionParameters) (keys : KeyGenerator).

Local Abbreviation context := (make_context parms).
Local Abbreviation t := (plain_modulus (make_context parms)).

Record Contract : Type := {
  pt_ok : Plaintext -> Prop;
  ct_ok : Ciphertext -> Prop;
  modulus_large : 2 < t;
  slots_positive : (0 < slot_count context)%nat;
  parms_save_sendable : sendable (parms_save parms);
  public_key_save_sendable : sendable (public_key_save (public_key keys));
  relin_keys_save_sendable : sendable (relin_keys_save (relin_keys keys));
  galois_keys_save_sendable : sendable (galois_keys_save (galois_keys keys));
  plaintext_save_sendable : forall p, pt_ok p -> sendable (plaintext_save p);
  ciphertext_save_sendable : forall c, ct_ok c -> sendable (ciphertext_save c);
  parms_save_load : parms_load (parms_save parms) = Some parms;
  public_key_save_load :
    public_key_load context (public_key_save (public_key keys)) = Some (public_key keys);
  relin_keys_save_load :
    relin_keys_load context (relin_keys_save (relin_keys keys)) = Some (relin_keys keys);
  galois_keys_save_load :
    galois_keys_load context (galois_keys_save (galois_keys keys)) = Some (galois_keys keys);
  plaintext_save_load :
    forall p, pt_ok p -> plaintext_load context (plaintext_save p) = Some p;
  ciphertext_save_load :
    forall c, ct_ok c -> ciphertext_load context (ciphertext_save c) = Some c;
  encode_ok :
    forall vs, (length vs <= slot_count context)%nat -> Forall (fits context) vs ->
               pt_ok (encode context vs);
  decode_encode :
    forall vs, length vs = slot_count context -> Forall (fits context) vs ->
               decode context (encode context vs) = vs;
  slots_length :
    forall c, ct_ok c -> length (slots context (secret_key keys) c) = slot_count context;
  encrypt_ok : forall r p, pt_ok p -> ct_ok (encrypt context (public_key keys) r p);
  decrypt_encrypt :
    forall r p, pt_ok p ->
                decrypt context (secret_key keys) (encrypt context (public_key keys) r p) = p;
  add_ok : forall a b, ct_ok a -> ct_ok b -> ct_ok (evaluator_add context a b);
  add_slots :
    forall a b, ct_ok a -> ct_ok b ->
      slots context (secret_key keys) (evaluator_add context a b) =
      zip_with (fun x y => centered t (x + y))
               (slots context (secret_key keys) a) (slots context (secret_key keys) b);
  sub_ok : forall a b, ct_ok a -> ct_ok b -> ct_ok (evaluator_sub context a b);
  sub_slots :
    forall a b, ct_ok a -> ct_ok b ->
      slots context (secret_key keys) (evaluator_sub context a b) =
      zip_with (fun x y => centered t (x - y))
               (slots context (secret_key keys) a) (slots context (secret_key keys) b);
  sub_plain_ok : forall a p, ct_ok a -> pt_ok p -> ct_ok (evaluator_sub_plain context a p);
  sub_plain_slots :
    forall a p, ct_ok a -> pt_ok p ->
      slots context (secret_key keys) (evaluator_sub_plain context a p) =
      zip_with (fun x y => centered t (x - y))
               (slots context (secret_key keys) a) (decode context p);
  multiply_plain_ok :
    forall a p, ct_ok a -> pt_ok p -> nonzero context p ->
      ct_ok (evaluator_multiply_plain context a p);
  multiply_plain_slots :
    forall a p, ct_ok a -> pt_ok p -> nonzero context p ->
      slots context (secret_key keys) (evaluator_multiply_plain context a p) =
      zip_with (fun x y => centered t (x * y))
               (slots context (secret_key keys) a) (decode context p);
  relinearize_ok :
    forall a, ct_ok a -> ct_ok (evaluator_relinearize context a (relin_keys keys));
  relinearize_slots :
    forall a, ct_ok a ->
      slots context (secret_key keys) (evaluator_relinearize context a (relin_keys keys)) =
      slots context (secret_key keys) a
}.

End Contract.

End Library.

Arguments pt_ok {L parms keys} _ _.
Arguments ct_ok {L parms keys} _ _.

(* ================================================================== *)
(** * The two idioms every [main] is written with *)
(* ================================================================== *)

(** [string s = receive_data(sock); if (s.empty()) return 1;
     stringstream ss(s); x.load(context, ss);] *)
Definition receive_object {A} (load : bytes -> option A) : M A :=
  str <- receive_data ;;
  if empty str then exit 1 else
  or_throw (load str).

(** [x.save(ss); if (!send_data(sock, ss.str())) return 1;] *)
Definition send_object (saved : bytes) : M unit :=
  ok <- send_data saved ;;
  if negb ok then exit 1 else
  ret tt.

(** [static_cast<int64_t>(round(x * SCALE_FACTOR))] *)
Definition scale (x : double) : M Z :=
  a <- or_undefined OutOfRangeConversion (toScaled x SCALE_FACTOR) ;;
  ret (magnitude a).

(* ================================================================== *)
(** * The income/expense/goal session: [server.cpp] and [client.cpp] *)
(* ================================================================== *)

Module Planning.
Section Programs.
Context {L : SEAL}.

(** Section 4 of the first [main] of [server.cpp]: the homomorphic
    operations, as (total expenses, net income, goal difference). *)
Definition pipeline (context : SEALContext)
    (encrypted_total_income : Ciphertext) (encoded_monthly_savings_goal : Plaintext)
    (encrypted_essential_expenses_received : Ciphertext)
    (encrypted_non_essential_expenses_received : Ciphertext)
    : Ciphertext * Ciphertext * Ciphertext :=
  let encrypted_total_expenses :=
    evaluator_add context encrypted_essential_expenses_received
                  encrypted_non_essential_expenses_received in
  let encrypted_net_income :=
    evaluator_sub context encrypted_total_income encrypted_total_expenses in
  let encrypted_goal_difference :=
    evaluator_sub_plain context encrypted_net_income encoded_monthly_savings_goal in
  (encrypted_total_expenses, encrypted_net_income, encrypted_goal_difference).

(** Sections 4 and 5: compute, then send the five results back. *)
Definition respond (context : SEALContext)
    (encrypted_total_income : Ciphertext) (encoded_monthly_savings_goal : Plaintext)
    (encrypted_essential_expenses_received : Ciphertext)
    (encrypted_non_essential_expenses_received : Ciphertext) : M Z :=
  let '(encrypted_total_expenses, encrypted_net_income, encrypted_goal_difference) :=
    pipeline context encrypted_total_income encoded_monthly_savings_goal
             encrypted_essential_expenses_received
             encrypted_non_essential_expenses_received in
  _ <- send_object (ciphertext_save encrypted_total_expenses) ;;
  _ <- send_object (ciphertext_save encrypted_net_income) ;;
  _ <- send_object (ciphertext_save encrypted_goal_difference) ;;
  _ <- send_object (ciphertext_save encrypted_essential_expenses_received) ;;
  _ <- send_object (ciphertext_save encrypted_non_essential_expenses_received) ;;
  ret 0.

(** [server.cpp], first program: [main] from the accepted connection on. *)
Definition server_main : M Z :=
  (* 1. Receive and Load Encryption Parameters *)
  parms <- receive_object parms_load ;;
  let context := make_context parms in
  (* 2. Receive and Load Public, Relinearization, and Galois Keys *)
  public_key <- receive_object (public_key_load context) ;;
  relin_keys <- receive_object (relin_keys_load context) ;;
  galois_keys <- receive_object (galois_keys_load context) ;;
  (* 3. Receive Encrypted Data from Client *)
  encrypted_total_income <- receive_object (ciphertext_load context) ;;
  encoded_monthly_savings_goal <- receive_object (plaintext_load context) ;;
  encrypted_essential_expenses_received <- receive_object (ciphertext_load context) ;;
  encrypted_non_essential_expenses_received <- receive_object (ciphertext_load context) ;;
  (* 4. Perform Homomorphic Operations, 5. Send Encrypted Results back *)
  respond context encrypted_total_income encoded_monthly_savings_goal
          encrypted_essential_expenses_received encrypted_non_essential_expenses_received.

(** What the owner types, already parsed by [stod] and [cin >>]. *)
Record UserInput := mkInput {
  income_sources_raw : list double;
  essential_expenses_sum_plaintext : double;
  non_essential_expenses_sum_plaintext : double;
  monthly_savings_goal_double : double
}.

(** The randomness of the three [encryptor.encrypt] calls. *)
Record Randomness := mkRandomness {
  seed_income : Seed;
  seed_essential : Seed;
  seed_non_essential : Seed
}.

(** The five figures the owner prints. *)
Record Report := mkReport {
  decoded_total_expenses_double : double;
  decoded_net_income_double : double;
  decoded_goal_difference_double : double;
  decoded_essential_expenses_double : double;
  decoded_non_essential_expenses_double : double
}.

(** [static_cast<double>(v[0]) / SCALE_FACTOR] *)
Definition first_slot_descaled (v : list Z) : M double :=
  x <- or_undefined IndexOutOfBounds (hd_error v) ;;
  ret (descale 1 x).

(** [client.cpp]: [main] from the established connection on. [parms] is the
    parameter object the first lines build and [keygen] what the key
    generator returns for it. *)
Definition client_session (parms : EncryptionParameters) (keygen : KeyGenerator)
    (input : UserInput) (rnd : Randomness) : M Report :=
  let context := make_context parms in
  (* 2. Key Generation (Client-side) *)
  let secret_key := secret_key keygen in
  let public_key := public_key keygen in
  let relin_keys := relin_keys keygen in
  let galois_keys := galois_keys keygen in
  (* Send Keys and Parameters to Server *)
  _ <- send_object (parms_save parms) ;;
  _ <- send_object (public_key_save public_key) ;;
  _ <- send_object (relin_keys_save relin_keys) ;;
  _ <- send_object (galois_keys_save galois_keys) ;;
  let slot_count := slot_count context in
  (* 3. Prepare and Encrypt Financial Data *)
  let total_income_plaintext_sum := fold_left Qplus (income_sources_raw input) (0 # 1)%Q in
  total_income_scaled <- scale total_income_plaintext_sum ;;
  let encoded_total_income := encode context (repeat total_income_scaled slot_count) in
  let encrypted_total_income :=
    encrypt context public_key (seed_income rnd) encoded_total_income in
  essential_expenses_scaled <- scale (essential_expenses_sum_plaintext input) ;;
  let encoded_essential_expenses :=
    encode context (repeat essential_expenses_scaled slot_count) in
  let encrypted_essential_expenses :=
    encrypt context public_key (seed_essential rnd) encoded_essential_expenses in
  non_essential_expenses_scaled <- scale (non_essential_expenses_sum_plaintext input) ;;
  let encoded_non_essential_expenses :=
    encode context (repeat non_essential_expenses_scaled slot_count) in
  let encrypted_non_essential_expenses :=
    encrypt context public_key (seed_non_essential rnd) encoded_non_essential_expenses in
  monthly_savings_goal_scaled <- scale (monthly_savings_goal_double input) ;;
  let encoded_monthly_savings_goal :=
    encode context (repeat monthly_savings_goal_scaled slot_count) in
  (* Send Encrypted Data to Server *)
  _ <- send_object (ciphertext_save encrypted_total_income) ;;
  _ <- send_object (plaintext_save encoded_monthly_savings_goal) ;;
  _ <- send_object (ciphertext_save encrypted_essential_expenses) ;;
  _ <- send_object (ciphertext_save encrypted_non_essential_expenses) ;;
  (* Receive Encrypted Results from Server *)
  encrypted_total_expenses_from_server <- receive_object (ciphertext_load context) ;;
  encrypted_net_income_from_server <- receive_object (ciphertext_load context) ;;
  encrypted_goal_difference_from_server <- receive_object (ciphertext_load context) ;;
  encrypted_essential_expenses_from_server_recd <-
    receive_object (ciphertext_load context) ;;
  encrypted_non_essential_expenses_from_server_recd <-
    receive_object (ciphertext_load context) ;;
  (* 5. Decrypt and Decode Results (Client-side) *)
  let read c := first_slot_descaled (decode context (decrypt context secret_key c)) in
  total_expenses <- read encrypted_total_expenses_from_server ;;
  net_income <- read encrypted_net_income_from_server ;;
  goal_difference <- read encrypted_goal_difference_from_server ;;
  essential <- read encrypted_essential_expenses_from_server_recd ;;
  non_essential <- read encrypted_non_essential_expenses_from_server_recd ;;
  ret (mkReport total_expenses net_income goal_difference essential non_essential).

Definition client_main parms keygen input rnd : M Z :=
  _ <- client_session parms keygen input rnd ;;
  ret 0.

End Programs.
End Planning.

(* ================================================================== *)
(** * The two-input session: second program of [server.cpp] and its client *)
(* ================================================================== *)

Module Savings.
Section Programs.
Context {L : SEAL}.

(** [double savings_rate_double = 0.15;] *)
Definition savings_rate_double : double := (15 # 100)%Q.

(** Sections 4 and 5 of the second [main] of [server.cpp]. *)
Definition respond (context : SEALContext) (relin_keys : RelinKeys)
    (encrypted_income encrypted_expense : Ciphertext) : M Z :=
  let slot_count := slot_count context in
  (* 4. Perform Homomorphic Operations (Server-side) *)
  let encrypted_net_income := evaluator_sub context encrypted_income encrypted_expense in
  savings_rate_scaled <- scale savings_rate_double ;;
  let savings_rate_vector := repeat savings_rate_scaled slot_count in
  let encoded_savings_rate := encode context savings_rate_vector in
  let encrypted_savings_contribution :=
    evaluator_multiply_plain context encrypted_income encoded_savings_rate in
  let encrypted_savings_contribution :=
    evaluator_relinearize context encrypted_savings_contribution relin_keys in
  (* 5. Send Encrypted Results back to Client *)
  _ <- send_object (ciphertext_save encrypted_net_income) ;;
  _ <- send_object (ciphertext_save encrypted_savings_contribution) ;;
  ret 0.

(** [server.cpp], second program: [main] from the accepted connection on. *)
Definition server_main : M Z :=
  (* 1. Receive and Load Encryption Parameters *)
  parms <- receive_object parms_load ;;
  let context := make_context parms in
  (* 2. Receive and Load Public and Relinearization Keys *)
  public_key <- receive_object (public_key_load context) ;;
  relin_keys <- receive_object (relin_keys_load context) ;;
  (* 3. Receive and Load Encrypted Data *)
  encrypted_income <- receive_object (ciphertext_load context) ;;
  encrypted_expense <- receive_object (ciphertext_load context) ;;
  (* 4. Perform Homomorphic Operations, 5. Send Encrypted Results back *)
  respond context relin_keys encrypted_income encrypted_expense.

Record UserInput := mkInput {
  income_double_data : list double;
  expense_double_data : list double
}.

Record Randomness := mkRandomness {
  seed_income : Seed;
  seed_expense : Seed
}.

(** The two vectors the owner prints. *)
Record Report := mkReport {
  decoded_net_income_double : list double;
  decoded_savings_contribution_double : list double
}.

(** [v.resize(n)] on a vector of doubles. *)
Definition resize (n : nat) (v : list double) : list double :=
  firstn n v ++ repeat (0 # 1)%Q (n - length v).

Fixpoint scale_all (v : list double) : M (list Z) :=
  match v with
  | [] => ret []
  | x :: v' => a <- scale x ;; r <- scale_all v' ;; ret (a :: r)
  end.

(** [vector<int64_t> scaled(slot_count, 0LL)] with the first [data.size()]
    entries overwritten by the scaled inputs. *)
Definition scaled_data (slot_count : nat) (data : list double) : M (list Z) :=
  head <- scale_all data ;;
  ret (head ++ repeat 0 (slot_count - length data)).

(** The two-input client: [main] from the established connection on. *)
Definition client_session (parms : EncryptionParameters) (keygen : KeyGenerator)
    (input : UserInput) (rnd : Randomness) : M Report :=
  let context := make_context parms in
  let secret_key := secret_key keygen in
  let public_key := public_key keygen in
  let relin_keys := relin_keys keygen in
  (* Send Keys and Parameters to Server *)
  _ <- send_object (parms_save parms) ;;
  _ <- send_object (public_key_save public_key) ;;
  _ <- send_object (relin_keys_save relin_keys) ;;
  let slot_count := slot_count context in
  (* 3. Prepare and Encrypt Financial Data *)
  let income_double_data :=
    if (length (income_double_data input) =? 0)%nat then [(0 # 1)%Q]
    else income_double_data input in
  let expense_double_data :=
    if (length (expense_double_data input) =? 0)%nat then [(0 # 1)%Q]
    else expense_double_data input in
  let max_data_size := Nat.max (length income_double_data) (length expense_double_data) in
  let truncate := (slot_count <? max_data_size)%nat in
  let income_double_data :=
    if truncate then resize slot_count income_double_data else income_double_data in
  let expense_double_data :=
    if truncate then resize slot_count expense_double_data else expense_double_data in
  income_scaled_data <- scaled_data slot_count income_double_data ;;
  expense_scaled_data <- scaled_data slot_count expense_double_data ;;
  let encoded_income := encode context income_scaled_data in
  let encoded_expense := encode context expense_scaled_data in
  let encrypted_income := encrypt context public_key (seed_income rnd) encoded_income in
  let encrypted_expense := encrypt context public_key (seed_expense rnd) encoded_expense in
  (* Send Encrypted Data to Server *)
  _ <- send_object (ciphertext_save encrypted_income) ;;
  _ <- send_object (ciphertext_save encrypted_expense) ;;
  (* Receive Encrypted Results from Server *)
  encrypted_net_income_from_server <- receive_object (ciphertext_load context) ;;
  encrypted_savings_contribution_from_server <- receive_object (ciphertext_load context) ;;
  (* 5. Decrypt and Decode Results (Client-side) *)
  let decrypted_net_income := decrypt context secret_key encrypted_net_income_from_server in
  let decrypted_savings_contribution :=
    decrypt context secret_key encrypted_savings_contribution_from_server in
  let decoded_net_income_scaled := decode context decrypted_net_income in
  let decoded_net_income_double := map (descale 1) decoded_net_income_scaled in
  let decoded_savings_contribution_scaled := decode context decrypted_savings_contribution in
  let decoded_savings_contribution_double :=
    map (descale 2) decoded_savings_contribution_scaled in
  ret (mkReport decoded_net_income_double decoded_savings_contribution_double).

Definition client_main parms keygen input rnd : M Z :=
  _ <- client_session parms keygen input rnd ;;
  ret 0.

End Programs.
End Savings.

(* ================================================================== *)
(** * Vocabulary of the statements *)
(* ================================================================== *)

(** The world after [k] successful [send] calls that wrote [data]. *)
Definition spend (k : nat) (c : option nat) : option nat :=
  match c with Some n => Some (n - k)%nat | None => None end.

Definition write (w : World) (data : bytes) (k : nat) : World :=
  mkWorld (inbound w) (inbound_end w) (outbound w ++ data) (spend k (send_credit w))
          (stack_junk w).

(** At least [k] more [send] calls succeed. *)
Definition can_send (k : nat) (w : World) : Prop :=
  match send_credit w with None => True | Some n => (k <= n)%nat end.

(** The saved object [b] is on offer: it can be framed and it loads to [a]. *)
Definition offered {A} (load : bytes -> option A) (b : bytes) (a : A) : Prop :=
  (b <> [] /\ Z.of_nat (length b) <= VECTOR_MAX_SIZE) /\ load b = Some a.


(** [receive_data] returned the non-empty strings [xs], one call after the
    other, taking the world from [w] to [w']. *)
Fixpoint receives (xs : list bytes) (w w' : World) : Prop :=
  match xs with
  | [] => w' = w
  | x :: xs' => x <> [] /\ exists w1, receive_data w = (Val x, w1) /\ receives xs' w1 w'
  end.

(** The result sends of a [main], one [send_object] after the other. *)
Fixpoint send_all (l : list bytes) : M unit :=
  match l with
  | [] => ret tt
  | x :: l' => _ <- send_object x ;; send_all l'
  end.

Definition is_prefix (p l : bytes) : Prop := exists q, p ++ q = l.

(** The header of the frame a failing [send_data] may leave behind. *)
Definition header_of (x : bytes) : bytes :=
  le_split sizeof_size_t (Z.of_nat (length x)).

(** [m] returns [a] after writing exactly [l], or stops after writing a
    prefix of [l]. *)
Definition emits {A} (m : M A) (a : A) (l : bytes) : Prop :=
  forall w, exists p w1,
    outbound w1 = outbound w ++ p /\
    ((m w = (Val a, w1) /\ p = l) \/ (exists s, m w = (Stop s, w1)) /\ is_prefix p l).

(** Whatever [m] does, what it writes is a prefix of [l]. *)
Definition writes_prefix {A} (m : M A) (l : bytes) : Prop :=
  forall w, exists sent,
    outbound (snd (m w)) = outbound w ++ sent /\ is_prefix sent l.

(** Two programs put the same bytes on the wire, whatever the world. *)
Definition same_wire {A B} (m1 : M A) (m2 : M B) : Prop :=
  forall w, outbound (snd (m1 w)) = outbound (snd (m2 w)).

(** [m] writes nothing. *)
Definition silent {A} (m : M A) : Prop :=
  forall w, outbound (snd (m w)) = outbound w.

(** A connection on which nothing has been written yet and every [send]
    succeeds. *)
Definition fresh (incoming : bytes) (e : StreamEnd) : World :=
  mkWorld incoming e [] None 0.

Section Sessions.
Context {L : SEAL}.

(** What the owner's program does to one amount before it is sent:
    [batch_encoder.encode(vector<int64_t>(slot_count, v), p)] and
    [encryptor.encrypt(p, c)]. The exponent does not take part. *)
Definition encode_amount (context : SEALContext) (a : ScaledAmount) : Plaintext :=
  encode context (repeat (magnitude a) (slot_count context)).

Definition encrypt_amount (context : SEALContext) (pk : PublicKey) (r : Seed)
    (a : ScaledAmount) : Ciphertext :=
  encrypt context pk r (encode_amount context a).

(** The eight objects the owner of the income/expense/goal session saves
    and sends, in order. *)
Definition goal_client_objects (parms : EncryptionParameters) (keygen : KeyGenerator)
    (input : Planning.UserInput) (rnd : Planning.Randomness) : list bytes :=
  let context := make_context parms in
  let amount x := mkScaled (round (x * SCALE_FACTOR)%Q) 1 in
  let total := fold_left Qplus (Planning.income_sources_raw input) (0 # 1)%Q in
  [ parms_save parms;
    public_key_save (public_key keygen);
    relin_keys_save (relin_keys keygen);
    galois_keys_save (galois_keys keygen);
    ciphertext_save
      (encrypt_amount context (public_key keygen) (Planning.seed_income rnd) (amount total));
    plaintext_save
      (encode_amount context (amount (Planning.monthly_savings_goal_double input)));
    ciphertext_save
      (encrypt_amount context (public_key keygen) (Planning.seed_essential rnd)
                      (amount (Planning.essential_expenses_sum_plaintext input)));
    ciphertext_save
      (encrypt_amount context (public_key keygen) (Planning.seed_non_essential rnd)
                      (amount (Planning.non_essential_expenses_sum_plaintext input))) ].

(** The decimal [d] scales to a 64-bit integer. *)
Definition scalable (d : double) : Prop :=
  - 2 ^ 63 <= round (d * SCALE_FACTOR)%Q < 2 ^ 63.

(** The four amounts of the owner scale to 64-bit integers. *)
Definition goal_input_scalable (input : Planning.UserInput) : Prop :=
  scalable (fold_left Qplus (Planning.income_sources_raw input) (0 # 1)%Q) /\
  scalable (Planning.essential_expenses_sum_plaintext input) /\
  scalable (Planning.non_essential_expenses_sum_plaintext input) /\
  scalable (Planning.monthly_savings_goal_double input).

(** The request of one income/expense/goal session: the eight saved
    objects, each loading to the object named after it. *)
Definition goal_request (P PK RLK GLK INC GOAL ESS NON : bytes)
    (parms : EncryptionParameters) (pk : PublicKey) (rlk : RelinKeys) (glk : GaloisKeys)
    (inc : Ciphertext) (goal : Plaintext) (ess non : Ciphertext) : Prop :=
  let context := make_context parms in
  offered parms_load P parms /\
  offered (public_key_load context) PK pk /\
  offered (relin_keys_load context) RLK rlk /\
  offered (galois_keys_load context) GLK glk /\
  offered (ciphertext_load context) INC inc /\
  offered (plaintext_load context) GOAL goal /\
  offered (ciphertext_load context) ESS ess /\
  offered (ciphertext_load context) NON non.

(** The five result strings of that session, in the order they are sent. *)
Definition goal_results (context : SEALContext) (inc : Ciphertext) (goal : Plaintext)
    (ess non : Ciphertext) : list bytes :=
  let '(total, net, diff) := Planning.pipeline context inc goal ess non in
  [ciphertext_save total; ciphertext_save net; ciphertext_save diff;
   ciphertext_save ess; ciphertext_save non].

(** [load] accepts the string [b]. *)
Definition loads {A} (load : bytes -> option A) (b : bytes) : bool :=
  match load b with Some _ => true | None => false end.

(** The loads of the first [main] of [server.cpp] that take the context,
    in the order of its receives: the three keys, the income, the goal and
    the two expense totals. *)
Definition goal_loaders (context : SEALContext) : list (bytes -> bool) :=
  [ loads (public_key_load context);
    loads (relin_keys_load context);
    loads (galois_keys_load context);
    loads (ciphertext_load context);
    loads (plaintext_load context);
    loads (ciphertext_load context);
    loads (ciphertext_load context) ].

Fixpoint all_load (loaders : list (bytes -> bool)) (xs : list bytes) : bool :=
  match loaders, xs with
  | load :: loaders', x :: xs' => load x && all_load loaders' xs'
  | _, _ => true
  end.

(** The strings [xs], received one after the other from the start of that
    [main], are each accepted by the load they are handed to: the first by
    the load of the parameters, the next ones, with the context of these
    parameters, by the loads above. *)
Definition goal_strings_load (xs : list bytes) : bool :=
  match xs with
  | [] => true
  | P :: rest =>
      match parms_load P with
      | Some parms => all_load (goal_loaders (make_context parms)) rest
      | None => false
      end
  end.

(** The input vectors of the two-input owner after the empty-input
    default and the truncation to the slot count. *)
Definition prepared (slot_count : nat) (mine other : list double) : list double :=
  let mine := if (length mine =? 0)%nat then [(0 # 1)%Q] else mine in
  let other := if (length other =? 0)%nat then [(0 # 1)%Q] else other in
  if (slot_count <? Nat.max (length mine) (length other))%nat
  then Savings.resize slot_count mine else mine.

(** The request of one two-input session. *)
Definition savings_request (P PK RLK INC EXP : bytes)
    (parms : EncryptionParameters) (pk : PublicKey) (rlk : RelinKeys)
    (inc exp : Ciphertext) : Prop :=
  let context := make_context parms in
  offered parms_load P parms /\
  offered (public_key_load context) PK pk /\
  offered (relin_keys_load context) RLK rlk /\
  offered (ciphertext_load context) INC inc /\
  offered (ciphertext_load context) EXP exp.

(** The ciphertext of the savings contribution the second [main] computes
    from the income and the rate scaled to [rate]. *)
Definition savings_contribution (context : SEALContext) (rlk : RelinKeys)
    (inc : Ciphertext) (rate : Z) : Ciphertext :=
  evaluator_relinearize context
    (evaluator_multiply_plain context inc
       (encode context (repeat rate (slot_count context)))) rlk.

(** The integers the two-input owner encodes for one of its vectors, for
    amounts that scale to 64-bit integers. *)
Definition scaled_vector (slot_count : nat) (data : list double) : list Z :=
  map (fun d => round (d * SCALE_FACTOR)%Q) data ++ repeat 0 (slot_count - length data).

(** The five objects the owner of the two-input session saves and sends. *)
Definition savings_client_objects (parms : EncryptionParameters) (keygen : KeyGenerator)
    (input : Savings.UserInput) (rnd : Savings.Randomness) : list bytes :=
  let context := make_context parms in
  let n := slot_count context in
  let income := prepared n (Savings.income_double_data input)
                         (Savings.expense_double_data input) in
  let expense := prepared n (Savings.expense_double_data input)
                          (Savings.income_double_data input) in
  [ parms_save parms;
    public_key_save (public_key keygen);
    relin_keys_save (relin_keys keygen);
    ciphertext_save (encrypt context (public_key keygen) (Savings.seed_income rnd)
                             (encode context (scaled_vector n income)));
    ciphertext_save (encrypt context (public_key keygen) (Savings.seed_expense rnd)
                             (encode context (scaled_vector n expense))) ].

(** One income/expense/goal session. Both programs are sequential and the
    owner writes all its frames before it reads any: what the owner sends
    is read off a run of its program, the compute party runs on it, and the
    owner's program runs with the reply as its input. *)
Definition goal_session (parms : EncryptionParameters) (keygen : KeyGenerator)
    (input : Planning.UserInput) (rnd : Planning.Randomness) : Result Planning.Report :=
  let owner := Planning.client_session parms keygen input rnd in
  let sent := outbound (snd (owner (fresh [] Silent))) in
  let reply := outbound (snd (Planning.server_main (fresh sent Silent))) in
  fst (owner (fresh reply PeerClosed)).


End Sessions.

(* ================================================================== *)
(** * A reference implementation of the interface *)
(* ================================================================== *)

(** A transparent stand-in for the library: a ciphertext is its slot vector
    tagged with the key it belongs to, arithmetic is slot-wise modulo the
    plain modulus, and every [load] checks what it reads. It shows that the
    contract can be met and lets the programs run on concrete sessions. *)
Module Reference.

(** A 30-bit prime congruent to 1 modulo [2 * 8192], as
    [PlainModulus::Batching(8192, 30)] asks for. *)
Definition batching_prime : Z := 1073692673.

(** 4 slots instead of 8192, to keep concrete runs small. *)
Definition slots_per_plaintext : nat := 4.

Definition magic : byte := Byte.x5e.

Record Cipher := mkCipher {
  ct_key : byte;
  ct_seed : byte;
  ct_slots : list Z
}.

Definition word_save (v : Z) : bytes := le_split 4 v.

Fixpoint words_load (n : nat) (b : bytes) : list Z :=
  match n with
  | O => []
  | S n' => le_combine (firstn 4 b) :: words_load n' (skipn 4 b)
  end.

Definition slots_save (p : list Z) : bytes := concat (map word_save p).

Definition slots_load (t : Z) (b : bytes) : option (list Z) :=
  if (length b =? 4 * slots_per_plaintext)%nat then
    let p := words_load slots_per_plaintext b in
    if forallb (fun v => v <? t) p then Some p else None
  else None.

Definition parms_save (p : Z) : bytes := magic :: le_split 4 p.

Definition parms_load (b : bytes) : option Z :=
  match b with
  | m :: rest =>
      if Byte.eqb m magic && (length rest =? 4)%nat then Some (le_combine rest) else None
  | [] => None
  end.

Definition key_save (k : byte) : bytes := [magic; k].

Definition key_load (t : Z) (b : bytes) : option byte :=
  match b with
  | [m; k] => if Byte.eqb m magic then Some k else None
  | _ => None
  end.

Definition plaintext_save (p : list Z) : bytes := magic :: slots_save p.

Definition plaintext_load (t : Z) (b : bytes) : option (list Z) :=
  match b with
  | m :: rest => if Byte.eqb m magic then slots_load t rest else None
  | [] => None
  end.

Definition ciphertext_save (c : Cipher) : bytes :=
  magic :: ct_key c :: ct_seed c :: slots_save (ct_slots c).

Definition ciphertext_load (t : Z) (b : bytes) : option Cipher :=
  match b with
  | m :: k :: r :: rest =>
      if Byte.eqb m magic then
        match slots_load t rest with
        | Some p => Some (mkCipher k r p)
        | None => None
        end
      else None
  | _ => None
  end.

Definition encode (t : Z) (vs : list Z) : list Z :=
  map (fun v => v mod t) vs ++ repeat 0 (slots_per_plaintext - length vs).

Definition decode (t : Z) (p : list Z) : list Z := map (centered t) p.

Definition encrypt (t : Z) (pk : byte) (r : byte) (p : list Z) : Cipher :=
  mkCipher pk r p.

Definition decrypt (t : Z) (sk : byte) (c : Cipher) : list Z :=
  if Byte.eqb (ct_key c) sk then ct_slots c else [].

Definition slotwise (f : Z -> Z -> Z) (t : Z) (a : Cipher) (p : list Z) : Cipher :=
  mkCipher (ct_key a) (ct_seed a) (zip_with (fun x y => f x y mod t) (ct_slots a) p).

#[export] Instance library : SEAL :=
  Build_SEAL
    Z Z byte byte byte byte (list Z) Cipher byte
    (fun p => p)
    parms_save parms_load
    key_save key_load          (* public key *)
    key_save key_load          (* relinearization keys *)
    key_save key_load          (* Galois keys: the same key-switching format *)
    plaintext_save plaintext_load
    ciphertext_save ciphertext_load
    (fun _ => slots_per_plaintext)
    (fun t => t)
    encode decode encrypt decrypt
    (fun t a b => slotwise Z.add t a (ct_slots b))
    (fun t a b => slotwise Z.sub t a (ct_slots b))
    (slotwise Z.sub)
    (slotwise Z.mul)
    (fun t a _ => a).

(** The keys of one owner: the public and evaluation keys carry the tag of
    the secret key they were made from. *)
Definition keys : KeyGenerator := mkKeys Byte.x2a Byte.x2a Byte.x2a Byte.x2a.

Definition slot_ok (t v : Z) : Prop := 0 <= v < t.

Definition plaintext_ok (t : Z) (p : list Z) : Prop :=
  length p = slots_per_plaintext /\ Forall (slot_ok t) p.

Definition ciphertext_ok (t : Z) (sk : byte) (c : Cipher) : Prop :=
  ct_key c = sk /\ plaintext_ok t (ct_slots c).

End Reference.


(** One concrete income/expense/goal session on the reference
    implementation: $1500.75 of income, $450.50 and $120.00 of expenses, a
    goal of $500.00. *)
Module Sample.
Import Reference.

Definition parms : EncryptionParameters := batching_prime.

Definition input : Planning.UserInput :=
  Planning.mkInput [(150075 # 100)%Q] (45050 # 100)%Q (120 # 1)%Q (500 # 1)%Q.

Definition rnd : Planning.Randomness := Planning.mkRandomness Byte.x01 Byte.x02 Byte.x03.

Definition income : Ciphertext := encrypt_amount parms Byte.x2a Byte.x01 (mkScaled 150075 1).
Definition essential : Ciphertext := encrypt_amount parms Byte.x2a Byte.x02 (mkScaled 45050 1).
Definition non_essential : Ciphertext :=
  encrypt_amount parms Byte.x2a Byte.x03 (mkScaled 12000 1).
Definition goal : Plaintext := encode_amount parms (mkScaled 50000 1).

(** The eight strings the owner frames. *)
Definition objects : list bytes :=
  [parms_save parms; key_save Byte.x2a; key_save Byte.x2a; key_save Byte.x2a;
   ciphertext_save income; plaintext_save goal;
   ciphertext_save essential; ciphertext_save non_essential].

Definition total_expenses : Ciphertext := evaluator_add parms essential non_essential.

(** The compute party's end of the connection once the request is on the
    wire, with [credit] sends left to succeed. *)
Definition server_world (credit : option nat) : World :=
  mkWorld (frames objects) Silent [] credit 0.

(** The two-input session of the same owner, without its relinearization
    keys frame. *)
Definition savings_income : Ciphertext :=
  encrypt parms Byte.x2a Byte.x01 (encode parms [150075; 0; 0; 0]).
Definition savings_expense : Ciphertext :=
  encrypt parms Byte.x2a Byte.x02 (encode parms [45050; 0; 0; 0]).

Definition objects_without_relin_keys : list bytes :=
  [parms_save parms; key_save Byte.x2a;
   ciphertext_save savings_income; ciphertext_save savings_expense].

End Sample.

(* ================================================================== *)
(** * Vocabulary of the further statements *)
(* ================================================================== *)

(** The strings a peer can frame: short enough for the length header and
    the receive buffer. *)
Definition framable (x : bytes) : Prop := Z.of_nat (length x) <= VECTOR_MAX_SIZE.

(* ================================================================== *)
(** * What the owner is told: section 6 of [client.cpp] *)
(* ================================================================== *)

Module Recommendations.

    (* "Revisit your budget and see where you can make changes ..." *)




End Recommendations.

(** The result strings of the two-input session, in the order they are
    sent. *)
Definition savings_results {L : SEAL} (context : SEALContext) (rlk : RelinKeys)
    (inc exp : Ciphertext) : list bytes :=
  [ciphertext_save (evaluator_sub context inc exp);
   ciphertext_save (savings_contribution context rlk inc 15)].

(* ================================================================== *)
(** * Console output: [print_example_banner] and [print_vector] *)
(* ================================================================== *)

Module Console.

(** [std::string::max_size()]. It is below [2 ^ 63] in every release of the
    standard library of the platform, and the bar sizes the banner can ask
    for are either below 79 or above [2 ^ 63]. [string(n, c)] throws
    [std::length_error] beyond it. *)
Definition STRING_MAX_SIZE : Z := 2 ^ 63 - 1.

(** [cout << endl] *)
Definition endl : bytes := [Byte.x0a].

(** [79UL - title_size]: [unsigned long] arithmetic, modulo [2 ^ 64]. *)
Definition minus_unsigned_long (a b : Z) : Z := (a - b) mod 2 ^ 64.

(** [string(n, c)] *)
Definition string_of_size (n : Z) (c : byte) : option bytes :=
  if n >? STRING_MAX_SIZE then None else Some (repeat c (Z.to_nat n)).

(** [void print_example_banner(string title)]: what it writes to [cout],
    or [None] when it throws. *)
Definition print_example_banner (title : bytes) : option bytes :=
  if negb (empty title) then
    let title_size := Z.of_nat (length title) in
    let bar_size := Z.max 2 (minus_unsigned_long 79 title_size) in
    match string_of_size bar_size Byte.x3d with
    | None => None
    | Some bar_top =>
        match string_of_size bar_size Byte.x2d with
        | None => None
        | Some bar_bottom =>
            Some (endl ++
                  [Byte.x3d; Byte.x3d] ++ bar_top ++ endl ++
                  [Byte.x3d; Byte.x20] ++ title ++ endl ++
                  [Byte.x3d; Byte.x3d] ++ bar_bottom ++ endl)
        end
    end
  else Some [].

Section PrintVector.
Context {T : Type}.

(** What [cout << x] writes for an element. *)
Variable show : T -> bytes.

(** The loop of [print_vector] from index [i] on: each element, followed
    by [", "] unless [i == vec.size() - 1]. *)
Fixpoint print_elements (size i : nat) (rest : list T) : bytes :=
  match rest with
  | [] => []
  | x :: rest' =>
      show x ++
      (if (i =? size - 1)%nat then [] else [Byte.x2c; Byte.x20]) ++
      print_elements size (S i) rest'
  end.

(** [void print_vector(const vector<T>& vec, const string& name = "")] *)
Definition print_vector (vec : list T) (name : bytes) : bytes :=
  (if negb (empty name) then name ++ [Byte.x3a; Byte.x20] else []) ++
  [Byte.x5b] ++ print_elements (length vec) 0 vec ++ [Byte.x5d] ++ endl.

End PrintVector.

(** The strings of [l] with [sep] between neighbours. *)
Fixpoint join (sep : bytes) (l : list bytes) : bytes :=
  match l with
  | [] => []
  | [x] => x
  | x :: l' => x ++ sep ++ join sep l'
  end.

End Console.

(* ================================================================== *)
(** * Typed input: [std::cin] and the input loops *)
(* ================================================================== *)

Module Stdin.

(** [std::cin]: the characters not yet read and the two state bits the
    programs can meet. *)
Record Cin := mkCin {
  pending : bytes;
  eofbit : bool;
  failbit : bool
}.

Definition good (c : Cin) : bool := negb (eofbit c || failbit c).

(** Standard input as the program finds it. *)
Definition opened (text : bytes) : Cin := mkCin text false false.

(** [isspace] in the "C" locale: space, \t, \n, \v, \f, \r. *)
Definition isspace (b : byte) : bool :=
  match b with
  | Byte.x20 | Byte.x09 | Byte.x0a | Byte.x0b | Byte.x0c | Byte.x0d => true
  | _ => false
  end.

Fixpoint skip_space (s : bytes) : bytes :=
  match s with
  | b :: s' => if isspace b then skip_space s' else s
  | [] => []
  end.

(** The characters up to the next white space, and what follows them. *)
Fixpoint take_word (s : bytes) : bytes * bytes :=
  match s with
  | b :: s' =>
      if isspace b then ([], s)
      else let (word, rest) := take_word s' in (b :: word, rest)
  | [] => ([], [])
  end.

(** [cin >> str] for a [std::string]: the value of [str] afterwards, and
    the stream. When the stream is not good, or ends before a character
    that is not white space, the extraction fails and [str] is unchanged. *)
Definition extract_string (str : bytes) (c : Cin) : bytes * Cin :=
  if good c then
    match skip_space (pending c) with
    | [] => (str, mkCin [] true true)
    | s => let (word, rest) := take_word s in (word, mkCin rest (empty rest) false)
    end
  else (str, mkCin (pending c) (eofbit c) true).

(** What follows the next newline, if there is one. *)
Fixpoint after_newline (s : bytes) : option bytes :=
  match s with
  | b :: s' => if Byte.eqb b Byte.x0a then Some s' else after_newline s'
  | [] => None
  end.

(** [cin.ignore(numeric_limits<streamsize>::max(), '\n')] *)
Definition ignore_line (c : Cin) : Cin :=
  if good c then
    match after_newline (pending c) with
    | Some rest => mkCin rest false false
    | None => mkCin [] true false
    end
  else mkCin (pending c) (eofbit c) true.

(** [cin.clear()] *)
Definition clear (c : Cin) : Cin := mkCin (pending c) false false.

(** [a == b] on strings. *)
Fixpoint string_eqb (a b : bytes) : bool :=
  match a, b with
  | [], [] => true
  | x :: a', y :: b' => Byte.eqb x y && string_eqb a' b'
  | _, _ => false
  end.

(** ["done"] *)
Definition done : bytes := [Byte.x64; Byte.x6f; Byte.x6e; Byte.x65].

(** The value of a decimal digit, and of a string of them. *)
Definition digit (b : byte) : option Z :=
  let n := Z.of_N (Byte.to_N b) in
  if (48 <=? n) && (n <=? 57) then Some (n - 48) else None.

Fixpoint digits (s : bytes) (value : Z) : option Z :=
  match s with
  | [] => Some value
  | b :: s' =>
      match digit b with
      | Some d => digits s' (10 * value + d)
      | None => None
      end
  end.

(** How a call of [std::stod] ends. *)
Inductive Stod :=
| Converted (value : double)
| InvalidArgument     (* throws [std::invalid_argument] *)
| OutOfRange.         (* throws [std::out_of_range] *)

(** A stand-in for [std::stod] on words of decimal digits, for concrete
    runs: the number the digits write, and no conversion for any other
    word. *)
Definition stod_of_digits (s : bytes) : Stod :=
  match s with
  | [] => InvalidArgument
  | _ =>
      match digits s 0 with
      | Some v => Converted (inject_Z v)
      | None => InvalidArgument
      end
  end.

(** What [cin >> value] for a [double] makes of the characters at hand
    once white space is skipped: a value and what is left of the stream,
    or no value and what is left. *)
Inductive NumGet :=
| Number (value : double) (rest : bytes)
| NoNumber (rest : bytes).

(** A stand-in for the number parsing of [cin >> value] on decimal
    digits, for concrete runs: the digits at hand are the number, and
    anything else is none. *)
Fixpoint leading_digits (s : bytes) (value : Z) : Z * bytes :=
  match s with
  | b :: s' =>
      match digit b with
      | Some d => leading_digits s' (10 * value + d)
      | None => (value, s)
      end
  | [] => (value, [])
  end.

Definition num_get_digits (s : bytes) : NumGet :=
  match s with
  | b :: _ =>
      match digit b with
      | Some _ => let (v, rest) := leading_digits s 0 in Number (inject_Z v) rest
      | None => NoNumber s
      end
  | [] => NoNumber []
  end.

(** How a piece of input code ends when it ends: with a value and the
    stream as it leaves it, or on an exception nothing catches. *)
Inductive Read (A : Type) :=
| Got (a : A) (c : Cin)
| Threw.
Arguments Got {A} a c.
Arguments Threw {A}.

(** A [cin.ignore(..., '\n')] after a piece of input code. *)
Definition then_ignore {A} (r : Read A) : Read A :=
  match r with
  | Got a c => Got a (ignore_line c)
  | Threw => Threw
  end.

(** A round of a loop with the [cin.ignore] that follows the loop done on
    leaving. *)
Definition leaving_ignores {S A} (body : S -> S + Read A) (s : S) : S + Read A :=
  match body s with
  | inl s' => inl s'
  | inr r => inr (then_ignore r)
  end.

(** A [while (true)] loop whose body either goes round again or leaves:
    the result of leaving within [fuel] rounds. *)
Fixpoint loop {S R} (body : S -> S + R) (fuel : nat) (s : S) : option R :=
  match fuel with
  | O => None
  | Datatypes.S fuel' =>
      match body s with
      | inr r => Some r
      | inl s' => loop body fuel' s'
      end
  end.

(** The loop started in [s] leaves with [r], or never leaves. *)
Definition leaves {S R} (body : S -> S + R) (s : S) (o : option R) : Prop :=
  match o with
  | Some r => exists fuel, loop body fuel s = Some r
  | None => forall fuel, loop body fuel s = None
  end.

(** The variables of an input loop. *)
Record Loop := mkLoop {
  cin : Cin;
  input_line : bytes;
  data : list double
}.

Section Programs.

(** The conversions of the standard library, which the programs call and
    do not define. *)
Variable stod : bytes -> Stod.
Variable num_get : bytes -> NumGet.

(** One round of the loop of [get_user_doubles], which is also the income
    loop of [main] in [client.cpp]. [push_back] is taken to succeed. *)
Definition get_user_doubles_body (s : Loop) : Loop + Read (list double) :=
  let (input_line, c) := extract_string (input_line s) (cin s) in
  if string_eqb input_line done then inr (Got (data s) (ignore_line c))
  else
    match stod input_line with
    | Converted value => inl (mkLoop c input_line (data s ++ [value]))
    | InvalidArgument => inl (mkLoop (ignore_line (clear c)) input_line (data s))
    | OutOfRange => inr Threw
    end.

(** [vector<double> get_user_doubles(const string& prompt_name)] *)
Definition get_user_doubles (fuel : nat) (c : Cin) : option (Read (list double)) :=
  loop get_user_doubles_body fuel (mkLoop c [] []).

(** [cin >> value] for a [double]. *)
Definition extract_double (c : Cin) : option double * Cin :=
  if good c then
    match skip_space (pending c) with
    | [] => (None, mkCin [] true true)
    | s =>
        match num_get s with
        | Number value rest => (Some value, mkCin rest (empty rest) false)
        | NoNumber rest => (None, mkCin rest (empty rest) true)
        end
    end
  else (None, mkCin (pending c) (eofbit c) true).

(** One round of [while (!(cin >> value)) { cin.clear(); cin.ignore(...); }]
    and the [cin.ignore] after the loop. *)
Definition get_single_double_input_body (c : Cin) : Cin + Read double :=
  match extract_double c with
  | (Some value, c') => inr (Got value (ignore_line c'))
  | (None, c') => inl (ignore_line (clear c'))
  end.

(** [double get_single_double_input(const string& prompt_name)] *)
Definition get_single_double_input (fuel : nat) (c : Cin) : option (Read double) :=
  loop get_single_double_input_body fuel c.

(** One round of an input loop of the two-input client: no [cin.ignore]
    inside the loop. [push_back] is taken to succeed. *)
Definition read_amounts_body (s : Loop) : Loop + Read (list double) :=
  let (input_line, c) := extract_string (input_line s) (cin s) in
  if string_eqb input_line done then inr (Got (data s) c)
  else
    match stod input_line with
    | Converted value => inl (mkLoop c input_line (data s ++ [value]))
    | InvalidArgument => inl (mkLoop c input_line (data s))
    | OutOfRange => inr Threw
    end.

(** One input loop of the two-input client, entered with [input_line] as
    the loop before left it, and the [cin.ignore] after the loop. *)
Definition read_amounts (fuel : nat) (input_line : bytes) (c : Cin)
    : option (Read (list double)) :=
  option_map then_ignore (loop read_amounts_body fuel (mkLoop c input_line [])).

(** The input section of the two-input client: the income loop, a
    [cin.ignore], the expense loop, a [cin.ignore]. The two loops share the
    variable [input_line], which holds ["done"] when the first is left. *)
Definition read_two_inputs (fuel : nat) (c : Cin) : option (Read Savings.UserInput) :=
  match read_amounts fuel [] c with
  | Some (Got income_double_data c1) =>
      match read_amounts fuel done c1 with
      | Some (Got expense_double_data c2) =>
          Some (Got (Savings.mkInput income_double_data expense_double_data) c2)
      | Some Threw => Some Threw
      | None => None
      end
  | Some Threw => Some Threw
  | None => None
  end.

(** The input section of [main] in [client.cpp]: the income loop, then the
    essential expenses, the non-essential expenses and the savings goal. *)
Definition read_planning_input (fuel : nat) (c : Cin) : option (Read Planning.UserInput) :=
  match get_user_doubles fuel c with
  | Some (Got income_sources_raw c1) =>
      match get_single_double_input fuel c1 with
      | Some (Got essential c2) =>
          match get_single_double_input fuel c2 with
          | Some (Got non_essential c3) =>
              match get_single_double_input fuel c3 with
              | Some (Got goal c4) =>
                  Some (Got (Planning.mkInput income_sources_raw essential
                                              non_essential goal) c4)
              | Some Threw => Some Threw
              | None => None
              end
          | Some Threw => Some Threw
          | None => None
          end
      | Some Threw => Some Threw
      | None => None
      end
  | Some Threw => Some Threw
  | None => None
  end.

End Programs.

(** ** Vocabulary: input typed as lines of words *)

Definition space : byte := Byte.x20.
Definition newline : byte := Byte.x0a.

(** A word: not empty, no white space in it. *)
Definition is_word (w : bytes) : Prop :=
  w <> [] /\ Forall (fun b => isspace b = false) w.

(** The words of a line with one space between neighbours, and a newline. *)
Definition line_text (words : list bytes) : bytes :=
  Console.join [space] words ++ [newline].

Definition text (lines : list (list bytes)) : bytes :=
  concat (map line_text lines).

(** What is left of a line once a word of it has been read: the words
    still to come, each after a space, and the newline. *)
Definition line_tail (words : list bytes) : bytes :=
  concat (map (cons space) words) ++ [newline].

(** [w] stands in [s] as a word: delimited by white space or the ends. *)
Definition occurs_as_word (w s : bytes) : Prop :=
  is_word w /\
  exists before after,
    s = before ++ w ++ after /\
    (before = [] \/ exists b p, before = p ++ [b] /\ isspace b = true) /\
    (after = [] \/ exists b q, after = b :: q /\ isspace b = true).

(** How [get_user_doubles] deals with one line of words, given the
    amounts collected so far. *)
Inductive LineEnd :=
| NextLine (collected : list double)
| Finished (collected : list double)
| Thrown.

Fixpoint collect_line (stod : bytes -> Stod) (words : list bytes)
    (collected : list double) : LineEnd :=
  match words with
  | [] => NextLine collected
  | w :: words' =>
      if string_eqb w done then Finished collected
      else
        match stod w with
        | Converted value => collect_line stod words' (collected ++ [value])
        | InvalidArgument => NextLine collected
        | OutOfRange => Thrown
        end
  end.

(** The amounts [get_user_doubles] collects from lines of words: [None]
    when the lines run out before it has met ["done"]. *)
Fixpoint collect (stod : bytes -> Stod) (lines : list (list bytes))
    (collected : list double) : option (Read (list double)) :=
  match lines with
  | [] => None
  | l :: lines' =>
      match collect_line stod l collected with
      | NextLine collected' => collect stod lines' collected'
      | Finished collected' => Some (Got collected' (opened (text lines')))
      | Thrown => Some Threw
      end
  end.

(** The same for an input loop of the two-input client followed by its
    [cin.ignore]: a word that is no number is passed over and the rest of
    its line is read on. *)
Fixpoint amounts_line (stod : bytes -> Stod) (words : list bytes)
    (collected : list double) : LineEnd :=
  match words with
  | [] => NextLine collected
  | w :: words' =>
      if string_eqb w done then Finished collected
      else
        match stod w with
        | Converted value => amounts_line stod words' (collected ++ [value])
        | InvalidArgument => amounts_line stod words' collected
        | OutOfRange => Thrown
        end
  end.

Fixpoint amounts (stod : bytes -> Stod) (lines : list (list bytes))
    (collected : list double) : option (Read (list double)) :=
  match lines with
  | [] => None
  | l :: lines' =>
      match amounts_line stod l collected with
      | NextLine collected' => amounts stod lines' collected'
      | Finished collected' => Some (Got collected' (opened (text lines')))
      | Thrown => Some Threw
      end
  end.

End Stdin.
(* ================================================================== *)
(** * Facts about the monad and the transport *)
(* ================================================================== *)

Lemma bind_val {A B} (m : M A) (k : A -> M B) w a w' :
  m w = (Val a, w') -> bind m k w = k a w'.
Proof. intros H. unfold bind. now rewrite H. Qed.

Lemma bind_stop {A B} (m : M A) (k : A -> M B) w s w' :
  m w = (Stop s, w') -> bind m k w = (Stop s, w').
Proof. intros H. unfold bind. now rewrite H. Qed.

Lemma bind_ret {A B} (a : A) (k : A -> M B) w : bind (ret a) k w = k a w.
Proof. reflexivity. Qed.

Lemma empty_false (s : bytes) : s <> [] -> empty s = false.
Proof. destruct s; [congruence | reflexivity]. Qed.

Lemma empty_true (s : bytes) : empty s = true -> s = [].
Proof. destruct s; [reflexivity | discriminate]. Qed.

Lemma firstn_app_exact {A} (n : nat) (a b : list A) :
  length a = n -> firstn n (a ++ b) = a.
Proof.
  intros <-. now rewrite firstn_app, Nat.sub_diag, firstn_all, firstn_O, app_nil_r.
Qed.

Lemma skipn_app_exact {A} (n : nat) (a b : list A) :
  length a = n -> skipn n (a ++ b) = b.
Proof.
  intros <-. now rewrite skipn_app, Nat.sub_diag, skipn_all.
Qed.

Lemma stored_full (got buf : bytes) : length got = length buf -> stored got buf = got.
Proof.
  intros H. unfold stored. rewrite H, skipn_all. apply app_nil_r.
Qed.

Lemma length_frame (x : bytes) : length (frame x) = (sizeof_size_t + length x)%nat.
Proof. unfold frame. now rewrite length_app, length_le_split. Qed.

Lemma header_value (n : Z) :
  0 <= n <= VECTOR_MAX_SIZE -> le_combine (le_split sizeof_size_t n) = n.
Proof.
  intros H. rewrite le_combine_split. apply Z.mod_small.
  unfold VECTOR_MAX_SIZE, sizeof_size_t in *. simpl. lia.
Qed.

(** A read of exactly the bytes that are there. *)
Lemma recv_exact (x rest : bytes) (w : World) :
  inbound w = x ++ rest ->
  recv (Z.of_nat (length x)) w = Some (Z.of_nat (length x), x, set_inbound w rest).
Proof.
  intros H. unfold recv. rewrite H, length_app, Nat2Z.id.
  replace (Z.of_nat (length x) <=? Z.of_nat (length x + length rest)) with true
    by (symmetry; apply Z.leb_le; lia).
  rewrite firstn_app, Nat.sub_diag, firstn_all, firstn_O, app_nil_r.
  rewrite skipn_app, Nat.sub_diag, skipn_all. reflexivity.
Qed.

(** One whole frame at the head of the stream is returned as it was sent. *)
Lemma receive_data_frame (x rest : bytes) (w : World) :
  Z.of_nat (length x) <= VECTOR_MAX_SIZE ->
  inbound w = frame x ++ rest ->
  receive_data w = (Val x, set_inbound w rest).
Proof.
  intros Hlen Hin. unfold receive_data, sys_recv.
  unfold bind at 1, junk.
  assert (H8 : Z.of_nat sizeof_size_t =
               Z.of_nat (length (le_split sizeof_size_t (Z.of_nat (length x)))))
    by now rewrite length_le_split.
  unfold frame in Hin. rewrite <- app_assoc in Hin.
  unfold bind at 1. rewrite H8 at 1. rewrite (recv_exact _ _ _ Hin).
  cbn [fst snd].
  replace (Z.of_nat (length (le_split sizeof_size_t (Z.of_nat (length x)))) =? -1)
    with false by (symmetry; apply Z.eqb_neq; lia).
  rewrite stored_full by now rewrite !length_le_split.
  rewrite header_value by lia.
  replace (Z.of_nat (length x) >? VECTOR_MAX_SIZE) with false
    by (symmetry; rewrite Z.gtb_ltb; apply Z.ltb_ge; lia).
  unfold bind.
  rewrite (recv_exact x rest (set_inbound w (x ++ rest))) by reflexivity.
  cbn [fst snd].
  replace (Z.of_nat (length x) =? -1) with false by (symmetry; apply Z.eqb_neq; lia).
  rewrite stored_full by now rewrite repeat_length, Nat2Z.id.
  reflexivity.
Qed.

(** [receive_data] writes nothing and costs no send. *)
Lemma recv_keeps (len : Z) (w w' : World) r got :
  recv len w = Some (r, got, w') ->
  outbound w' = outbound w /\ send_credit w' = send_credit w /\
  inbound_end w' = inbound_end w /\ stack_junk w' = stack_junk w.
Proof.
  unfold recv. destruct (len <=? _).
  - intros H; inversion H; subst. cbn. auto.
  - destruct (inbound_end w) eqn:Eend, (inbound w) eqn:Ein;
      intros H; inversion H; subst; cbn; auto.
Qed.

Lemma receive_data_keeps (w w' : World) (r : Result bytes) :
  receive_data w = (r, w') ->
  outbound w' = outbound w /\ send_credit w' = send_credit w.
Proof.
  unfold receive_data, junk, sys_recv, bind, ret, throw.
  destruct (recv (Z.of_nat sizeof_size_t) w) as [[[r1 g1] w1]|] eqn:E1.
  2: { intros H; inversion H; subst; auto. }
  apply recv_keeps in E1. cbn [fst snd].
  destruct (r1 =? -1). { intros H; inversion H; subst; tauto. }
  destruct (_ >? VECTOR_MAX_SIZE). { intros H; inversion H; subst; tauto. }
  match goal with |- context [recv ?n w1] =>
    destruct (recv n w1) as [[[r2 g2] w2]|] eqn:E2 end.
  2: { intros H; inversion H; subst; tauto. }
  apply recv_keeps in E2. cbn [fst snd].
  destruct (r2 =? -1); intros H; inversion H; subst; intuition congruence.
Qed.

Lemma of_nat_not_minus_one (n : nat) : (Z.of_nat n =? -1) = false.
Proof. apply Z.eqb_neq. lia. Qed.

(** The four ways a [send_data] call can go. *)
Lemma send_data_cases (x : bytes) (w : World) :
  send_data x w =
  match send_credit w with
  | Some O => (Val false, w)
  | Some (S O) =>
      (Val false, write w (le_split sizeof_size_t (Z.of_nat (length x))) 1)
  | _ => (Val true, write w (frame x) 2)
  end.
Proof.
  unfold send_data, sys_send, bind, send.
  destruct (send_credit w) as [[|[|n]]|] eqn:E;
    unfold write, frame, spend, ret; rewrite ?E;
    repeat (cbn -[le_split]; rewrite ?of_nat_not_minus_one);
    rewrite <- ?app_assoc, ?Nat.sub_0_r; reflexivity.
Qed.

Lemma send_object_free (x : bytes) (w : World) :
  send_credit w = None -> send_object x w = (Val tt, write w (frame x) 2).
Proof.
  intros H. unfold send_object, bind. rewrite send_data_cases, H. reflexivity.
Qed.

(** The two ways a receive of [main] continues. *)
Lemma receive_object_frame {A} (load : bytes -> option A) (x rest : bytes) (a : A) w :
  Z.of_nat (length x) <= VECTOR_MAX_SIZE -> x <> [] ->
  inbound w = frame x ++ rest -> load x = Some a ->
  receive_object load w = (Val a, set_inbound w rest).
Proof.
  intros Hlen Hne Hin Hload. unfold receive_object.
  rewrite (bind_val _ _ _ _ _ (receive_data_frame _ _ _ Hlen Hin)).
  now rewrite (empty_false _ Hne), Hload.
Qed.

Lemma receive_object_failed {A} (load : bytes -> option A) w w' :
  receive_data w = (Val [], w') ->
  receive_object load w = (Stop (Returned 1), w').
Proof.
  intros H. unfold receive_object. now rewrite (bind_val _ _ _ _ _ H).
Qed.

(* ================================================================== *)
(** * Arithmetic of the decoded representative *)
(* ================================================================== *)

Lemma centered_fits (t x : Z) : 2 * Z.abs x < t -> centered t x = x.
Proof.
  intros H. unfold centered.
  destruct (Z_le_gt_dec 0 x) as [Hx | Hx].
  - rewrite Z.mod_small by lia.
    destruct (Z.gtb_spec x (t / 2)); [|reflexivity].
    Z.div_mod_to_equations. lia.
  - replace (x mod t) with (x + t)
      by (apply Z.mod_unique with (q := -1); lia).
    destruct (Z.gtb_spec (x + t) (t / 2)); [lia|].
    Z.div_mod_to_equations. lia.
Qed.

Lemma centered_mod (t x : Z) : centered t (x mod t) = centered t x.
Proof.
  unfold centered. destruct (Z.eq_dec t 0) as [-> | Ht].
  - now rewrite !Z.mod_0_r.
  - now rewrite Z.mod_mod.
Qed.

Lemma centered_congruent (t x : Z) : 0 < t -> centered t x mod t = x mod t.
Proof.
  intros Ht. unfold centered. destruct (x mod t >? t / 2).
  - replace (x mod t - t) with (x mod t + (-1) * t) by ring.
    now rewrite Z.mod_add, Z.mod_mod by lia.
  - apply Z.mod_mod. lia.
Qed.

(** The representative of a combination depends on the operands through
    their representatives only. *)
Lemma centered_add (t x y : Z) :
  0 < t -> centered t ((x + y) mod t) = centered t (centered t x + centered t y).
Proof.
  intros Ht. rewrite centered_mod.
  rewrite <- (centered_mod t (centered t x + centered t y)).
  rewrite <- (centered_mod t (x + y)). f_equal.
  rewrite (Z.add_mod (centered t x)), !centered_congruent, <- Z.add_mod by lia.
  reflexivity.
Qed.

Lemma centered_sub (t x y : Z) :
  0 < t -> centered t ((x - y) mod t) = centered t (centered t x - centered t y).
Proof.
  intros Ht. rewrite centered_mod.
  rewrite <- (centered_mod t (centered t x - centered t y)).
  rewrite <- (centered_mod t (x - y)). f_equal.
  rewrite (Zminus_mod (centered t x)), !centered_congruent, <- Zminus_mod by lia.
  reflexivity.
Qed.

Lemma centered_mul (t x y : Z) :
  0 < t -> centered t ((x * y) mod t) = centered t (centered t x * centered t y).
Proof.
  intros Ht. rewrite centered_mod.
  rewrite <- (centered_mod t (centered t x * centered t y)).
  rewrite <- (centered_mod t (x * y)). f_equal.
  rewrite (Z.mul_mod (centered t x)), !centered_congruent, <- Z.mul_mod by lia.
  reflexivity.
Qed.

Lemma zip_with_map {A B C D E} (f : C -> D -> E) (g : A -> C) (h : B -> D) l m :
  zip_with f (map g l) (map h m) = zip_with (fun a b => f (g a) (h b)) l m.
Proof.
  revert m; induction l as [|a l IH]; intros [|b m]; cbn; f_equal; auto.
Qed.

Lemma map_zip_with {A B C D} (f : A -> B -> C) (g : C -> D) l m :
  map g (zip_with f l m) = zip_with (fun a b => g (f a b)) l m.
Proof.
  revert m; induction l as [|a l IH]; intros [|b m]; cbn; f_equal; auto.
Qed.

Lemma zip_with_ext {A B C} (f g : A -> B -> C) l m :
  (forall a b, f a b = g a b) -> zip_with f l m = zip_with g l m.
Proof.
  intros H. revert m; induction l as [|a l IH]; intros [|b m]; cbn; f_equal; auto.
Qed.

Lemma length_zip_with {A B C} (f : A -> B -> C) l m :
  length l = length m -> length (zip_with f l m) = length l.
Proof.
  revert m; induction l as [|a l IH]; intros [|b m]; cbn; intros H;
    try discriminate; auto.
Qed.

Lemma zip_with_repeat {A B C} (f : A -> B -> C) a b n :
  zip_with f (repeat a n) (repeat b n) = repeat (f a b) n.
Proof. induction n; cbn; f_equal; auto. Qed.

Lemma Forall_zip_with {A B C} (P : C -> Prop) (f : A -> B -> C) l m :
  (forall a b, P (f a b)) -> Forall P (zip_with f l m).
Proof.
  intros H. revert m; induction l as [|a l IH]; intros [|b m]; cbn; auto.
Qed.

(* ================================================================== *)
(** * The reference implementation meets the contract *)
(* ================================================================== *)

Module ReferenceFacts.
Import Reference.

Lemma words_save_load (p : list Z) :
  Forall (fun v => 0 <= v < 2 ^ 32) p ->
  words_load (length p) (slots_save p) = p.
Proof.
  induction 1 as [|v p Hv _ IH]; [reflexivity|].
  cbn [length words_load slots_save map concat].
  fold (slots_save p). unfold word_save.
  rewrite firstn_app_exact, skipn_app_exact by apply length_le_split.
  rewrite le_combine_split, IH.
  f_equal. apply Z.mod_small. cbn. lia.
Qed.

Lemma length_slots_save (p : list Z) : length (slots_save p) = (4 * length p)%nat.
Proof.
  induction p as [|v p IH]; [reflexivity|].
  cbn [slots_save map concat]. fold (slots_save p).
  rewrite length_app. unfold word_save. rewrite length_le_split, IH. cbn [length]. lia.
Qed.

Lemma forallb_below (t : Z) (p : list Z) :
  Forall (slot_ok t) p -> forallb (fun v => v <? t) p = true.
Proof.
  induction 1 as [|v p [_ Hv] _ IH]; [reflexivity|].
  cbn. rewrite IH. now apply Z.ltb_lt in Hv as ->.
Qed.

Lemma slots_save_load (t : Z) (p : list Z) :
  t <= 2 ^ 32 -> plaintext_ok t p -> slots_load t (slots_save p) = Some p.
Proof.
  intros Ht [Hlen Hall]. unfold slots_load.
  rewrite length_slots_save, Hlen, Nat.eqb_refl.
  assert (E : words_load slots_per_plaintext (slots_save p) = p).
  { rewrite <- Hlen. apply words_save_load.
    eapply Forall_impl; [|exact Hall]. unfold slot_ok. intros; lia. }
  cbv zeta. now rewrite E, forallb_below.
Qed.

Lemma batching_prime_small : batching_prime <= 2 ^ 32.
Proof. unfold batching_prime. cbn. lia. Qed.

Lemma encode_valid (t : Z) (vs : list Z) :
  0 < t -> (length vs <= slots_per_plaintext)%nat -> plaintext_ok t (encode t vs).
Proof.
  intros Ht Hlen. unfold encode. split.
  - rewrite length_app, length_map, repeat_length. lia.
  - apply Forall_app. split.
    + apply Forall_map. apply Forall_forall. intros v _. apply Z.mod_pos_bound. lia.
    + apply Forall_forall. intros v Hv. apply repeat_spec in Hv. subst.
      unfold slot_ok. lia.
Qed.

Lemma decode_encode_fits (t : Z) (vs : list Z) :
  length vs = slots_per_plaintext -> Forall (fun v => 2 * Z.abs v < t) vs ->
  decode t (encode t vs) = vs.
Proof.
  intros Hlen Hall. unfold decode, encode.
  rewrite Hlen, Nat.sub_diag. cbn [repeat]. rewrite app_nil_r, map_map.
  clear Hlen. induction Hall as [|v vs Hv _ IH]; [reflexivity|].
  cbn [map]. rewrite IH, centered_mod, centered_fits by exact Hv. reflexivity.
Qed.

Lemma slotwise_ok (f : Z -> Z -> Z) (t : Z) (sk : byte) (a : Cipher) (p : list Z) :
  0 < t -> ciphertext_ok t sk a -> plaintext_ok t p ->
  ciphertext_ok t sk (slotwise f t a p).
Proof.
  intros Ht [Hk [Hla Ha]] [Hlp Hp]. split; [exact Hk|]. split; cbn.
  - rewrite length_zip_with; congruence.
  - apply Forall_zip_with. intros x y. apply Z.mod_pos_bound. lia.
Qed.

Lemma slotwise_slots (f : Z -> Z -> Z) (t : Z) (sk : byte) (a : Cipher) (p : list Z) :
  (forall x y, centered t (f x y mod t) = centered t (f (centered t x) (centered t y))) ->
  ciphertext_ok t sk a ->
  decode t (decrypt t sk (slotwise f t a p)) =
  zip_with (fun x y => centered t (f x y)) (decode t (decrypt t sk a)) (decode t p).
Proof.
  intros Hf [Hk _]. unfold decrypt, decode. cbn [ct_key slotwise ct_slots].
  rewrite Hk, (Byte.byte_dec_lb eq_refl), map_zip_with, zip_with_map.
  apply zip_with_ext. exact Hf.
Qed.

Lemma small_sendable (b : bytes) :
  b <> [] -> (length b <= 1000)%nat -> sendable b.
Proof.
  intros Hne Hlen. split; [exact Hne|]. unfold VECTOR_MAX_SIZE.
  assert (1000 < 2 ^ 63 - 1) by (cbn; lia). lia.
Qed.

Lemma plaintext_sendable (t : Z) (p : list Z) :
  plaintext_ok t p -> sendable (plaintext_save p).
Proof.
  intros [Hlen _]. apply small_sendable; [discriminate|].
  unfold plaintext_save. cbn [length]. rewrite length_slots_save, Hlen. cbn. lia.
Qed.

Lemma ciphertext_sendable (t : Z) (sk : byte) (c : Cipher) :
  ciphertext_ok t sk c -> sendable (ciphertext_save c).
Proof.
  intros [_ [Hlen _]]. apply small_sendable; [discriminate|].
  unfold ciphertext_save. cbn [length]. rewrite length_slots_save, Hlen. cbn. lia.
Qed.

Lemma plaintext_round_trip (t : Z) (p : list Z) :
  t <= 2 ^ 32 -> plaintext_ok t p -> plaintext_load t (plaintext_save p) = Some p.
Proof.
  intros Ht Hp. unfold plaintext_load, plaintext_save.
  now rewrite (Byte.byte_dec_lb eq_refl), slots_save_load.
Qed.

Lemma ciphertext_round_trip (t : Z) (sk : byte) (c : Cipher) :
  t <= 2 ^ 32 -> ciphertext_ok t sk c -> ciphertext_load t (ciphertext_save c) = Some c.
Proof.
  intros Ht [_ Hp]. unfold ciphertext_load, ciphertext_save.
  rewrite (Byte.byte_dec_lb eq_refl), slots_save_load by assumption.
  now destruct c.
Qed.

Lemma decrypt_ok (t : Z) (sk : byte) (c : Cipher) :
  ciphertext_ok t sk c -> decrypt t sk c = ct_slots c.
Proof.
  intros [Hk _]. unfold decrypt. now rewrite Hk, (Byte.byte_dec_lb eq_refl).
Qed.

End ReferenceFacts.

(** The reference implementation, with the 30-bit batching prime as its
    plain modulus and the keys of one owner, meets the contract. *)
Lemma reference_contract :
  @Contract Reference.library Reference.batching_prime Reference.keys.
Proof.
  assert (Hpos : 0 < Reference.batching_prime) by reflexivity.
  pose proof ReferenceFacts.batching_prime_small as Hsmall.
  unshelve econstructor.
  - exact (Reference.plaintext_ok Reference.batching_prime).
  - exact (Reference.ciphertext_ok Reference.batching_prime Byte.x2a).
  - reflexivity.
  - cbn. unfold Reference.slots_per_plaintext. lia.
  - apply ReferenceFacts.small_sendable; [discriminate | apply Nat.leb_le; reflexivity].
  - apply ReferenceFacts.small_sendable; [discriminate | apply Nat.leb_le; reflexivity].
  - apply ReferenceFacts.small_sendable; [discriminate | apply Nat.leb_le; reflexivity].
  - apply ReferenceFacts.small_sendable; [discriminate | apply Nat.leb_le; reflexivity].
  - intros p. apply ReferenceFacts.plaintext_sendable.
  - intros c. apply ReferenceFacts.ciphertext_sendable.
  - reflexivity.
  - reflexivity.
  - reflexivity.
  - reflexivity.
  - intros p. now apply ReferenceFacts.plaintext_round_trip.
  - intros c. now apply ReferenceFacts.ciphertext_round_trip.
  - intros vs Hlen _. now apply ReferenceFacts.encode_valid.
  - intros vs. apply ReferenceFacts.decode_encode_fits.
  - intros c Hc. unfold slots. cbn.
    rewrite (ReferenceFacts.decrypt_ok _ _ _ Hc).
    unfold Reference.decode. rewrite length_map. apply Hc.
  - intros r p Hp. split; [reflexivity | exact Hp].
  - intros r p Hp. reflexivity.
  - intros a b Ha Hb. now apply ReferenceFacts.slotwise_ok; [| |apply Hb].
  - intros a b Ha Hb. unfold slots. cbn.
    rewrite (ReferenceFacts.decrypt_ok _ _ _ Hb).
    apply ReferenceFacts.slotwise_slots; [|exact Ha].
    intros x y. now apply centered_add.
  - intros a b Ha Hb. now apply ReferenceFacts.slotwise_ok; [| |apply Hb].
  - intros a b Ha Hb. unfold slots. cbn.
    rewrite (ReferenceFacts.decrypt_ok _ _ _ Hb).
    apply ReferenceFacts.slotwise_slots; [|exact Ha].
    intros x y. now apply centered_sub.
  - intros a p Ha Hp. now apply ReferenceFacts.slotwise_ok.
  - intros a p Ha Hp. unfold slots. cbn.
    apply ReferenceFacts.slotwise_slots; [|exact Ha].
    intros x y. now apply centered_sub.
  - intros a p Ha Hp _. now apply ReferenceFacts.slotwise_ok.
  - intros a p Ha Hp _. unfold slots. cbn.
    apply ReferenceFacts.slotwise_slots; [|exact Ha].
    intros x y. now apply centered_mul.
  - intros a Ha. exact Ha.
  - intros a Ha. reflexivity.
Defined.

(* ================================================================== *)
(** * Runs of the compute party on a complete request *)
(* ================================================================== *)

Lemma frames_cons (x : bytes) (l : list bytes) (rest : bytes) :
  frames (x :: l) ++ rest = frame x ++ (frames l ++ rest).
Proof. unfold frames. cbn [map concat]. now rewrite <- app_assoc. Qed.

Lemma frames_nil (rest : bytes) : frames [] ++ rest = rest.
Proof. reflexivity. Qed.


Lemma receive_object_offered {A} (load : bytes -> option A) (b rest : bytes) (a : A) w :
  offered load b a -> inbound w = frame b ++ rest ->
  receive_object load w = (Val a, set_inbound w rest).
Proof.
  intros [[Hne Hlen] Hload] Hin. now apply receive_object_frame with (x := b).
Qed.

(** One receive of [main] on an offered object, whatever follows it. *)
Lemma receive_step {A B} (load : bytes -> option A) (k : A -> M B) b rest a w :
  offered load b a -> inbound w = frame b ++ rest ->
  bind (receive_object load) k w = k a (set_inbound w rest).
Proof.
  intros Ho Hin. apply bind_val. now apply receive_object_offered with (b := b).
Qed.

Lemma write_write (w : World) (a b : bytes) (j k : nat) :
  write (write w a j) b k = write w (a ++ b) (j + k).
Proof.
  unfold write, spend. cbn. rewrite <- app_assoc.
  destruct (send_credit w); [|reflexivity]. do 2 f_equal. lia.
Qed.

Lemma write_free (w : World) (data : bytes) (k : nat) :
  send_credit w = None -> send_credit (write w data k) = None.
Proof. intros H. unfold write, spend. cbn. now rewrite H. Qed.

Lemma send_step {B} (x : bytes) (k : unit -> M B) (w : World) :
  send_credit w = None ->
  bind (send_object x) k w = k tt (write w (frame x) 2).
Proof. intros H. apply bind_val. now apply send_object_free. Qed.

(** Step over a receive whose object is offered by hypothesis [H]. *)
Ltac received H :=
  erewrite (receive_step _ _ _ _ _ _ H); [| reflexivity].

Section GoalServer.
Context {L : SEAL}.
Variables (P PK RLK GLK INC GOAL ESS NON : bytes).
Variables (parms : EncryptionParameters) (pk : PublicKey) (rlk : RelinKeys)
          (glk : GaloisKeys) (inc ess non : Ciphertext) (goal : Plaintext).

Let context := make_context parms.

Lemma goal_server_receives (w : World) (rest : bytes) :
  goal_request P PK RLK GLK INC GOAL ESS NON parms pk rlk glk inc goal ess non ->
  inbound w = frames [P; PK; RLK; GLK; INC; GOAL; ESS; NON] ++ rest ->
  Planning.server_main w = Planning.respond context inc goal ess non (set_inbound w rest).
Proof.
  intros (H1 & H2 & H3 & H4 & H5 & H6 & H7 & H8) Hin.
  rewrite !frames_cons, frames_nil in Hin. unfold Planning.server_main.
  rewrite (receive_step _ _ _ _ _ _ H1 Hin).
  received H2. received H3. received H4. received H5.
  received H6. received H7. received H8.
  reflexivity.
Qed.

Lemma goal_respond_free (w : World) :
  send_credit w = None ->
  Planning.respond context inc goal ess non w = (Val 0, write w (frames (goal_results context inc goal ess non)) 10).
Proof.
  intros Hc. unfold Planning.respond, goal_results, Planning.pipeline.
  rewrite !send_step by (repeat apply write_free; exact Hc).
  rewrite !write_write. unfold ret, frames. cbn [map concat Nat.add].
  now rewrite app_nil_r.
Qed.

End GoalServer.

(* ================================================================== *)
(** * Framing *)
(* ================================================================== *)





(* ================================================================== *)
(** * The evaluation pipeline on the underlying integers *)
(* ================================================================== *)

Section Pipeline.
Context {L : SEAL}.
Variables (parms : EncryptionParameters) (keys : KeyGenerator).
Variable C : Contract parms keys.

Local Abbreviation context := (make_context parms).
Local Abbreviation t := (plain_modulus (make_context parms)).
Local Abbreviation n := (slot_count (make_context parms)).
Local Abbreviation read := (slots (make_context parms) (secret_key keys)).

Lemma goal_pipeline_slots (inc ess non : Ciphertext) (goal : Plaintext) :
  ct_ok C inc -> pt_ok C goal -> ct_ok C ess -> ct_ok C non ->
  let total := evaluator_add context ess non in
  let net := evaluator_sub context inc total in
  let diff := evaluator_sub_plain context net goal in
  (ct_ok C total /\ ct_ok C net /\ ct_ok C diff) /\
  read total = zip_with (fun e x => centered t (e + x)) (read ess) (read non) /\
  read net = zip_with (fun i s => centered t (i - s)) (read inc) (read total) /\
  read diff = zip_with (fun v g => centered t (v - g)) (read net) (decode context goal).
Proof.
  intros Hi Hg He Hx total net diff.
  assert (Ht : ct_ok C total) by now apply add_ok.
  assert (Hn : ct_ok C net) by now apply sub_ok.
  assert (Hd : ct_ok C diff) by now apply sub_plain_ok.
  repeat split; try assumption.
  - now apply (add_slots _ _ C).
  - now apply (sub_slots _ _ C).
  - now apply (sub_plain_slots _ _ C).
Qed.

Lemma goal_pipeline_constant (inc ess non : Ciphertext) (goal : Plaintext) (i g e x : Z) :
  ct_ok C inc -> pt_ok C goal -> ct_ok C ess -> ct_ok C non ->
  read inc = repeat i n -> decode context goal = repeat g n ->
  read ess = repeat e n -> read non = repeat x n ->
  fits context (e + x) -> fits context (i - (e + x)) -> fits context (i - (e + x) - g) ->
  let total := evaluator_add context ess non in
  let net := evaluator_sub context inc total in
  let diff := evaluator_sub_plain context net goal in
  read total = repeat (e + x) n /\
  read net = repeat (i - (e + x)) n /\
  read diff = repeat (i - (e + x) - g) n.
Proof.
  intros Hi Hg He Hx Ei Eg Ee Ex F1 F2 F3 total net diff.
  destruct (goal_pipeline_slots inc ess non goal Hi Hg He Hx) as (_ & Et & En & Ed).
  fold total net diff in Et, En, Ed.
  assert (Et' : read total = repeat (e + x) n).
  { rewrite Et, Ee, Ex, zip_with_repeat. f_equal. now apply centered_fits. }
  assert (En' : read net = repeat (i - (e + x)) n).
  { rewrite En, Ei, Et', zip_with_repeat. f_equal. now apply centered_fits. }
  repeat split; try assumption.
  rewrite Ed, En', Eg, zip_with_repeat. f_equal. now apply centered_fits.
Qed.

End Pipeline.


#[local] Existing Instance Reference.library.

(** Discharges [offered], [ct_ok] and [pt_ok] side conditions on concrete
    objects of the reference implementation by evaluation. *)
Ltac reference_side :=
  repeat match goal with
         | |- _ /\ _ => split
         | |- _ <> _ => discriminate
         | |- _ <= _ => vm_compute; discriminate
         | |- _ < _ => reflexivity
         | |- _ = _ => reflexivity
         | |- Forall _ _ => constructor
         | |- goal_request _ _ _ _ _ _ _ _ _ _ _ _ _ _ _ _ => unfold goal_request
         | |- savings_request _ _ _ _ _ _ _ _ _ _ => unfold savings_request
         | |- offered _ _ _ => unfold offered
         | |- fits _ _ => unfold fits
         | |- ct_ok _ _ => unfold ct_ok, reference_contract, Reference.ciphertext_ok
         | |- pt_ok _ _ => unfold pt_ok, reference_contract
         | |- Reference.plaintext_ok _ _ => unfold Reference.plaintext_ok
         | |- Reference.ciphertext_ok _ _ _ => unfold Reference.ciphertext_ok
         | |- Reference.slot_ok _ _ => unfold Reference.slot_ok
         end.


(* ================================================================== *)
(** * The fixed-point codec *)
(* ================================================================== *)

Local Open Scope Q_scope.

Lemma round_bounds (x : Q) :
  (0 <= x -> x - (1 # 2) < inject_Z (round x) /\ inject_Z (round x) <= x + (1 # 2)) /\
  (x < 0 -> x - (1 # 2) <= inject_Z (round x) /\ inject_Z (round x) < x + (1 # 2)).
Proof.
  unfold round. split; intros Hx.
  - assert (E : Qle_bool 0 x = true) by now apply Qle_bool_iff.
    rewrite E.
    pose proof (Qfloor_le (x + (1 # 2))) as H1.
    pose proof (Qlt_floor (x + (1 # 2))) as H2.
    rewrite inject_Z_plus in H2. change (inject_Z 1) with 1 in H2.
    split; lra.
  - assert (E : Qle_bool 0 x = false).
    { destruct (Qle_bool 0 x) eqn:E; [|reflexivity].
      apply Qle_bool_iff in E. lra. }
    rewrite E.
    pose proof (Qle_ceiling (x - (1 # 2))) as H1.
    pose proof (Qceiling_lt (x - (1 # 2))) as H2.
    unfold Z.sub in H2. rewrite inject_Z_plus in H2.
    change (inject_Z (- (1))) with (- (1)) in H2.
    split; lra.
Qed.




Lemma to_int64_in_range (z : Z) :
  (- 2 ^ 63 <= z < 2 ^ 63)%Z -> to_int64 z = Some z.
Proof.
  intros [H1 H2]. unfold to_int64.
  apply Z.leb_le in H1. apply Z.ltb_lt in H2. now rewrite H1, H2.
Qed.

Lemma to_int64_some (z v : Z) :
  to_int64 z = Some v -> v = z /\ (- 2 ^ 63 <= z < 2 ^ 63)%Z.
Proof.
  unfold to_int64. intros H.
  destruct (- 2 ^ 63 <=? z)%Z eqn:E1; [|discriminate].
  destruct (z <? 2 ^ 63)%Z eqn:E2; [|discriminate].
  apply Z.leb_le in E1. apply Z.ltb_lt in E2.
  cbn [andb] in H. inversion H. subst v. split; [reflexivity|]. split; assumption.
Qed.


(** When [toScaled] is defined in the arithmetic of the machine, and
    what it is then. *)
Lemma toScaled_defined (d s : Binary64.binary64) (a : ScaledAmount) :
  Binary64.toScaled d s = Some a <->
  exists product,
    Binary64.value (Binary64.mul d s) = Some product /\
    (- 2 ^ 63 <= round product < 2 ^ 63)%Z /\
    a = mkScaled (round product) 1.
Proof.
  unfold Binary64.toScaled. split.
  - destruct (Binary64.value (Binary64.mul d s)) as [p|]; [|discriminate].
    destruct (to_int64 (round p)) as [v|] eqn:E; [|discriminate].
    intros H. inversion H. apply to_int64_some in E. destruct E as [-> Hr].
    exists p. now repeat split.
  - intros (p & -> & Hr & ->). now rewrite to_int64_in_range.
Qed.




Local Close Scope Q_scope.

(* ================================================================== *)
(** * Runs of the two-input session *)
(* ================================================================== *)

Lemma scale_val (d : double) (w : World) :
  scalable d -> scale d w = (Val (round (d * SCALE_FACTOR)%Q), w).
Proof.
  intros H. unfold scale, toScaled. now rewrite to_int64_in_range.
Qed.

Lemma scale_step {B} (d : double) (k : Z -> M B) (w : World) :
  scalable d -> bind (scale d) k w = k (round (d * SCALE_FACTOR)%Q) w.
Proof. intros H. apply bind_val. now apply scale_val. Qed.

Lemma savings_rate_scaled (w : World) : scale Savings.savings_rate_double w = (Val 15, w).
Proof. reflexivity. Qed.

Lemma zip_with_repeat_r {A B C} (f : A -> B -> C) (l : list A) (b : B) (n : nat) :
  length l = n -> zip_with f l (repeat b n) = map (fun a => f a b) l.
Proof.
  intros <-. induction l as [|a l IH]; cbn; f_equal; auto.
Qed.

Section SavingsServer.
Context {L : SEAL}.
Variables (P PK RLK INC EXP : bytes).
Variables (parms : EncryptionParameters) (pk : PublicKey) (rlk : RelinKeys)
          (inc exp : Ciphertext).

Local Abbreviation context := (make_context parms).

Lemma savings_server_receives (w : World) (rest : bytes) :
  savings_request P PK RLK INC EXP parms pk rlk inc exp ->
  inbound w = frames [P; PK; RLK; INC; EXP] ++ rest ->
  Savings.server_main w = Savings.respond context rlk inc exp (set_inbound w rest).
Proof.
  intros (H1 & H2 & H3 & H4 & H5) Hin.
  rewrite !frames_cons, frames_nil in Hin. unfold Savings.server_main.
  rewrite (receive_step _ _ _ _ _ _ H1 Hin).
  received H2. received H3. received H4. received H5.
  reflexivity.
Qed.

Lemma savings_respond_free (w : World) :
  send_credit w = None ->
  Savings.respond context rlk inc exp w =
  (Val 0,
   write w (frames [ciphertext_save (evaluator_sub context inc exp);
                    ciphertext_save (savings_contribution context rlk inc 15)]) 4).
Proof.
  intros Hc. unfold Savings.respond, savings_contribution.
  rewrite (bind_val _ _ _ _ _ (savings_rate_scaled w)).
  rewrite !send_step by (repeat apply write_free; exact Hc).
  rewrite !write_write. unfold ret, frames. cbn [map concat Nat.add].
  now rewrite app_nil_r.
Qed.

End SavingsServer.

Section SavingsSemantics.
Context {L : SEAL}.
Variables (parms : EncryptionParameters) (keys : KeyGenerator).
Variable C : Contract parms keys.

Local Abbreviation context := (make_context parms).
Local Abbreviation t := (plain_modulus (make_context parms)).
Local Abbreviation read := (slots (make_context parms) (secret_key keys)).

Lemma savings_contribution_slots (inc : Ciphertext) (rate : Z) :
  ct_ok C inc -> fits context rate -> rate <> 0 ->
  let c := savings_contribution context (relin_keys keys) inc rate in
  ct_ok C c /\ read c = map (fun v => centered t (v * rate)) (read inc).
Proof.
  intros Hi Hr Hrate c. unfold c, savings_contribution.
  assert (Hall : Forall (fits context) (repeat rate (slot_count context))).
  { apply Forall_forall. intros v Hv. apply repeat_spec in Hv. now subst. }
  assert (Hd : decode context (encode context (repeat rate (slot_count context))) =
               repeat rate (slot_count context))
    by (apply (decode_encode _ _ C); [apply repeat_length | exact Hall]).
  assert (Hp : pt_ok C (encode context (repeat rate (slot_count context))))
    by (apply (encode_ok _ _ C); [rewrite repeat_length; lia | exact Hall]).
  assert (Hn : nonzero context (encode context (repeat rate (slot_count context)))).
  { unfold nonzero. rewrite Hd. pose proof (slots_positive _ _ C) as Hpos.
    destruct (slot_count context); [lia|]. cbn. congruence. }
  assert (Hm : ct_ok C (evaluator_multiply_plain context inc
                          (encode context (repeat rate (slot_count context)))))
    by now apply (multiply_plain_ok _ _ C).
  split; [now apply (relinearize_ok _ _ C)|].
  rewrite (relinearize_slots _ _ C) by exact Hm.
  rewrite (multiply_plain_slots _ _ C) by assumption.
  rewrite Hd. apply zip_with_repeat_r. now apply (slots_length _ _ C).
Qed.

End SavingsSemantics.

(* ================================================================== *)
(** * Runs of the owner's programs *)
(* ================================================================== *)

Lemma scale_all_val (v : list double) (w : World) :
  Forall scalable v ->
  Savings.scale_all v w = (Val (map (fun d => round (d * SCALE_FACTOR)%Q) v), w).
Proof.
  induction 1 as [|d v Hd _ IH]; [reflexivity|].
  cbn [Savings.scale_all map]. rewrite scale_step by exact Hd.
  now rewrite (bind_val _ _ _ _ _ IH).
Qed.

Lemma scaled_data_val (n : nat) (v : list double) (w : World) :
  Forall scalable v ->
  Savings.scaled_data n v w = (Val (scaled_vector n v), w).
Proof.
  intros H. unfold Savings.scaled_data.
  now rewrite (bind_val _ _ _ _ _ (scale_all_val _ _ H)).
Qed.

Section SavingsClient.
Context {L : SEAL}.
Variables (parms : EncryptionParameters) (keygen : KeyGenerator).
Variables (input : Savings.UserInput) (rnd : Savings.Randomness).

Local Abbreviation context := (make_context parms).
Local Abbreviation n := (slot_count (make_context parms)).
Local Abbreviation read := (slots (make_context parms) (secret_key keygen)).
Local Abbreviation income :=
  (prepared n (Savings.income_double_data input) (Savings.expense_double_data input)).
Local Abbreviation expense :=
  (prepared n (Savings.expense_double_data input) (Savings.income_double_data input)).

(** The owner's program up to its first receive. *)
Lemma savings_client_sends (w : World) :
  Forall scalable income -> Forall scalable expense ->
  send_credit w = None ->
  Savings.client_session parms keygen input rnd w =
  (a <- receive_object (ciphertext_load context) ;;
   b <- receive_object (ciphertext_load context) ;;
   ret (Savings.mkReport (map (descale 1) (read a)) (map (descale 2) (read b))))
    (write w (frames (savings_client_objects parms keygen input rnd)) 10).
Proof.
  intros Hi He Hc.
  unfold Savings.client_session.
  rewrite !send_step by (repeat apply write_free; exact Hc).
  cbv zeta. fold (prepared n (Savings.income_double_data input)
                           (Savings.expense_double_data input)).
  rewrite (Nat.max_comm (length (if (length (Savings.income_double_data input) =? 0)%nat
                                 then _ else _))).
  fold (prepared n (Savings.expense_double_data input)
                 (Savings.income_double_data input)).
  rewrite (bind_val _ _ _ _ _ (scaled_data_val _ _ _ Hi)).
  rewrite (bind_val _ _ _ _ _ (scaled_data_val _ _ _ He)).
  rewrite !send_step by (repeat apply write_free; exact Hc).
  rewrite !write_write. unfold savings_client_objects, frames.
  cbn [map concat Nat.add]. rewrite app_nil_r. reflexivity.
Qed.

(** The owner's program on a reply of two offered ciphertexts. *)
Lemma savings_client_run (NET SAV : bytes) (net sav : Ciphertext) (w : World) (rest : bytes) :
  Forall scalable income -> Forall scalable expense ->
  send_credit w = None ->
  offered (ciphertext_load context) NET net ->
  offered (ciphertext_load context) SAV sav ->
  inbound w = frames [NET; SAV] ++ rest ->
  Savings.client_session parms keygen input rnd w =
  (Val (Savings.mkReport (map (descale 1) (read net)) (map (descale 2) (read sav))),
   write (set_inbound w rest) (frames (savings_client_objects parms keygen input rnd)) 10).
Proof.
  intros Hi He Hc H1 H2 Hin.
  rewrite savings_client_sends by assumption.
  rewrite !frames_cons, frames_nil in Hin.
  erewrite (receive_step _ _ _ _ _ _ H1); [|exact Hin].
  received H2. reflexivity.
Qed.

End SavingsClient.

(* ================================================================== *)
(** * Descaling *)
(* ================================================================== *)

Lemma descale_1 (v : Z) : (descale 1 v == inject_Z v / SCALE_FACTOR)%Q.
Proof. unfold descale, fromScaled. cbn [magnitude exponent]. reflexivity. Qed.

Lemma descale_2 (v : Z) :
  (descale 2 v == inject_Z v / (SCALE_FACTOR * SCALE_FACTOR))%Q.
Proof. unfold descale, fromScaled. cbn [magnitude exponent]. reflexivity. Qed.

(** A product of two exponent-1 integers descales, with the square of the
    scale factor, to the product of the decimals. *)
Lemma descale_product (a b : Z) : (descale 2 (a * b) == descale 1 a * descale 1 b)%Q.
Proof.
  rewrite descale_2, !descale_1, inject_Z_mult. unfold SCALE_FACTOR. field.
Qed.

(** C2. In the two-input session the compute party scales the rate 0.15
    to 15, multiplies the received income by the encoded rate and
    relinearizes; on a complete request it returns 0 after sending the net
    income and this contribution. Slot by slot the contribution carries the
    product of the income integer and 15 modulo the plain modulus; the
    owner descales the net income by the scale factor and the contribution
    by its square, which turns the product of two exponent-1 integers into
    the product of the decimals. For 150075 under a 30-bit modulus the
    product is 2251125, descaled 225.1125 = 1500.75 * 0.15. *)
Theorem C2_savings_contribution {L : SEAL} (parms : EncryptionParameters)
    (keys : KeyGenerator) (C : Contract parms keys)
    (P PK RLK INC EXP : bytes) (pk : PublicKey) (inc exp : Ciphertext)
    (w : World) (rest : bytes)
    (input : Savings.UserInput) (rnd : Savings.Randomness)
    (owner : World) (rest' : bytes) :
  let context := make_context parms in
  let t := plain_modulus context in
  let n := slot_count context in
  let read := slots context (secret_key keys) in
  let net := evaluator_sub context inc exp in
  let contribution := savings_contribution context (relin_keys keys) inc 15 in
  savings_request P PK RLK INC EXP parms pk (relin_keys keys) inc exp ->
  ct_ok C inc -> ct_ok C exp -> fits context 15 ->
  inbound w = frames [P; PK; RLK; INC; EXP] ++ rest ->
  send_credit w = None ->
  Forall scalable (prepared n (Savings.income_double_data input)
                            (Savings.expense_double_data input)) ->
  Forall scalable (prepared n (Savings.expense_double_data input)
                            (Savings.income_double_data input)) ->
  send_credit owner = None ->
  inbound owner = frames [ciphertext_save net; ciphertext_save contribution] ++ rest' ->
  scale Savings.savings_rate_double w = (Val 15, w) /\
  run Savings.server_main w =
    (Returned 0,
     write (set_inbound w rest)
           (frames [ciphertext_save net; ciphertext_save contribution]) 4) /\
  read contribution = map (fun v => centered t (v * 15)) (read inc) /\
  (2 ^ 29 < t -> read inc = repeat 150075 n -> read contribution = repeat 2251125 n) /\
  fst (Savings.client_session parms keys input rnd owner) =
    Val (Savings.mkReport (map (descale 1) (read net))
                          (map (descale 2) (read contribution))) /\
  (forall a b, descale 2 (a * b) == descale 1 a * descale 1 b)%Q /\
  (descale 2 2251125 == 2251125 # 10000)%Q /\
  (descale 1 150075 * Savings.savings_rate_double == 2251125 # 10000)%Q.
Proof.
  cbv zeta. intros Hreq Hi He H15 Hin Hc Hsi Hse Hoc Hoin.
  destruct (savings_contribution_slots parms keys C inc 15 Hi H15 ltac:(discriminate)) as [Hcok Hcs].
  assert (Hnok : ct_ok C (evaluator_sub (make_context parms) inc exp))
    by now apply (sub_ok _ _ C).
  split; [reflexivity|]. split; [|split; [exact Hcs|split; [|split; [|split; [|split]]]]].
  - unfold run.
    rewrite (savings_server_receives _ _ _ _ _ _ _ _ _ _ _ _ Hreq Hin).
    rewrite savings_respond_free by exact Hc. reflexivity.
  - intros Ht Ei. rewrite Hcs, Ei, map_repeat. f_equal.
    apply centered_fits. cbn. lia.
  - erewrite savings_client_run; try eassumption; [reflexivity| |].
    + split; [now apply (ciphertext_save_sendable _ _ C)|].
      now apply (ciphertext_save_load _ _ C).
    + split; [now apply (ciphertext_save_sendable _ _ C)|].
      now apply (ciphertext_save_load _ _ C).
  - apply descale_product.
  - reflexivity.
  - reflexivity.
Qed.

(** C2 on the reference implementation: an income of 1500.75 and an
    expense of 450.50. *)
Lemma C2_savings_contribution_witness :
  let T : EncryptionParameters := Reference.batching_prime in
  let input := Savings.mkInput [(150075 # 100)%Q] [(45050 # 100)%Q] in
  let rnd := Savings.mkRandomness Byte.x01 Byte.x02 in
  let sent := frames (savings_client_objects T Reference.keys input rnd) in
  let served := run Savings.server_main (fresh sent Silent) in
  fst served = Returned 0 /\
  exists r,
    fst (Savings.client_session T Reference.keys input rnd
           (fresh (outbound (snd served)) PeerClosed)) = Val r /\
    (hd 0 (Savings.decoded_savings_contribution_double r) == 2251125 # 10000)%Q.
Proof.
  intros T input rnd sent served.
  pose (inc := Reference.encrypt T Byte.x2a Byte.x01 (Reference.encode T [150075; 0; 0; 0])).
  pose (exp := Reference.encrypt T Byte.x2a Byte.x02 (Reference.encode T [45050; 0; 0; 0])).
  destruct (C2_savings_contribution (L := Reference.library) T Reference.keys
              reference_contract
              (Reference.parms_save T) (Reference.key_save Byte.x2a)
              (Reference.key_save Byte.x2a)
              (Reference.ciphertext_save inc) (Reference.ciphertext_save exp)
              Byte.x2a inc exp (fresh sent Silent) []
              input rnd (fresh (outbound (snd served)) PeerClosed) [])
    as (_ & Hrun & _ & _ & Hown & _ & _ & _).
  - reference_side.
  - reference_side.
  - reference_side.
  - reference_side.
  - reflexivity.
  - reflexivity.
  - change (Forall scalable [(150075 # 100)%Q]).
    repeat constructor; vm_compute; discriminate.
  - change (Forall scalable [(45050 # 100)%Q]).
    repeat constructor; vm_compute; discriminate.
  - reflexivity.
  - reflexivity.
  - split; [exact (f_equal fst Hrun)|].
    eexists. split; [exact Hown|]. reflexivity.
Defined.

Lemma first_slot_step {B} (l : list Z) (v : Z) (k : double -> M B) (w : World) :
  hd_error l = Some v ->
  bind (Planning.first_slot_descaled l) k w = k (descale 1 v) w.
Proof.
  intros H. apply bind_val. unfold Planning.first_slot_descaled. now rewrite H.
Qed.

Section GoalClient.
Context {L : SEAL}.
Variables (parms : EncryptionParameters) (keygen : KeyGenerator).
Variables (input : Planning.UserInput) (rnd : Planning.Randomness).

Local Abbreviation context := (make_context parms).
Local Abbreviation read := (slots (make_context parms) (secret_key keygen)).
Local Abbreviation total_income :=
  (fold_left Qplus (Planning.income_sources_raw input) (0 # 1)%Q).

(** The owner's program up to its first receive. *)
Lemma goal_client_sends (w : World) :
  goal_input_scalable input -> send_credit w = None ->
  Planning.client_session parms keygen input rnd w =
  (c1 <- receive_object (ciphertext_load context) ;;
   c2 <- receive_object (ciphertext_load context) ;;
   c3 <- receive_object (ciphertext_load context) ;;
   c4 <- receive_object (ciphertext_load context) ;;
   c5 <- receive_object (ciphertext_load context) ;;
   v1 <- Planning.first_slot_descaled (read c1) ;;
   v2 <- Planning.first_slot_descaled (read c2) ;;
   v3 <- Planning.first_slot_descaled (read c3) ;;
   v4 <- Planning.first_slot_descaled (read c4) ;;
   v5 <- Planning.first_slot_descaled (read c5) ;;
   ret (Planning.mkReport v1 v2 v3 v4 v5))
    (write w (frames (goal_client_objects parms keygen input rnd)) 16).
Proof.
  intros (Hi & He & Hn & Hg) Hc.
  unfold Planning.client_session.
  rewrite !send_step by (repeat apply write_free; exact Hc).
  cbv zeta.
  rewrite (scale_step _ _ _ Hi), (scale_step _ _ _ He),
    (scale_step _ _ _ Hn), (scale_step _ _ _ Hg).
  rewrite !send_step by (repeat apply write_free; exact Hc).
  rewrite !write_write. unfold goal_client_objects, frames.
  cbn [map concat Nat.add]. rewrite app_nil_r. reflexivity.
Qed.

(** The owner's program on a reply of five offered ciphertexts. *)
Lemma goal_client_run (R1 R2 R3 R4 R5 : bytes) (c1 c2 c3 c4 c5 : Ciphertext)
    (v1 v2 v3 v4 v5 : Z) (w : World) (rest : bytes) :
  goal_input_scalable input -> send_credit w = None ->
  offered (ciphertext_load context) R1 c1 ->
  offered (ciphertext_load context) R2 c2 ->
  offered (ciphertext_load context) R3 c3 ->
  offered (ciphertext_load context) R4 c4 ->
  offered (ciphertext_load context) R5 c5 ->
  hd_error (read c1) = Some v1 -> hd_error (read c2) = Some v2 ->
  hd_error (read c3) = Some v3 -> hd_error (read c4) = Some v4 ->
  hd_error (read c5) = Some v5 ->
  inbound w = frames [R1; R2; R3; R4; R5] ++ rest ->
  Planning.client_session parms keygen input rnd w =
  (Val (Planning.mkReport (descale 1 v1) (descale 1 v2) (descale 1 v3)
                      (descale 1 v4) (descale 1 v5)),
   write (set_inbound w rest) (frames (goal_client_objects parms keygen input rnd)) 16).
Proof.
  intros Hs Hc H1 H2 H3 H4 H5 E1 E2 E3 E4 E5 Hin.
  rewrite goal_client_sends by assumption.
  rewrite !frames_cons, frames_nil in Hin.
  erewrite (receive_step _ _ _ _ _ _ H1); [|exact Hin].
  received H2. received H3. received H4. received H5.
  rewrite (first_slot_step _ _ _ _ E1), (first_slot_step _ _ _ _ E2),
    (first_slot_step _ _ _ _ E3), (first_slot_step _ _ _ _ E4),
    (first_slot_step _ _ _ _ E5).
  reflexivity.
Qed.

End GoalClient.

(* ================================================================== *)
(** * What a program writes *)
(* ================================================================== *)

Lemma silent_ret {A} (a : A) : silent (ret a).
Proof. intros w. reflexivity. Qed.

Lemma silent_bind {A B} (m : M A) (k : A -> M B) :
  silent m -> (forall a, silent (k a)) -> silent (bind m k).
Proof.
  intros Hm Hk w. unfold bind. specialize (Hm w).
  destruct (m w) as [[a|s] w1]; cbn [snd] in *; [|exact Hm].
  now rewrite Hk.
Qed.

Lemma silent_receive_data : silent receive_data.
Proof.
  intros w. destruct (receive_data w) as [r w1] eqn:E.
  now apply receive_data_keeps in E.
Qed.

Lemma silent_or_throw {A} (o : option A) : silent (or_throw o).
Proof. intros w. now destruct o. Qed.

Lemma silent_or_undefined {A} (f : Fault) (o : option A) : silent (or_undefined f o).
Proof. intros w. now destruct o. Qed.

Lemma silent_receive_object {A} (load : bytes -> option A) : silent (receive_object load).
Proof.
  unfold receive_object. apply silent_bind; [apply silent_receive_data|].
  intros str. destruct (empty str); [now intros w | apply silent_or_throw].
Qed.

Lemma silent_first_slot (l : list Z) : silent (Planning.first_slot_descaled l).
Proof.
  unfold Planning.first_slot_descaled. apply silent_bind; [apply silent_or_undefined|].
  intros x. apply silent_ret.
Qed.

Lemma silent_scale (d : double) : silent (scale d).
Proof.
  unfold scale. apply silent_bind; [apply silent_or_undefined|].
  intros x. apply silent_ret.
Qed.

Create HintDb silent.
#[export] Hint Resolve silent_ret silent_receive_object silent_first_slot silent_scale : silent.

Ltac silence :=
  repeat (apply silent_bind; [solve [auto with silent] | intros ?]);
  solve [auto with silent].

Lemma hd_error_repeat {A} (a : A) (n : nat) : (0 < n)%nat -> hd_error (repeat a n) = Some a.
Proof. destruct n; [lia | reflexivity]. Qed.

Section GoalSession.
Context {L : SEAL}.
Variables (parms : EncryptionParameters) (keys : KeyGenerator).
Variable C : Contract parms keys.
Variables (input : Planning.UserInput) (rnd : Planning.Randomness).

Local Abbreviation context := (make_context parms).
Local Abbreviation n := (slot_count (make_context parms)).
Local Abbreviation read := (slots (make_context parms) (secret_key keys)).

Lemma encoded_amount (a : ScaledAmount) :
  fits context (magnitude a) ->
  pt_ok C (encode_amount context a) /\
  decode context (encode_amount context a) = repeat (magnitude a) n.
Proof.
  intros Hf. unfold encode_amount.
  assert (Hall : Forall (fits context) (repeat (magnitude a) n)).
  { apply Forall_forall. intros v Hv. apply repeat_spec in Hv. now subst. }
  split.
  - apply (encode_ok _ _ C); [rewrite repeat_length; lia | exact Hall].
  - apply (decode_encode _ _ C); [apply repeat_length | exact Hall].
Qed.

Lemma encrypted_amount (r : Seed) (a : ScaledAmount) :
  fits context (magnitude a) ->
  ct_ok C (encrypt_amount context (public_key keys) r a) /\
  read (encrypt_amount context (public_key keys) r a) = repeat (magnitude a) n.
Proof.
  intros Hf. destruct (encoded_amount a Hf) as [Hp Hd]. unfold encrypt_amount. split.
  - now apply (encrypt_ok _ _ C).
  - unfold slots. now rewrite (decrypt_encrypt _ _ C).
Qed.

Lemma offered_ciphertext (c : Ciphertext) :
  ct_ok C c -> offered (ciphertext_load context) (ciphertext_save c) c.
Proof.
  intros H. split; [now apply (ciphertext_save_sendable _ _ C)|].
  now apply (ciphertext_save_load _ _ C).
Qed.

Lemma offered_plaintext (p : Plaintext) :
  pt_ok C p -> offered (plaintext_load context) (plaintext_save p) p.
Proof.
  intros H. split; [now apply (plaintext_save_sendable _ _ C)|].
  now apply (plaintext_save_load _ _ C).
Qed.

(** What the owner's program has written when it stops or returns. *)
Lemma goal_client_written (w : World) :
  goal_input_scalable input -> send_credit w = None ->
  outbound (snd (Planning.client_session parms keys input rnd w)) =
  outbound w ++ frames (goal_client_objects parms keys input rnd).
Proof.
  intros Hs Hc. rewrite goal_client_sends by assumption.
  match goal with |- outbound (snd (?m ?w')) = _ =>
    assert (Hm : silent m) by silence; rewrite (Hm w') end.
  reflexivity.
Qed.

(** The whole session: what the owner reads back, in integers [i], [e],
    [x], [g] that fit the plain modulus together with the three results. *)
Lemma goal_session_report (i e x g : Z) :
  goal_input_scalable input ->
  i = round (fold_left Qplus (Planning.income_sources_raw input) (0 # 1) * SCALE_FACTOR)%Q ->
  e = round (Planning.essential_expenses_sum_plaintext input * SCALE_FACTOR)%Q ->
  x = round (Planning.non_essential_expenses_sum_plaintext input * SCALE_FACTOR)%Q ->
  g = round (Planning.monthly_savings_goal_double input * SCALE_FACTOR)%Q ->
  fits context i -> fits context e -> fits context x -> fits context g ->
  fits context (e + x) -> fits context (i - (e + x)) -> fits context (i - (e + x) - g) ->
  goal_session parms keys input rnd =
  Val (Planning.mkReport (descale 1 (e + x)) (descale 1 (i - (e + x)))
                     (descale 1 (i - (e + x) - g)) (descale 1 e) (descale 1 x)).
Proof.
  intros Hs Ei Ee Ex Eg Fi Fe Fx Fg F1 F2 F3.
  pose proof (slots_positive _ _ C) as Hn.
  destruct (encrypted_amount (Planning.seed_income rnd) (mkScaled i 1) Fi) as [Oi Ri].
  destruct (encrypted_amount (Planning.seed_essential rnd) (mkScaled e 1) Fe) as [Oe Re].
  destruct (encrypted_amount (Planning.seed_non_essential rnd) (mkScaled x 1) Fx) as [Ox Rx].
  destruct (encoded_amount (mkScaled g 1) Fg) as [Og Rg].
  cbn [magnitude] in Ri, Re, Rx, Rg.
  set (inc := encrypt_amount context (public_key keys) (Planning.seed_income rnd)
                             (mkScaled i 1)) in *.
  set (ess := encrypt_amount context (public_key keys) (Planning.seed_essential rnd)
                             (mkScaled e 1)) in *.
  set (non := encrypt_amount context (public_key keys) (Planning.seed_non_essential rnd)
                             (mkScaled x 1)) in *.
  set (goal := encode_amount context (mkScaled g 1)) in *.
  assert (Hobjs : goal_client_objects parms keys input rnd =
                  [parms_save parms; public_key_save (public_key keys);
                   relin_keys_save (relin_keys keys); galois_keys_save (galois_keys keys);
                   ciphertext_save inc; plaintext_save goal;
                   ciphertext_save ess; ciphertext_save non]).
  { unfold goal_client_objects. cbv zeta. rewrite <- Ei, <- Ee, <- Ex, <- Eg. reflexivity. }
  assert (Hreq : goal_request (parms_save parms) (public_key_save (public_key keys))
                   (relin_keys_save (relin_keys keys)) (galois_keys_save (galois_keys keys))
                   (ciphertext_save inc) (plaintext_save goal)
                   (ciphertext_save ess) (ciphertext_save non)
                   parms (public_key keys) (relin_keys keys) (galois_keys keys)
                   inc goal ess non).
  { unfold goal_request, offered. cbv zeta.
    pose proof (parms_save_sendable _ _ C). pose proof (parms_save_load _ _ C).
    pose proof (public_key_save_sendable _ _ C). pose proof (public_key_save_load _ _ C).
    pose proof (relin_keys_save_sendable _ _ C). pose proof (relin_keys_save_load _ _ C).
    pose proof (galois_keys_save_sendable _ _ C). pose proof (galois_keys_save_load _ _ C).
    pose proof (offered_ciphertext inc Oi). pose proof (offered_ciphertext ess Oe).
    pose proof (offered_ciphertext non Ox). pose proof (offered_plaintext goal Og).
    unfold offered, sendable in *. tauto. }
  destruct (goal_pipeline_slots parms keys C inc ess non goal Oi Og Oe Ox)
    as ((Ot & On & Od) & _).
  destruct (goal_pipeline_constant parms keys C inc ess non goal i g e x
              Oi Og Oe Ox Ri Rg Re Rx F1 F2 F3) as (Rt & Rn & Rd).
  unfold goal_session.
  rewrite goal_client_written by (assumption || reflexivity).
  cbn [fresh outbound app]. rewrite Hobjs.
  rewrite (goal_server_receives _ _ _ _ _ _ _ _ _ _ _ _ _ _ _ _ (fresh _ Silent) []
             Hreq) by (cbn [fresh inbound]; now rewrite app_nil_r).
  rewrite goal_respond_free by reflexivity.
  cbn [snd write outbound set_inbound fresh app]. unfold goal_results, Planning.pipeline.
  erewrite goal_client_run with (rest := []);
    [reflexivity | exact Hs | reflexivity | apply offered_ciphertext ..
     | | | | | | cbn [fresh inbound]; now rewrite app_nil_r ];
    try assumption;
    first [ rewrite Rt | rewrite Rn | rewrite Rd | rewrite Re | rewrite Rx ];
    now apply hd_error_repeat.
Qed.

End GoalSession.

(** C10. On a complete request the fourth and fifth frames the compute
    party sends are the saved essential-expenses and non-essential-expenses
    ciphertexts exactly as loaded from the seventh and eighth frames it
    received: no evaluator operation is applied to them, and when a
    received string is the saved form of a valid ciphertext the same bytes
    go back. In a whole session the owner therefore reads back, descaled,
    the two integers it encrypted. *)
Theorem C10_expenses_returned {L : SEAL} (parms : EncryptionParameters)
    (keys : KeyGenerator) (C : Contract parms keys)
    (P PK RLK GLK INC GOAL ESS NON : bytes)
    (pk : PublicKey) (rlk : RelinKeys) (glk : GaloisKeys)
    (inc : Ciphertext) (goal : Plaintext) (ess non : Ciphertext)
    (w : World) (rest : bytes)
    (input : Planning.UserInput) (rnd : Planning.Randomness) (i e x g : Z) :
  let context := make_context parms in
  goal_request P PK RLK GLK INC GOAL ESS NON parms pk rlk glk inc goal ess non ->
  inbound w = frames [P; PK; RLK; GLK; INC; GOAL; ESS; NON] ++ rest ->
  send_credit w = None ->
  goal_input_scalable input ->
  i = round (fold_left Qplus (Planning.income_sources_raw input) (0 # 1) * SCALE_FACTOR)%Q ->
  e = round (Planning.essential_expenses_sum_plaintext input * SCALE_FACTOR)%Q ->
  x = round (Planning.non_essential_expenses_sum_plaintext input * SCALE_FACTOR)%Q ->
  g = round (Planning.monthly_savings_goal_double input * SCALE_FACTOR)%Q ->
  fits context i -> fits context e -> fits context x -> fits context g ->
  fits context (e + x) -> fits context (i - (e + x)) -> fits context (i - (e + x) - g) ->
  (exists r1 r2 r3,
     run Planning.server_main w =
     (Returned 0,
      write (set_inbound w rest)
            (frames [r1; r2; r3; ciphertext_save ess; ciphertext_save non]) 10)) /\
  (forall c, ct_ok C c -> ESS = ciphertext_save c -> ciphertext_save ess = ESS) /\
  (forall c, ct_ok C c -> NON = ciphertext_save c -> ciphertext_save non = NON) /\
  exists report,
    goal_session parms keys input rnd = Val report /\
    Planning.decoded_essential_expenses_double report = descale 1 e /\
    Planning.decoded_non_essential_expenses_double report = descale 1 x.
Proof.
  cbv zeta. intros Hreq Hin Hc Hs Ei Ee Ex Eg Fi Fe Fx Fg F1 F2 F3.
  split; [|split; [|split]].
  - do 3 eexists. unfold run.
    rewrite (goal_server_receives _ _ _ _ _ _ _ _ _ _ _ _ _ _ _ _ _ _ Hreq Hin).
    rewrite goal_respond_free by exact Hc. reflexivity.
  - intros c Hok ->. destruct Hreq as (_ & _ & _ & _ & _ & _ & [_ Hl] & _).
    rewrite (ciphertext_save_load _ _ C) in Hl by exact Hok. now inversion Hl.
  - intros c Hok ->. destruct Hreq as (_ & _ & _ & _ & _ & _ & _ & [_ Hl]).
    rewrite (ciphertext_save_load _ _ C) in Hl by exact Hok. now inversion Hl.
  - eexists. split.
    + now apply (goal_session_report parms keys C input rnd i e x g).
    + split; reflexivity.
Qed.

(** C10 on the reference implementation, for the figures 1500.75, 450.50,
    120.00 and 500.00. *)
Lemma C10_expenses_returned_witness :
  let T : EncryptionParameters := Reference.batching_prime in
  let input := Planning.mkInput [(150075 # 100)%Q] (45050 # 100)%Q (120 # 1)%Q (500 # 1)%Q in
  let rnd := Planning.mkRandomness Byte.x01 Byte.x02 Byte.x03 in
  exists report,
    goal_session T Reference.keys input rnd = Val report /\
    Planning.decoded_essential_expenses_double report = descale 1 45050 /\
    Planning.decoded_non_essential_expenses_double report = descale 1 12000.
Proof.
  intros T input rnd.
  pose (enc := fun r v => encrypt_amount T Byte.x2a r (mkScaled v 1)).
  pose (goal := encode_amount T (mkScaled 50000 1)).
  pose (request :=
    frames [Reference.parms_save T; Reference.key_save Byte.x2a;
            Reference.key_save Byte.x2a; Reference.key_save Byte.x2a;
            Reference.ciphertext_save (enc Byte.x01 150075);
            Reference.plaintext_save goal;
            Reference.ciphertext_save (enc Byte.x02 45050);
            Reference.ciphertext_save (enc Byte.x03 12000)]).
  refine (proj2 (proj2 (proj2
    (C10_expenses_returned (L := Reference.library) T Reference.keys reference_contract
       (Reference.parms_save T) (Reference.key_save Byte.x2a)
       (Reference.key_save Byte.x2a) (Reference.key_save Byte.x2a)
       (Reference.ciphertext_save (enc Byte.x01 150075)) (Reference.plaintext_save goal)
       (Reference.ciphertext_save (enc Byte.x02 45050))
       (Reference.ciphertext_save (enc Byte.x03 12000))
       Byte.x2a Byte.x2a Byte.x2a (enc Byte.x01 150075) goal
       (enc Byte.x02 45050) (enc Byte.x03 12000)
       (fresh request Silent) [] input rnd 150075 45050 12000 50000
       _ _ _ _ _ _ _ _ _ _ _ _ _ _ _)))).
  - reference_side.
  - unfold request. now rewrite app_nil_r.
  - reflexivity.
  - unfold goal_input_scalable, scalable. repeat split; vm_compute; discriminate.
  - reflexivity.
  - reflexivity.
  - reflexivity.
  - reflexivity.
  - reference_side.
  - reference_side.
  - reference_side.
  - reference_side.
  - reference_side.
  - reference_side.
  - reference_side.
Defined.

(* ================================================================== *)
(** * What the owner puts on the wire *)
(* ================================================================== *)

Lemma is_prefix_refl (l : bytes) : is_prefix l l.
Proof. exists []. apply app_nil_r. Qed.

Lemma is_prefix_nil (l : bytes) : is_prefix [] l.
Proof. now exists l. Qed.

Lemma is_prefix_app (a p l : bytes) : is_prefix p l -> is_prefix (a ++ p) (a ++ l).
Proof. intros [q <-]. exists q. now rewrite app_assoc. Qed.

Lemma is_prefix_weaken (p l m : bytes) : is_prefix p l -> is_prefix p (l ++ m).
Proof. intros [q <-]. exists (q ++ m). now rewrite app_assoc. Qed.

Lemma emits_send_object (x : bytes) : emits (send_object x) tt (frame x).
Proof.
  intros w. unfold send_object, bind. rewrite send_data_cases.
  destruct (send_credit w) as [[|[|c]]|] eqn:E; cbn [negb].
  - exists [], w. split; [now rewrite app_nil_r|]. right.
    split; [now eexists | apply is_prefix_nil].
  - exists (le_split sizeof_size_t (Z.of_nat (length x))),
           (write w (le_split sizeof_size_t (Z.of_nat (length x))) 1).
    split; [reflexivity|]. right. split; [now eexists|]. now exists x.
  - exists (frame x), (write w (frame x) 2).
    split; [reflexivity|]. left. now split.
  - exists (frame x), (write w (frame x) 2).
    split; [reflexivity|]. left. now split.
Qed.

Lemma emits_scale (d : double) : emits (scale d) (round (d * SCALE_FACTOR)%Q) [].
Proof.
  intros w. exists [], w. split; [now rewrite app_nil_r|].
  unfold scale, toScaled, to_int64.
  destruct (_ && _); [left | right]; split;
    first [reflexivity | now eexists | apply is_prefix_nil].
Qed.

Lemma writes_prefix_bind {A B} (m : M A) (k : A -> M B) (a : A) (l1 l2 : bytes) :
  emits m a l1 -> writes_prefix (k a) l2 -> writes_prefix (bind m k) (l1 ++ l2).
Proof.
  intros Hm Hk w. destruct (Hm w) as (p & w1 & Hout & [[Hval ->] | [[s Hstop] Hp]]).
  - rewrite (bind_val _ _ _ _ _ Hval). destruct (Hk w1) as (sent & Hs & Hpre).
    exists (l1 ++ sent). split.
    + now rewrite Hs, Hout, app_assoc.
    + now apply is_prefix_app.
  - rewrite (bind_stop _ _ _ _ _ Hstop). exists p. split; [exact Hout|].
    now apply is_prefix_weaken.
Qed.

Lemma writes_prefix_send {B} (x : bytes) (k : unit -> M B) (l : bytes) :
  writes_prefix (k tt) l -> writes_prefix (bind (send_object x) k) (frame x ++ l).
Proof. apply writes_prefix_bind, emits_send_object. Qed.

Lemma writes_prefix_scale {B} (d : double) (k : Z -> M B) (l : bytes) :
  writes_prefix (k (round (d * SCALE_FACTOR)%Q)) l -> writes_prefix (bind (scale d) k) l.
Proof. apply (writes_prefix_bind _ _ _ [] l), emits_scale. Qed.

Lemma writes_prefix_silent {A} (m : M A) : silent m -> writes_prefix m [].
Proof.
  intros H w. exists []. split; [now rewrite H, app_nil_r | apply is_prefix_nil].
Qed.

Lemma same_wire_bind {A B C} (m : M A) (k1 : A -> M B) (k2 : A -> M C) :
  (forall a, same_wire (k1 a) (k2 a)) -> same_wire (bind m k1) (bind m k2).
Proof.
  intros H w. unfold bind. destruct (m w) as [[a|s] w1]; [apply H | reflexivity].
Qed.

Lemma same_wire_silent {A B} (m1 : M A) (m2 : M B) :
  silent m1 -> silent m2 -> same_wire m1 m2.
Proof. intros H1 H2 w. now rewrite H1, H2. Qed.

(** C9. In every run of the owner's program, whatever the connection
    does, the bytes written to the transport are a prefix of the eight
    frames holding the saved parameters, public key, relinearization keys,
    Galois keys, encrypted income, encoded goal and the two encrypted
    expense totals, all of them when the program reaches its first receive.
    The secret key is no input of these: with any other secret key in the
    key generator's place the same bytes are written and the same objects
    are saved. *)
Theorem C9_secret_key_stays {L : SEAL} (parms : EncryptionParameters)
    (keys : KeyGenerator) (input : Planning.UserInput) (rnd : Planning.Randomness) (w : World) :
  (exists sent,
     outbound (snd (Planning.client_session parms keys input rnd w)) = outbound w ++ sent /\
     is_prefix sent (frames (goal_client_objects parms keys input rnd))) /\
  (forall sk',
     outbound (snd (Planning.client_session parms (with_secret_key keys sk') input rnd w)) =
     outbound (snd (Planning.client_session parms keys input rnd w))) /\
  (forall sk',
     goal_client_objects parms (with_secret_key keys sk') input rnd =
     goal_client_objects parms keys input rnd) /\
  (goal_input_scalable input -> send_credit w = None ->
   outbound (snd (Planning.client_session parms keys input rnd w)) =
   outbound w ++ frames (goal_client_objects parms keys input rnd)).
Proof.
  split; [|split; [|split]].
  - revert w. change (writes_prefix (Planning.client_session parms keys input rnd)
                        (frames (goal_client_objects parms keys input rnd))).
    unfold Planning.client_session, goal_client_objects, frames.
    cbv zeta. cbn [map concat].
    repeat first [apply writes_prefix_send | apply writes_prefix_scale].
    apply writes_prefix_silent. silence.
  - intros sk'. revert w.
    change (same_wire (Planning.client_session parms (with_secret_key keys sk') input rnd)
                      (Planning.client_session parms keys input rnd)).
    unfold Planning.client_session. cbv zeta.
    cbn [with_secret_key public_key relin_keys galois_keys secret_key].
    repeat (apply same_wire_bind; intros ?).
    apply same_wire_silent; silence.
  - intros sk'. reflexivity.
  - apply goal_client_written.
Qed.

(** C9 on the sample session: once with every send succeeding, once with
    the fourth [send] call failing. *)
Lemma C9_secret_key_stays_witness :
  let owner := Planning.client_session Sample.parms Reference.keys Sample.input Sample.rnd in
  let objects := goal_client_objects Sample.parms Reference.keys Sample.input Sample.rnd in
  let w := mkWorld [] Silent [] (Some 3%nat) 0 in
  outbound (snd (owner (fresh [] Silent))) = frames objects /\
  (exists sent, outbound (snd (owner w)) = outbound w ++ sent /\
                is_prefix sent (frames objects)) /\
  outbound (snd (Planning.client_session Sample.parms
                   (with_secret_key Reference.keys Byte.x00) Sample.input Sample.rnd w)) =
  outbound (snd (owner w)).
Proof.
  intros owner objects w.
  destruct (C9_secret_key_stays (L := Reference.library) Sample.parms Reference.keys
              Sample.input Sample.rnd (fresh [] Silent)) as (_ & _ & _ & Hall).
  destruct (C9_secret_key_stays (L := Reference.library) Sample.parms Reference.keys
              Sample.input Sample.rnd w) as (Hpre & Hsk & _ & _).
  split; [|split].
  - apply Hall; [|reflexivity].
    unfold goal_input_scalable, scalable. repeat split; vm_compute; discriminate.
  - exact Hpre.
  - apply Hsk.
Defined.

(* ================================================================== *)
(** * Result delivery under failing sends *)
(* ================================================================== *)

Lemma send_object_cases (x : bytes) (w : World) :
  send_object x w =
  match send_credit w with
  | Some O => (Stop (Returned 1), w)
  | Some (S O) =>
      (Stop (Returned 1), write w (le_split sizeof_size_t (Z.of_nat (length x))) 1)
  | _ => (Val tt, write w (frame x) 2)
  end.
Proof.
  unfold send_object, bind. rewrite send_data_cases.
  now destruct (send_credit w) as [[|[|c]]|].
Qed.

Lemma frames_step (x : bytes) (l : list bytes) : frames (x :: l) = frame x ++ frames l.
Proof. reflexivity. Qed.

Lemma write_nothing (w : World) : write w [] 0 = w.
Proof.
  destruct w as [i e o c j]. unfold write, spend. cbn.
  rewrite app_nil_r. destruct c; [|reflexivity]. now rewrite Nat.sub_0_r.
Qed.

Lemma write_spends (w : World) (data : bytes) (n k : nat) :
  send_credit w = Some (k + n)%nat -> send_credit (write w data k) = Some n.
Proof. intros H. unfold write, spend. cbn. rewrite H. f_equal. lia. Qed.

(** When every [send] call goes through, [send_all] delivers all the
    strings. *)
Lemma send_all_whole (l : list bytes) (w : World) :
  can_send (2 * length l) w ->
  send_all l w = (Val tt, write w (frames l) (2 * length l)).
Proof.
  revert w. induction l as [|x l IH]; intros w Hc.
  - cbn. now rewrite write_nothing.
  - cbn [send_all]. unfold bind. rewrite send_object_cases.
    assert (Hnext : can_send (2 * length l) (write w (frame x) 2)).
    { unfold can_send, write, spend in *. cbn [send_credit length] in *.
      destruct (send_credit w); [lia | exact I]. }
    unfold can_send in Hc. cbn [length] in Hc.
    destruct (send_credit w) as [[|[|c]]|]; try lia;
      rewrite (IH _ Hnext), write_write, frames_step; do 2 f_equal; cbn [length]; lia.
Qed.

(** When the first [n] [send] calls go through and the next one returns
    -1, [send_all] exits with status 1 having delivered the first [n / 2]
    strings, and the length header of the next one when [n] is odd. *)
Lemma send_all_credit (l : list bytes) (w : World) (n : nat) :
  send_credit w = Some n -> (n < 2 * length l)%nat ->
  send_all l w =
  (Stop (Returned 1),
   write w (frames (firstn (n / 2) l) ++
            (if Nat.even n then [] else header_of (nth (n / 2) l []))) n).
Proof.
  revert w n. induction l as [|x l IH]; intros w n Hc Hn.
  - cbn in Hn. lia.
  - cbn [send_all]. unfold bind. rewrite send_object_cases, Hc.
    destruct n as [|[|n]].
    + cbn. now rewrite write_nothing.
    + reflexivity.
    + assert (Hnext : send_credit (write w (frame x) 2) = Some n)
        by (apply write_spends; exact Hc).
      rewrite (IH _ n Hnext) by (cbn [length] in Hn; lia).
      rewrite write_write.
      replace (S (S n) / 2)%nat with (S (n / 2))
        by (replace (S (S n)) with (n + 1 * 2)%nat by lia;
            rewrite Nat.div_add by lia; lia).
      cbn [firstn nth]. rewrite frames_step, <- app_assoc.
      change (Nat.even (S (S n))) with (Nat.even n). reflexivity.
Qed.

Lemma goal_respond_send_all {L : SEAL} (context : SEALContext)
    (inc : Ciphertext) (goal : Plaintext) (ess non : Ciphertext) (w : World) :
  Planning.respond context inc goal ess non w =
  (_ <- send_all (goal_results context inc goal ess non) ;; ret 0) w.
Proof.
  unfold Planning.respond, goal_results, Planning.pipeline. cbn [send_all]. unfold bind.
  repeat match goal with
         | |- context [send_object ?x ?v] =>
             destruct (send_object x v) as [[[]|?] ?]; [|reflexivity]
         end.
  reflexivity.
Qed.

(** C6 (amended). On a complete request the compute party sends its
    five result frames one after the other, each with two [send] calls.
    When all ten calls go through it returns 0 with the five frames on the
    wire. When the first [n] calls go through and the next one returns -1
    ([n] below ten), it returns 1 there, and what it leaves on the wire is
    the first [n / 2] result frames, whole and in order, followed by the
    length header of the next one when [n] is odd. *)
Theorem C6_results_in_order {L : SEAL}
    (P PK RLK GLK INC GOAL ESS NON : bytes)
    (parms : EncryptionParameters) (pk : PublicKey) (rlk : RelinKeys) (glk : GaloisKeys)
    (inc : Ciphertext) (goal : Plaintext) (ess non : Ciphertext)
    (w : World) (rest : bytes) :
  goal_request P PK RLK GLK INC GOAL ESS NON parms pk rlk glk inc goal ess non ->
  inbound w = frames [P; PK; RLK; GLK; INC; GOAL; ESS; NON] ++ rest ->
  let results := goal_results (make_context parms) inc goal ess non in
  let status := fst (run Planning.server_main w) in
  let written := outbound (snd (run Planning.server_main w)) in
  (can_send 10 w -> status = Returned 0 /\ written = outbound w ++ frames results) /\
  (forall n : nat,
      send_credit w = Some n -> (n < 10)%nat ->
      status = Returned 1 /\
      written = outbound w ++ frames (firstn (n / 2) results) ++
                (if Nat.even n then [] else header_of (nth (n / 2) results []))).
Proof.
  intros Hreq Hin results status written. subst status written.
  unfold run.
  rewrite (goal_server_receives _ _ _ _ _ _ _ _ _ _ _ _ _ _ _ _ _ _ Hreq Hin).
  rewrite goal_respond_send_all. fold results. unfold bind.
  assert (Hlen : length results = 5%nat) by reflexivity.
  split.
  - intros Hc. rewrite send_all_whole by (rewrite Hlen; exact Hc).
    split; reflexivity.
  - intros n Hc Hn. rewrite (send_all_credit results _ n) by (rewrite ?Hlen; assumption || lia).
    split; reflexivity.
Qed.

Lemma sample_request :
  goal_request (Reference.parms_save Sample.parms) (Reference.key_save Byte.x2a)
    (Reference.key_save Byte.x2a) (Reference.key_save Byte.x2a)
    (Reference.ciphertext_save Sample.income) (Reference.plaintext_save Sample.goal)
    (Reference.ciphertext_save Sample.essential)
    (Reference.ciphertext_save Sample.non_essential)
    Sample.parms Byte.x2a Byte.x2a Byte.x2a
    Sample.income Sample.goal Sample.essential Sample.non_essential.
Proof. reference_side. Qed.

(** C6 (amended) on the sample session when the sixth [send] call fails:
    two results are delivered whole, then the header of the third. *)
Lemma C6_results_in_order_witness :
  let results :=
    goal_results Sample.parms Sample.income Sample.goal
                 Sample.essential Sample.non_essential in
  let w := Sample.server_world (Some 5%nat) in
  fst (run Planning.server_main w) = Returned 1 /\
  outbound (snd (run Planning.server_main w)) =
    outbound w ++ frames (firstn 2 results) ++ header_of (nth 2 results []).
Proof.
  intros results w.
  refine (proj2 (C6_results_in_order (L := Reference.library) _ _ _ _ _ _ _ _ _ _ _ _ _ _ _ _
                   w [] sample_request _) 5%nat eq_refl _).
  - unfold w, Sample.server_world, Sample.objects. cbn [inbound]. now rewrite app_nil_r.
  - apply Nat.ltb_lt. reflexivity.
Defined.

(** C6 as stated fails: when the third [send] call of the compute party
    fails, the owner has the first result frame, which it receives and
    loads, and the session ends with status 1. *)
Lemma C6_counterexample :
  let w := Sample.server_world (Some 2%nat) in
  run Planning.server_main w =
    (Returned 1,
     mkWorld [] Silent (frame (Reference.ciphertext_save Sample.total_expenses))
             (Some 0%nat) 0) /\
  receive_object (ciphertext_load Sample.parms)
                 (fresh (outbound (snd (run Planning.server_main w))) PeerClosed) =
    (Val Sample.total_expenses, fresh [] PeerClosed).
Proof. split; vm_compute; reflexivity. Qed.

(* ================================================================== *)
(** * Failed receives *)
(* ================================================================== *)

Lemma receive_data_header_error (w w1 : World) (got : bytes) :
  recv (Z.of_nat sizeof_size_t) w = Some (-1, got, w1) ->
  receive_data w = (Val [], w1).
Proof.
  intros H. unfold receive_data, bind, junk, sys_recv. now rewrite H.
Qed.

Lemma receive_data_payload_error (w w1 w2 : World) (r : Z) (got got2 : bytes) :
  recv (Z.of_nat sizeof_size_t) w = Some (r, got, w1) -> r <> -1 ->
  le_combine (stored got (le_split sizeof_size_t (stack_junk w))) <= VECTOR_MAX_SIZE ->
  recv (le_combine (stored got (le_split sizeof_size_t (stack_junk w)))) w1 =
    Some (-1, got2, w2) ->
  receive_data w = (Val [], w2).
Proof.
  intros H1 Hr Hmax H2. unfold receive_data, bind, junk, sys_recv.
  rewrite H1. cbn [fst snd]. apply Z.eqb_neq in Hr. rewrite Hr.
  replace (_ >? VECTOR_MAX_SIZE) with false
    by (symmetry; rewrite Z.gtb_ltb; apply Z.ltb_ge; exact Hmax).
  now rewrite H2.
Qed.

Lemma receive_object_received {A} (load : bytes -> option A) (x : bytes) (w w1 : World) :
  receive_data w = (Val x, w1) -> x <> [] ->
  receive_object load w = or_throw (load x) w1.
Proof.
  intros H Hne. unfold receive_object.
  now rewrite (bind_val _ _ _ _ _ H), (empty_false _ Hne).
Qed.

Lemma receives_outbound (xs : list bytes) (w w' : World) :
  receives xs w w' -> outbound w' = outbound w.
Proof.
  revert w. induction xs as [|x xs IH]; intros w; cbn.
  - now intros ->.
  - intros (_ & w1 & Hr & Hrest). apply receive_data_keeps in Hr.
    rewrite (IH _ Hrest). apply Hr.
Qed.

(** A receive of [main] after a successful [receive_data]: the load
    decides between going on and the uncaught exception. *)
Lemma received_step {A B} (load : bytes -> option A) (k : A -> M B)
    (x : bytes) (w w1 : World) :
  receive_data w = (Val x, w1) -> x <> [] ->
  bind (receive_object load) k w =
  match load x with
  | Some a => k a w1
  | None => (Stop Uncaught, w1)
  end.
Proof.
  intros H Hne. unfold bind at 1. rewrite (receive_object_received _ _ _ _ H Hne).
  now destruct (load x).
Qed.

Lemma failed_step {A B} (load : bytes -> option A) (k : A -> M B) (w w1 : World) :
  receive_data w = (Val [], w1) ->
  bind (receive_object load) k w = (Stop (Returned 1), w1).
Proof. intros H. apply bind_stop. now apply receive_object_failed. Qed.

(** Settles what the loads of the strings walked so far say. *)
Ltac loads_known :=
  cbn [goal_strings_load all_load goal_loaders]; unfold loads;
  repeat match goal with
         | E : _ = Some _ |- _ => rewrite E
         | E : _ = None |- _ => rewrite E
         end;
  cbn [andb].

(** Walks a [main] along the receives listed by a [receives] hypothesis,
    branching on every load. *)
Ltac walk :=
  repeat match goal with
         | H : receives (_ :: _) _ _ |- _ =>
             let Hne := fresh "Hne" in
             let w1 := fresh "w" in
             let Hr := fresh "Hr" in
             let Hk := fresh "Hk" in
             let E := fresh "E" in
             destruct H as (Hne & w1 & Hr & H);
             pose proof (receive_data_keeps _ _ _ Hr) as Hk;
             rewrite (received_step _ _ _ _ _ Hr Hne);
             match goal with
             | |- context [match ?o with Some _ => _ | None => _ end] =>
                 destruct o eqn:E;
                 [| cbn [fst snd]; loads_known;
                    split; [discriminate | split; [reflexivity | intuition congruence]] ]
             end
         | H : receives [] _ _ |- _ => cbn in H; subst
         end.

Lemma goal_server_rejects {L : SEAL} (xs : list bytes) (w w1 w2 : World) :
  (length xs < 8)%nat -> receives xs w w1 -> receive_data w1 = (Val [], w2) ->
  (goal_strings_load xs = true -> run Planning.server_main w = (Returned 1, w2)) /\
  (goal_strings_load xs = false -> fst (run Planning.server_main w) = Uncaught) /\
  outbound (snd (run Planning.server_main w)) = outbound w.
Proof.
  intros Hlen Hrec Hfail.
  pose proof (receive_data_keeps _ _ _ Hfail) as Hk2.
  unfold run, Planning.server_main.
  do 8 (destruct xs as [|? xs];
        [walk; rewrite (failed_step _ _ _ _ Hfail); cbn [fst snd]; loads_known;
         split; [reflexivity | split; [discriminate | intuition congruence]]|]).
  cbn in Hlen. lia.
Qed.

(** C5 (amended). An I/O error reported by [recv] (return value -1), on
    the length header or on the payload, makes [receive_data] return the
    empty string; and when [receive_data] returns the empty string at any
    of the eight receives of the compute party, after the earlier ones
    returned non-empty strings, the run returns status 1 there if every one
    of these strings had loaded, and has otherwise ended before on the
    exception of the first load that failed; in both cases nothing has been
    written to the owner: the evaluation results are never sent. *)
Theorem C5_io_error_rejects {L : SEAL} :
  (forall (w w1 : World) (got : bytes),
      recv (Z.of_nat sizeof_size_t) w = Some (-1, got, w1) ->
      receive_data w = (Val [], w1)) /\
  (forall (w w1 w2 : World) (r : Z) (got got2 : bytes),
      recv (Z.of_nat sizeof_size_t) w = Some (r, got, w1) -> r <> -1 ->
      le_combine (stored got (le_split sizeof_size_t (stack_junk w))) <= VECTOR_MAX_SIZE ->
      recv (le_combine (stored got (le_split sizeof_size_t (stack_junk w)))) w1 =
        Some (-1, got2, w2) ->
      receive_data w = (Val [], w2)) /\
  (forall (xs : list bytes) (w w1 w2 : World),
      (length xs < 8)%nat -> receives xs w w1 -> receive_data w1 = (Val [], w2) ->
      (goal_strings_load xs = true -> run Planning.server_main w = (Returned 1, w2)) /\
      (goal_strings_load xs = false -> fst (run Planning.server_main w) = Uncaught) /\
      outbound (snd (run Planning.server_main w)) = outbound w).
Proof.
  split; [|split].
  - apply receive_data_header_error.
  - apply receive_data_payload_error.
  - apply goal_server_rejects.
Qed.

(** C5 (amended) on the sample session when the connection fails after the
    fifth frame, within the next frame's payload. *)
Lemma C5_io_error_rejects_witness :
  let arrived := firstn 5 Sample.objects in
  let w := mkWorld (frames arrived ++ header_of [Byte.x61]) ConnectionError [] None 0 in
  run Planning.server_main w = (Returned 1, set_inbound w []) /\
  outbound (snd (run Planning.server_main w)) = [].
Proof.
  intros arrived w.
  destruct (C5_io_error_rejects (L := Reference.library)) as (_ & _ & H).
  destruct (H arrived w (set_inbound w (header_of [Byte.x61])) (set_inbound w []))
    as (Hrun & _ & Hout).
  - apply Nat.ltb_lt. reflexivity.
  - cbn -[receive_data].
    repeat match goal with
           | |- _ /\ _ => split
           | |- _ <> _ => discriminate
           | |- exists _, _ => eexists
           | |- _ = _ => vm_compute; reflexivity
           end.
  - vm_compute. reflexivity.
  - split; [apply Hrun; vm_compute; reflexivity | exact Hout].
Defined.

(** C5 as stated fails. The peer closes after a length header announcing
    five bytes: the payload read returns 0 and [receive_data] returns five
    zero bytes, not its failure value, so the compute party goes on to load
    them and ends on the uncaught exception. A header beyond the largest
    vector makes the buffer constructor throw, with the same end. *)
Lemma C5_counterexample :
  let closed := fresh (header_of (repeat Byte.x61 5)) PeerClosed in
  let oversized := fresh (le_split sizeof_size_t (2 ^ 63) ++ [Byte.x61]) PeerClosed in
  recv 5 (set_inbound closed []) = Some (0, [], set_inbound closed []) /\
  receive_data closed = (Val (repeat Byte.x00 5), set_inbound closed []) /\
  run (Planning.server_main (L := Reference.library)) closed = (Uncaught, set_inbound closed []) /\
  receive_data oversized = (Stop Uncaught, set_inbound oversized [Byte.x61]) /\
  run (Planning.server_main (L := Reference.library)) oversized =
    (Uncaught, set_inbound oversized [Byte.x61]).
Proof. repeat split; vm_compute; reflexivity. Qed.

(* ================================================================== *)
(** * The handshake is positional *)
(* ================================================================== *)

(** A receive of [main] on a framed string, whatever it is. *)
Lemma framed_step {A B} (load : bytes -> option A) (k : A -> M B)
    (x rest : bytes) (w : World) :
  sendable x -> inbound w = frame x ++ rest ->
  bind (receive_object load) k w =
  match load x with
  | Some a => k a (set_inbound w rest)
  | None => (Stop Uncaught, set_inbound w rest)
  end.
Proof.
  intros [Hne Hlen] Hin.
  exact (received_step load k x w _ (receive_data_frame _ _ _ Hlen Hin) Hne).
Qed.

Lemma set_inbound_twice (w : World) (a b : bytes) :
  set_inbound (set_inbound w a) b = set_inbound w b.
Proof. reflexivity. Qed.

Section Handshake.
Context {L : SEAL}.
Variables (P PK : bytes) (parms : EncryptionParameters) (pk : PublicKey).
Hypothesis HP : offered parms_load P parms.
Hypothesis HPK : offered (public_key_load (make_context parms)) PK pk.

Local Abbreviation context := (make_context parms).

Lemma handshake_third_failed (w w' : World) (tail : bytes) :
  inbound w = frames [P; PK] ++ tail ->
  receive_data (set_inbound w tail) = (Val [], w') ->
  run Planning.server_main w = (Returned 1, w') /\
  run Savings.server_main w = (Returned 1, w').
Proof.
  intros Hin Hfail. rewrite !frames_cons, frames_nil in Hin.
  split; unfold run, Planning.server_main, Savings.server_main;
    rewrite (receive_step _ _ _ _ _ _ HP Hin);
    (erewrite (receive_step _ _ _ _ _ _ HPK) by reflexivity);
    now rewrite (failed_step _ _ _ _ Hfail).
Qed.

Lemma handshake_third_rejected (w : World) (X rest : bytes) :
  inbound w = frames [P; PK; X] ++ rest -> sendable X ->
  relin_keys_load context X = None ->
  run Planning.server_main w = (Uncaught, set_inbound w rest) /\
  run Savings.server_main w = (Uncaught, set_inbound w rest).
Proof.
  intros Hin HX Hload. rewrite !frames_cons, frames_nil in Hin.
  split; unfold run, Planning.server_main, Savings.server_main;
    rewrite (receive_step _ _ _ _ _ _ HP Hin);
    (erewrite (receive_step _ _ _ _ _ _ HPK) by reflexivity);
    (erewrite (framed_step (relin_keys_load context) _ X rest)
      by (exact HX || reflexivity));
    now rewrite Hload.
Qed.

(** Up to the third frame both programs depend on the frame through what
    [relin_keys.load] makes of it, and on nothing else. *)
Lemma handshake_third_blind (w : World) (X X' rest : bytes) :
  inbound w = frames [P; PK; X] ++ rest -> sendable X -> sendable X' ->
  relin_keys_load context X = relin_keys_load context X' ->
  run Planning.server_main w =
    run Planning.server_main (set_inbound w (frames [P; PK; X'] ++ rest)) /\
  run Savings.server_main w =
    run Savings.server_main (set_inbound w (frames [P; PK; X'] ++ rest)).
Proof.
  intros Hin HX HX' Hload. rewrite !frames_cons, frames_nil in *.
  split; unfold run, Planning.server_main, Savings.server_main;
    rewrite (receive_step _ _ _ _ _ _ HP Hin);
    (erewrite (receive_step _ _ _ _ _ _ HPK) by reflexivity);
    (erewrite (framed_step (relin_keys_load context) _ X rest)
      by (exact HX || reflexivity));
    (erewrite (receive_step _ _ _ _ _ _ HP) by reflexivity);
    (erewrite (receive_step _ _ _ _ _ _ HPK) by reflexivity);
    (erewrite (framed_step (relin_keys_load context) _ X' rest)
      by (exact HX' || reflexivity));
    now rewrite Hload.
Qed.

End Handshake.

(** C7 (amended). Both compute-party programs take the third frame on the
    wire as the relinearization keys, whatever it is. After a good
    parameters frame and public-key frame: when the third receive returns
    the empty string the run ends with status 1, nothing later is read and
    nothing is written; when [relin_keys.load] throws on the third frame
    the run ends on the uncaught exception with the stream just past that
    frame; and two third frames that [relin_keys.load] treats alike give
    the same run. *)
Theorem C7_positional_handshake {L : SEAL} (P PK : bytes)
    (parms : EncryptionParameters) (pk : PublicKey) (w : World) :
  offered parms_load P parms ->
  offered (public_key_load (make_context parms)) PK pk ->
  (forall (tail : bytes) (w' : World),
      inbound w = frames [P; PK] ++ tail ->
      receive_data (set_inbound w tail) = (Val [], w') ->
      run Planning.server_main w = (Returned 1, w') /\
      run Savings.server_main w = (Returned 1, w') /\
      outbound w' = outbound w) /\
  (forall X rest : bytes,
      inbound w = frames [P; PK; X] ++ rest -> sendable X ->
      relin_keys_load (make_context parms) X = None ->
      run Planning.server_main w = (Uncaught, set_inbound w rest) /\
      run Savings.server_main w = (Uncaught, set_inbound w rest)) /\
  (forall X X' rest : bytes,
      inbound w = frames [P; PK; X] ++ rest -> sendable X -> sendable X' ->
      relin_keys_load (make_context parms) X = relin_keys_load (make_context parms) X' ->
      run Planning.server_main w =
        run Planning.server_main (set_inbound w (frames [P; PK; X'] ++ rest)) /\
      run Savings.server_main w =
        run Savings.server_main (set_inbound w (frames [P; PK; X'] ++ rest))).
Proof.
  intros HP HPK. split; [|split].
  - intros tail w' Hin Hfail.
    destruct (handshake_third_failed P PK parms pk HP HPK w w' tail Hin Hfail) as [H1 H2].
    repeat split; try assumption.
    now apply receive_data_keeps in Hfail.
  - intros X rest. now apply (handshake_third_rejected P PK parms pk).
  - intros X X' rest. now apply (handshake_third_blind P PK parms pk).
Qed.

(** C7 (amended) on the sample session when the connection fails after
    the public-key frame. *)
Lemma C7_positional_handshake_witness :
  let w := mkWorld (frames (firstn 2 Sample.objects)) ConnectionError [] None 0 in
  run Planning.server_main w = (Returned 1, set_inbound w []) /\
  run Savings.server_main w = (Returned 1, set_inbound w []) /\
  outbound (set_inbound w []) = outbound w.
Proof.
  intros w.
  refine (proj1 (C7_positional_handshake (L := Reference.library)
                   (Reference.parms_save Sample.parms) (Reference.key_save Byte.x2a)
                   Sample.parms Byte.x2a w _ _) [] (set_inbound w []) _ _).
  - reference_side.
  - reference_side.
  - unfold w. cbn [inbound]. now rewrite app_nil_r.
  - vm_compute. reflexivity.
Defined.

(** C7 as stated fails. A two-input session whose owner leaves out the
    relinearization-keys frame: the compute party's third receive returns
    the encrypted income, a payload input, and the run ends on the
    exception [relin_keys.load] throws on it, not on a rejecting return. *)
Lemma C7_counterexample :
  let w := fresh (frames Sample.objects_without_relin_keys) Silent in
  let after := set_inbound w (frame (Reference.ciphertext_save Sample.savings_expense)) in
  receives [Reference.parms_save Sample.parms; Reference.key_save Byte.x2a;
            Reference.ciphertext_save Sample.savings_income] w after /\
  run (Savings.server_main (L := Reference.library)) w = (Uncaught, after).
Proof.
  cbv zeta. split.
  - cbn -[receive_data].
    repeat match goal with
           | |- _ /\ _ => split
           | |- _ <> _ => discriminate
           | |- exists _, _ => eexists
           | |- _ = _ => vm_compute; reflexivity
           end.
  - vm_compute. reflexivity.
Qed.

(** The same omission in the income/expense/goal session on the reference
    implementation, whose relinearization and Galois keys share one saved
    format: the Galois keys are taken for the relinearization keys and the
    encrypted income is read as Galois keys before the run ends. *)
Lemma goal_session_without_relin_keys :
  let objects :=
    [Reference.parms_save Sample.parms; Reference.key_save Byte.x2a;
     Reference.key_save Byte.x2a;
     Reference.ciphertext_save Sample.income; Reference.plaintext_save Sample.goal;
     Reference.ciphertext_save Sample.essential;
     Reference.ciphertext_save Sample.non_essential] in
  let w := fresh (frames objects) Silent in
  run (Planning.server_main (L := Reference.library)) w =
  (Uncaught, set_inbound w (frames (skipn 4 objects))).
Proof. vm_compute. reflexivity. Qed.

(* ================================================================== *)
(** * Scale exponents and the homomorphic sum *)
(* ================================================================== *)

Lemma toScaled_scalable (d : double) :
  scalable d -> toScaled d SCALE_FACTOR = Some (mkScaled (round (d * SCALE_FACTOR)%Q) 1).
Proof. intros H. unfold toScaled. now rewrite to_int64_in_range. Qed.

(** C8 (amended). The code keeps no scale exponent and checks none. The
    compute party, given the encrypted income, the encoded goal and the two
    encrypted expense totals of four amounts of any exponents, returns 0
    after sending its five results, and its [add] and [sub] results carry in
    every slot the sum and the differences of the four integers (when these
    fit the plain modulus), whatever the exponents. In the owner's program
    every amount that reaches them has been scaled by [SCALE_FACTOR] once:
    the frames it writes hold the four amounts as [toScaled] returns them,
    with exponent 1. *)
Theorem C8_exponent_blind_addition {L : SEAL} (parms : EncryptionParameters)
    (keys : KeyGenerator) (C : Contract parms keys)
    (income goal essential non_essential : ScaledAmount) (ri re rx : Seed)
    (w : World) (rest : bytes) :
  let context := make_context parms in
  let n := slot_count context in
  let read := slots context (secret_key keys) in
  let enc := encrypt_amount context (public_key keys) in
  let i := magnitude income in
  let g := magnitude goal in
  let e := magnitude essential in
  let x := magnitude non_essential in
  let results :=
    Planning.pipeline context (enc ri income) (encode_amount context goal)
                      (enc re essential) (enc rx non_essential) in
  let total := fst (fst results) in
  let net := snd (fst results) in
  let diff := snd results in
  fits context i -> fits context g -> fits context e -> fits context x ->
  fits context (e + x) -> fits context (i - (e + x)) -> fits context (i - (e + x) - g) ->
  inbound w =
    frames [parms_save parms; public_key_save (public_key keys);
            relin_keys_save (relin_keys keys); galois_keys_save (galois_keys keys);
            ciphertext_save (enc ri income); plaintext_save (encode_amount context goal);
            ciphertext_save (enc re essential); ciphertext_save (enc rx non_essential)]
    ++ rest ->
  can_send 10 w ->
  (run Planning.server_main w =
     (Returned 0,
      write (set_inbound w rest)
            (frames [ciphertext_save total; ciphertext_save net; ciphertext_save diff;
                     ciphertext_save (enc re essential);
                     ciphertext_save (enc rx non_essential)]) 10) /\
   read total = repeat (e + x) n /\
   read net = repeat (i - (e + x)) n /\
   read diff = repeat (i - (e + x) - g) n) /\
  (forall (input : Planning.UserInput) (rnd : Planning.Randomness) (owner : World),
      goal_input_scalable input -> send_credit owner = None ->
      exists ai ag ae ax : ScaledAmount,
        toScaled (fold_left Qplus (Planning.income_sources_raw input) (0 # 1)%Q)
                 SCALE_FACTOR = Some ai /\
        toScaled (Planning.monthly_savings_goal_double input) SCALE_FACTOR = Some ag /\
        toScaled (Planning.essential_expenses_sum_plaintext input) SCALE_FACTOR = Some ae /\
        toScaled (Planning.non_essential_expenses_sum_plaintext input) SCALE_FACTOR =
          Some ax /\
        (exponent ai = 1 /\ exponent ag = 1 /\ exponent ae = 1 /\ exponent ax = 1)%nat /\
        outbound (snd (Planning.client_session parms keys input rnd owner)) =
        outbound owner ++
        frames [parms_save parms; public_key_save (public_key keys);
                relin_keys_save (relin_keys keys); galois_keys_save (galois_keys keys);
                ciphertext_save (enc (Planning.seed_income rnd) ai);
                plaintext_save (encode_amount context ag);
                ciphertext_save (enc (Planning.seed_essential rnd) ae);
                ciphertext_save (enc (Planning.seed_non_essential rnd) ax)]).
Proof.
  cbv zeta. intros Fi Fg Fe Fx F1 F2 F3 Hin Hc.
  destruct (encrypted_amount parms keys C ri income Fi) as [Oi Ri].
  destruct (encrypted_amount parms keys C re essential Fe) as [Oe Re].
  destruct (encrypted_amount parms keys C rx non_essential Fx) as [Ox Rx].
  destruct (encoded_amount parms keys C goal Fg) as [Og Rg].
  split.
  - destruct (goal_pipeline_constant parms keys C _ _ _ _ _ _ _ _
                Oi Og Oe Ox Ri Rg Re Rx F1 F2 F3) as (Rt & Rn & Rd).
    split; [|now repeat split].
    assert (Hreq : goal_request (parms_save parms) (public_key_save (public_key keys))
                     (relin_keys_save (relin_keys keys))
                     (galois_keys_save (galois_keys keys))
                     (ciphertext_save (encrypt_amount (make_context parms) (public_key keys)
                                                      ri income))
                     (plaintext_save (encode_amount (make_context parms) goal))
                     (ciphertext_save (encrypt_amount (make_context parms) (public_key keys)
                                                      re essential))
                     (ciphertext_save (encrypt_amount (make_context parms) (public_key keys)
                                                      rx non_essential))
                     parms (public_key keys) (relin_keys keys) (galois_keys keys)
                     (encrypt_amount (make_context parms) (public_key keys) ri income)
                     (encode_amount (make_context parms) goal)
                     (encrypt_amount (make_context parms) (public_key keys) re essential)
                     (encrypt_amount (make_context parms) (public_key keys) rx
                                     non_essential)).
    { unfold goal_request, offered. cbv zeta.
      pose proof (parms_save_sendable _ _ C). pose proof (parms_save_load _ _ C).
      pose proof (public_key_save_sendable _ _ C). pose proof (public_key_save_load _ _ C).
      pose proof (relin_keys_save_sendable _ _ C). pose proof (relin_keys_save_load _ _ C).
      pose proof (galois_keys_save_sendable _ _ C).
      pose proof (galois_keys_save_load _ _ C).
      pose proof (offered_ciphertext parms keys C _ Oi).
      pose proof (offered_ciphertext parms keys C _ Oe).
      pose proof (offered_ciphertext parms keys C _ Ox).
      pose proof (offered_plaintext parms keys C _ Og).
      unfold offered, sendable in *. tauto. }
    unfold run.
    rewrite (goal_server_receives _ _ _ _ _ _ _ _ _ _ _ _ _ _ _ _ _ _ Hreq Hin).
    rewrite goal_respond_send_all. unfold bind.
    rewrite send_all_whole by exact Hc. reflexivity.
  - intros input rnd owner Hs Ho.
    pose proof Hs as (Hi & He & Hn & Hg).
    eexists _, _, _, _.
    split; [apply (toScaled_scalable _ Hi)|].
    split; [apply (toScaled_scalable _ Hg)|].
    split; [apply (toScaled_scalable _ He)|].
    split; [apply (toScaled_scalable _ Hn)|].
    split; [now repeat split|].
    now rewrite (goal_client_written parms keys input rnd owner Hs Ho).
Qed.

(** C8 (amended) on the reference implementation: the expense totals are
    an exponent-1 amount (100) and an exponent-2 amount (10000); the run
    returns 0 and the total it sends carries 10100. *)
Lemma C8_exponent_blind_addition_witness :
  let a := mkScaled 100 1 in
  let b := mkScaled 10000 2 in
  let enc := encrypt_amount Sample.parms Byte.x2a in
  let request :=
    frames [Reference.parms_save Sample.parms; Reference.key_save Byte.x2a;
            Reference.key_save Byte.x2a; Reference.key_save Byte.x2a;
            Reference.ciphertext_save Sample.income; Reference.plaintext_save Sample.goal;
            Reference.ciphertext_save (enc Byte.x02 a);
            Reference.ciphertext_save (enc Byte.x03 b)] in
  let total :=
    fst (fst (Planning.pipeline Sample.parms Sample.income Sample.goal
                                (enc Byte.x02 a) (enc Byte.x03 b))) in
  fst (run Planning.server_main (fresh request Silent)) = Returned 0 /\
  slots Sample.parms Byte.x2a total = repeat 10100 4.
Proof.
  intros a b enc request total.
  destruct (C8_exponent_blind_addition (L := Reference.library) Sample.parms Reference.keys
              reference_contract (mkScaled 150075 1) (mkScaled 50000 1) a b
              Byte.x01 Byte.x02 Byte.x03 (fresh request Silent) [])
    as ((Hrun & Ht & _) & _).
  1-7: unfold fits; reflexivity.
  - cbn [fresh inbound]. now rewrite app_nil_r.
  - exact I.
  - split; [now rewrite Hrun | exact Ht].
Defined.

(** C8 as stated fails. An exponent-1 amount (100, $1.00) and an
    exponent-2 amount (10000) are added without any error: the sum
    ciphertext carries 10100 in every slot, and the compute party run on a
    request holding the two returns 0. *)
Lemma C8_counterexample :
  let a := mkScaled 100 1 in
  let b := mkScaled 10000 2 in
  let enc := encrypt_amount Sample.parms Byte.x2a in
  let request :=
    frames [Reference.parms_save Sample.parms; Reference.key_save Byte.x2a;
            Reference.key_save Byte.x2a; Reference.key_save Byte.x2a;
            Reference.ciphertext_save Sample.income; Reference.plaintext_save Sample.goal;
            Reference.ciphertext_save (enc Byte.x02 a);
            Reference.ciphertext_save (enc Byte.x03 b)] in
  exponent a <> exponent b /\
  slots Sample.parms Byte.x2a (evaluator_add Sample.parms (enc Byte.x02 a) (enc Byte.x03 b)) =
    repeat 10100 4 /\
  fst (run (Planning.server_main (L := Reference.library)) (fresh request Silent)) = Returned 0 /\
  firstn 27 (outbound (snd (run (Planning.server_main (L := Reference.library))
                                (fresh request Silent)))) =
    frame (Reference.ciphertext_save
             (evaluator_add Sample.parms (enc Byte.x02 a) (enc Byte.x03 b))).
Proof.
  cbv zeta. split; [discriminate|]. repeat split; vm_compute; reflexivity.
Qed.

(* ================================================================== *)
(** * Frames on a stream *)
(* ================================================================== *)

Lemma frame_split (x y a b : bytes) :
  framable x -> framable y -> frame x ++ a = frame y ++ b -> x = y /\ a = b.
Proof.
  intros Hx Hy H. unfold frame in H. rewrite <- !app_assoc in H.
  assert (Hh : le_split sizeof_size_t (Z.of_nat (length x)) =
               le_split sizeof_size_t (Z.of_nat (length y))).
  { apply (f_equal (firstn sizeof_size_t)) in H.
    now rewrite !firstn_app_exact in H by apply length_le_split. }
  assert (Hl : length x = length y).
  { apply (f_equal le_combine) in Hh.
    unfold framable in *. rewrite !header_value in Hh by lia. lia. }
  rewrite Hh in H. apply app_inv_head in H.
  split.
  - apply (f_equal (firstn (length x))) in H.
    rewrite firstn_app_exact in H by reflexivity.
    rewrite Hl in H. now rewrite firstn_app_exact in H by reflexivity.
  - apply (f_equal (skipn (length x))) in H.
    rewrite skipn_app_exact in H by reflexivity.
    rewrite Hl in H. now rewrite skipn_app_exact in H by reflexivity.
Qed.

(** Frames are self-delimiting. A stream of frames written back to back,
    whatever follows it, is read back by successive [receive_data] calls as
    the strings that were framed, in order, leaving what follows unread;
    and two lists of strings that frame to the same bytes are the same
    list. *)
Theorem frames_self_delimiting (xs : list bytes) :
  Forall framable xs ->
  (forall (w : World) (rest : bytes),
      Forall (fun x => x <> []) xs ->
      inbound w = frames xs ++ rest -> receives xs w (set_inbound w rest)) /\
  (forall ys, Forall framable ys -> frames xs = frames ys -> xs = ys).
Proof.
  intros Hxs. split.
  - induction Hxs as [|x xs Hx _ IH]; intros w rest Hne Hin.
    + cbn in *. destruct w; cbn in *; now subst.
    + inversion Hne as [|? ? Hx0 Hne']; subst.
      rewrite frames_cons in Hin. cbn [receives]. split; [exact Hx0|].
      exists (set_inbound w (frames xs ++ rest)). split.
      * now apply receive_data_frame.
      * apply (IH (set_inbound w (frames xs ++ rest)) rest Hne' eq_refl).
  - induction Hxs as [|x xs Hx _ IH]; intros ys Hys E.
    + destruct ys as [|y ys]; [reflexivity|].
      apply (f_equal (@length byte)) in E.
      rewrite frames_step, length_app, length_frame in E. cbn in E. lia.
    + destruct Hys as [|y ys Hy Hys'].
      * apply (f_equal (@length byte)) in E.
        rewrite frames_step, length_app, length_frame in E. cbn in E. lia.
      * rewrite !frames_step in E.
        destruct (frame_split x y _ _ Hx Hy E) as [-> E'].
        f_equal. now apply IH.
Qed.

(** Two strings framed back to back, followed by one stray byte. *)
Lemma frames_self_delimiting_witness :
  let xs := [[Byte.x61]; [Byte.x62; Byte.x63]] in
  let w := fresh (frames xs ++ [Byte.x7a]) Silent in
  receives xs w (set_inbound w [Byte.x7a]).
Proof.
  intros xs w.
  refine (proj1 (frames_self_delimiting xs _) w [Byte.x7a] _ _).
  - repeat constructor; vm_compute; discriminate.
  - repeat constructor; discriminate.
  - reflexivity.
Defined.

(* ================================================================== *)
(** * Signs through the codec, in the arithmetic of the machine *)
(* ================================================================== *)

Local Open Scope Q_scope.

Lemma round_comp (x y : Q) : x == y -> round x = round y.
Proof.
  intros E. unfold round.
  assert (Hb : Qle_bool 0 x = Qle_bool 0 y).
  { destruct (Qle_bool 0 x) eqn:Ex, (Qle_bool 0 y) eqn:Ey; try reflexivity.
    - apply Qle_bool_iff in Ex. rewrite E in Ex. apply Qle_bool_iff in Ex. congruence.
    - apply Qle_bool_iff in Ey. rewrite <- E in Ey. apply Qle_bool_iff in Ey. congruence. }
  rewrite Hb. destruct (Qle_bool 0 y).
  - apply Qfloor_comp. now rewrite E.
  - apply Qceiling_comp. now rewrite E.
Qed.

Lemma round_opp (x : Q) : round (- x) = (- round x)%Z.
Proof.
  unfold round.
  destruct (Qle_bool 0 x) eqn:Ex, (Qle_bool 0 (- x)) eqn:En.
  - apply Qle_bool_iff in Ex, En.
    assert (E0 : x == 0) by lra.
    rewrite (Qfloor_comp (- x + (1 # 2)) (1 # 2)) by lra.
    rewrite (Qfloor_comp (x + (1 # 2)) (1 # 2)) by lra.
    reflexivity.
  - unfold Qceiling. f_equal. apply Qfloor_comp. ring.
  - unfold Qceiling. rewrite Z.opp_involutive. apply Qfloor_comp. ring.
  - exfalso.
    assert (H1 : ~ 0 <= x) by (intros H; apply Qle_bool_iff in H; congruence).
    assert (H2 : ~ 0 <= - x) by (intros H; apply Qle_bool_iff in H; congruence).
    destruct (Qlt_le_dec x 0); [apply H2 | apply H1]; lra.
Qed.

Lemma round_nonneg (x : Q) : 0 <= x -> (0 <= round x)%Z.
Proof.
  intros Hx. destruct (round_bounds x) as [Hpos _]. destruct (Hpos Hx) as [H1 _].
  assert (H : inject_Z (-1) < inject_Z (round x)).
  { change (inject_Z (-1)) with (- (1)). lra. }
  rewrite <- Zlt_Qlt in H. lia.
Qed.

Lemma round_nonpos (x : Q) : x <= 0 -> (round x <= 0)%Z.
Proof.
  intros Hx.
  assert (H : (0 <= round (- x)%Q)%Z) by (apply round_nonneg; lra).
  rewrite round_opp in H. lia.
Qed.

Lemma value_finite_sign (m : positive) (e : Z) :
  (forall v, Binary64.value (S754_finite false m e) = Some v -> 0 < v) /\
  (forall v, Binary64.value (S754_finite true m e) = Some v -> v < 0).
Proof.
  assert (Hpow : (0 < 2 ^ e)%Z \/ (e < 0)%Z).
  { destruct (Z.lt_ge_cases e 0); [now right | left].
    now apply Z.pow_pos_nonneg. }
  split; intros v H.
  - assert (E : v = match e with
                    | Z.neg p => Qred (Z.pos m # 2 ^ p)
                    | _ => inject_Z (Z.pos m * 2 ^ e)
                    end) by (unfold Binary64.value in H; congruence).
    subst v. clear H. destruct e as [|p|p].
    + reflexivity.
    + change 0 with (inject_Z 0). rewrite <- Zlt_Qlt.
      destruct Hpow as [Hpow | Hpow]; [|lia]. apply Z.mul_pos_pos; lia.
    + rewrite Qred_correct. reflexivity.
  - assert (E : v = match e with
                    | Z.neg p => Qred (Z.neg m # 2 ^ p)
                    | _ => inject_Z (Z.neg m * 2 ^ e)
                    end) by (unfold Binary64.value in H; congruence).
    subst v. clear H. destruct e as [|p|p].
    + reflexivity.
    + change 0 with (inject_Z 0). rewrite <- Zlt_Qlt.
      destruct Hpow as [Hpow | Hpow]; [|lia]. apply Z.mul_neg_pos; lia.
    + rewrite Qred_correct. reflexivity.
Qed.

Lemma value_sign (x : Binary64.binary64) (v : Q) :
  Binary64.value x = Some v ->
  (Binary64.sign_bit x = false -> 0 <= v) /\ (Binary64.sign_bit x = true -> v <= 0) /\
  (0 < v -> Binary64.sign_bit x = false) /\ (v < 0 -> Binary64.sign_bit x = true).
Proof.
  destruct x as [s | s | | s m e]; try discriminate.
  - cbn. intros H. inversion H. repeat split; intros; lra.
  - intros H. destruct (value_finite_sign m e) as [Hp Hn].
    destruct s; cbn [Binary64.sign_bit].
    + apply Hn in H. repeat split; intros; try lra; congruence.
    + apply Hp in H. repeat split; intros; try lra; congruence.
Qed.

(** Rounding to the format keeps the sign it is given. *)
Lemma binary_round_aux_opp (sx : bool) (m e : Z) (l : location) :
  binary_round_aux Binary64.prec Binary64.emax (negb sx) m e l =
  SFopp (binary_round_aux Binary64.prec Binary64.emax sx m e l).
Proof.
  unfold binary_round_aux.
  destruct (shr_fexp Binary64.prec Binary64.emax m e l) as [mrs e'].
  destruct (shr_fexp Binary64.prec Binary64.emax _ e' loc_Exact) as [mrs' e''].
  destruct (shr_m mrs'); [reflexivity | | reflexivity].
  now destruct (e'' <=? Binary64.emax - Binary64.prec)%Z.
Qed.

Lemma binary_round_aux_sign (sx : bool) (m e : Z) (l : location) (v : Q) :
  Binary64.value (binary_round_aux Binary64.prec Binary64.emax sx m e l) = Some v ->
  Binary64.sign_bit (binary_round_aux Binary64.prec Binary64.emax sx m e l) = sx.
Proof.
  unfold binary_round_aux.
  destruct (shr_fexp Binary64.prec Binary64.emax m e l) as [mrs e'].
  destruct (shr_fexp Binary64.prec Binary64.emax _ e' loc_Exact) as [mrs' e''].
  destruct (shr_m mrs'); [reflexivity | | discriminate].
  now destruct (e'' <=? Binary64.emax - Binary64.prec)%Z.
Qed.

Lemma mul_sign (d s : Binary64.binary64) (p : Q) :
  Binary64.value (Binary64.mul d s) = Some p ->
  Binary64.sign_bit (Binary64.mul d s) =
  xorb (Binary64.sign_bit d) (Binary64.sign_bit s).
Proof.
  unfold Binary64.mul.
  destruct d as [sd | sd | | sd md ed], s as [ss | ss | | ss ms es];
    cbn [SFmul Binary64.sign_bit]; try discriminate; try reflexivity.
  apply binary_round_aux_sign.
Qed.

Lemma mul_opp (d s : Binary64.binary64) :
  Binary64.mul (Binary64.opp d) s = SFopp (Binary64.mul d s).
Proof.
  unfold Binary64.mul, Binary64.opp.
  destruct d as [sd | sd | | sd md ed], s as [ss | ss | | ss ms es];
    cbn [SFmul SFopp]; try reflexivity;
    try (now destruct sd, ss).
  rewrite <- binary_round_aux_opp. now destruct sd, ss.
Qed.

Lemma value_opp (x : Binary64.binary64) (v' : Q) :
  Binary64.value (SFopp x) = Some v' ->
  exists v, Binary64.value x = Some v /\ v' == - v.
Proof.
  destruct x as [s | s | | s m e]; try discriminate.
  - intros H. exists 0. split; [reflexivity|].
    assert (E : v' = 0) by (cbn in H; congruence). now rewrite E.
  - intros H. eexists. split; [reflexivity|].
    assert (E : v' = match e with
                     | Z.neg p => Qred ((if negb s then Z.neg m else Z.pos m) # 2 ^ p)
                     | _ => inject_Z ((if negb s then Z.neg m else Z.pos m) * 2 ^ e)
                     end)
      by (unfold SFopp, Binary64.value in H; congruence).
    subst v'. clear H.
    destruct s, e as [|p|p]; cbn [negb]; rewrite ?Qred_correct;
      try reflexivity;
      try (rewrite <- inject_Z_opp; apply inject_Z_injective; lia).
Qed.

(** Signs through [toScaled] in the arithmetic of the machine. For a
    positive scale factor, whenever the conversion to a 64-bit integer is
    defined, an amount that is not negative never scales to a negative
    integer, nor one that is not positive to a positive integer; and when
    the opposite amount scales too, it scales to the opposite integer. *)
Theorem scaling_keeps_sign (d s : Binary64.binary64) (dv sv : Q) (a : ScaledAmount) :
  Binary64.value d = Some dv -> Binary64.value s = Some sv -> 0 < sv ->
  Binary64.toScaled d s = Some a ->
  (0 <= dv -> (0 <= magnitude a)%Z) /\
  (dv <= 0 -> (magnitude a <= 0)%Z) /\
  (forall a', Binary64.toScaled (Binary64.opp d) s = Some a' ->
              magnitude a' = (- magnitude a)%Z).
Proof.
  intros Hd Hs Hsv Ha.
  destruct (proj1 (toScaled_defined d s a) Ha) as (p & Hp & _ & ->). cbn [magnitude].
  pose proof (mul_sign d s p Hp) as Hsign.
  destruct (value_sign _ _ Hs) as (_ & _ & Hs1 & _).
  rewrite (Hs1 Hsv), xorb_false_r in Hsign.
  destruct (value_sign _ _ Hp) as (Hp1 & Hp2 & _ & _).
  destruct (value_sign _ _ Hd) as (_ & _ & Hd3 & Hd4).
  split; [|split].
  - intros H. apply round_nonneg.
    destruct (Qlt_le_dec 0 dv) as [Hpos | Hzero].
    + apply Hp1. now rewrite Hsign, Hd3.
    + assert (E : dv == 0) by lra.
      destruct d as [sd | sd | | sd md ed]; try discriminate.
      * unfold Binary64.mul in Hp.
        destruct s as [ss | ss | | ss ms es]; try discriminate;
          cbn in Hp; inversion Hp; lra.
      * destruct (value_finite_sign md ed) as [Hf1 Hf2].
        destruct sd; [apply Hf2 in Hd | apply Hf1 in Hd]; lra.
  - intros H. apply round_nonpos.
    destruct (Qlt_le_dec dv 0) as [Hneg | Hzero].
    + apply Hp2. now rewrite Hsign, Hd4.
    + assert (E : dv == 0) by lra.
      destruct d as [sd | sd | | sd md ed]; try discriminate.
      * unfold Binary64.mul in Hp.
        destruct s as [ss | ss | | ss ms es]; try discriminate;
          cbn in Hp; inversion Hp; lra.
      * destruct (value_finite_sign md ed) as [Hf1 Hf2].
        destruct sd; [apply Hf2 in Hd | apply Hf1 in Hd]; lra.
  - intros a' Ha'.
    destruct (proj1 (toScaled_defined (Binary64.opp d) s a') Ha') as (p' & Hp' & _ & ->).
    cbn [magnitude].
    rewrite mul_opp in Hp'. apply value_opp in Hp'.
    destruct Hp' as (q & Hq & E). rewrite Hp in Hq. inversion Hq; subst q.
    rewrite (round_comp _ _ E). apply round_opp.
Qed.

(** At $450.50 and the scale factor of the code. *)
Lemma scaling_keeps_sign_witness :
  let d := Binary64.decimal 45050 100 in
  let s := Binary64.SCALE_FACTOR in
  Binary64.toScaled d s = Some (mkScaled 45050 1) /\
  (0 <= magnitude (mkScaled 45050 1))%Z /\
  (forall a', Binary64.toScaled (Binary64.opp d) s = Some a' ->
              magnitude a' = (- 45050)%Z).
Proof.
  intros d s.
  assert (Ha : Binary64.toScaled d s = Some (mkScaled 45050 1))
    by (vm_compute; reflexivity).
  destruct (scaling_keeps_sign d s (901 # 2) (100 # 1) (mkScaled 45050 1))
    as (Hpos & _ & Hopp).
  - vm_compute. reflexivity.
  - vm_compute. reflexivity.
  - reflexivity.
  - exact Ha.
  - split; [exact Ha|]. split; [apply Hpos; discriminate | exact Hopp].
Defined.

Local Close Scope Q_scope.

(* ================================================================== *)
(** * What the compute party's results depend on *)
(* ================================================================== *)

(** The compute party of the income/expense/goal session loads the public
    key, the relinearization keys and the Galois keys and never uses them:
    with any other three key frames that load, the run ends the same way
    and the same bytes go back to the owner. *)
Theorem goal_results_ignore_keys {L : SEAL}
    (P PK RLK GLK PK' RLK' GLK' INC GOAL ESS NON : bytes)
    (parms : EncryptionParameters)
    (pk pk' : PublicKey) (rlk rlk' : RelinKeys) (glk glk' : GaloisKeys)
    (inc : Ciphertext) (goal : Plaintext) (ess non : Ciphertext)
    (w : World) (rest : bytes) :
  goal_request P PK RLK GLK INC GOAL ESS NON parms pk rlk glk inc goal ess non ->
  goal_request P PK' RLK' GLK' INC GOAL ESS NON parms pk' rlk' glk' inc goal ess non ->
  inbound w = frames [P; PK; RLK; GLK; INC; GOAL; ESS; NON] ++ rest ->
  run Planning.server_main
      (set_inbound w (frames [P; PK'; RLK'; GLK'; INC; GOAL; ESS; NON] ++ rest)) =
  run Planning.server_main w.
Proof.
  intros H H' Hin. unfold run.
  rewrite (goal_server_receives _ _ _ _ _ _ _ _ _ _ _ _ _ _ _ _ _ _ H Hin).
  rewrite (goal_server_receives _ _ _ _ _ _ _ _ _ _ _ _ _ _ _ _
             (set_inbound w (frames [P; PK'; RLK'; GLK'; INC; GOAL; ESS; NON] ++ rest))
             rest H' eq_refl).
  reflexivity.
Qed.

(** Two other key frames in the sample request. *)
Lemma goal_results_ignore_keys_witness :
  let other := Reference.key_save Byte.x07 in
  let w := Sample.server_world None in
  run Planning.server_main
      (set_inbound w
         (frames [Reference.parms_save Sample.parms; other; other; other;
                  Reference.ciphertext_save Sample.income;
                  Reference.plaintext_save Sample.goal;
                  Reference.ciphertext_save Sample.essential;
                  Reference.ciphertext_save Sample.non_essential] ++ [])) =
  run Planning.server_main w.
Proof.
  intros other w.
  refine (goal_results_ignore_keys (L := Reference.library)
            (Reference.parms_save Sample.parms) (Reference.key_save Byte.x2a)
            (Reference.key_save Byte.x2a) (Reference.key_save Byte.x2a)
            other other other
            (Reference.ciphertext_save Sample.income) (Reference.plaintext_save Sample.goal)
            (Reference.ciphertext_save Sample.essential)
            (Reference.ciphertext_save Sample.non_essential)
            Sample.parms Byte.x2a Byte.x07 Byte.x2a Byte.x07 Byte.x2a Byte.x07
            Sample.income Sample.goal Sample.essential Sample.non_essential
            w [] _ _ _).
  - reference_side.
  - reference_side.
  - unfold w, Sample.server_world, Sample.objects. cbn [inbound]. now rewrite app_nil_r.
Defined.

(* ================================================================== *)
(** * What the owner is told at the end of a session *)
(* ================================================================== *)





(* ================================================================== *)
(** * The two-input owner: what is encoded, sent and read back *)
(* ================================================================== *)








Lemma emits_scale_all (v : list double) :
  emits (Savings.scale_all v) (map (fun d => round (d * SCALE_FACTOR)%Q) v) [].
Proof.
  induction v as [|d v IH]; intros w.
  - exists [], w. split; [now rewrite app_nil_r|]. left. now split.
  - cbn [Savings.scale_all map].
    destruct (emits_scale d w) as (p & w1 & Hout & [[Hval ->] | [[s Hstop] Hp]]).
    + rewrite (bind_val _ _ _ _ _ Hval).
      destruct (IH w1) as (q & w2 & Hout2 & [[Hval2 ->] | [[s Hstop2] Hq]]).
      * rewrite (bind_val _ _ _ _ _ Hval2). exists [], w2. split.
        -- rewrite Hout2, Hout. now rewrite !app_nil_r.
        -- left. now split.
      * rewrite (bind_stop _ _ _ _ _ Hstop2). exists q, w2. split.
        -- rewrite Hout2, Hout. now rewrite app_nil_r.
        -- right. split; [now eexists | exact Hq].
    + rewrite (bind_stop _ _ _ _ _ Hstop). exists p, w1. split; [exact Hout|].
      right. split; [now eexists | exact Hp].
Qed.

Lemma emits_scaled_data (n : nat) (v : list double) :
  emits (Savings.scaled_data n v) (scaled_vector n v) [].
Proof.
  intros w. unfold Savings.scaled_data.
  destruct (emits_scale_all v w) as (p & w1 & Hout & [[Hval ->] | [[s Hstop] Hp]]).
  - rewrite (bind_val _ _ _ _ _ Hval). exists [], w1. split; [exact Hout|].
    left. now split.
  - rewrite (bind_stop _ _ _ _ _ Hstop). exists p, w1. split; [exact Hout|].
    right. split; [now eexists | exact Hp].
Qed.

Lemma writes_prefix_scaled_data {B} (n : nat) (v : list double)
    (k : list Z -> M B) (l : bytes) :
  writes_prefix (k (scaled_vector n v)) l ->
  writes_prefix (bind (Savings.scaled_data n v) k) l.
Proof. apply (writes_prefix_bind _ _ _ [] l), emits_scaled_data. Qed.

Lemma prepared_swap {L : SEAL} (n : nat) (income expense : list double) :
  (if (n <? Nat.max
             (length (if (length income =? 0)%nat then [(0 # 1)%Q] else income))
             (length (if (length expense =? 0)%nat then [(0 # 1)%Q] else expense)))%nat
   then Savings.resize n (if (length expense =? 0)%nat then [(0 # 1)%Q] else expense)
   else (if (length expense =? 0)%nat then [(0 # 1)%Q] else expense)) =
  prepared n expense income.
Proof. unfold prepared. now rewrite Nat.max_comm. Qed.

(** In every run of the two-input owner's program, whatever the
    connection does, the bytes written are a prefix of the five frames
    holding the saved parameters, public key, relinearization keys,
    encrypted income and encrypted expenses. The secret key is no input of
    them: with any other secret key the same bytes are written. *)
Theorem savings_owner_writes {L : SEAL} (parms : EncryptionParameters)
    (keys : KeyGenerator) (input : Savings.UserInput) (rnd : Savings.Randomness)
    (w : World) :
  (exists sent,
     outbound (snd (Savings.client_session parms keys input rnd w)) = outbound w ++ sent /\
     is_prefix sent (frames (savings_client_objects parms keys input rnd))) /\
  (forall sk',
     outbound (snd (Savings.client_session parms (with_secret_key keys sk') input rnd w)) =
     outbound (snd (Savings.client_session parms keys input rnd w))) /\
  (forall sk',
     savings_client_objects parms (with_secret_key keys sk') input rnd =
     savings_client_objects parms keys input rnd).
Proof.
  split; [|split].
  - revert w. change (writes_prefix (Savings.client_session parms keys input rnd)
                        (frames (savings_client_objects parms keys input rnd))).
    unfold Savings.client_session, savings_client_objects, frames.
    cbv zeta. cbn [map concat].
    rewrite prepared_swap.
    fold (prepared (slot_count (make_context parms)) (Savings.income_double_data input)
                   (Savings.expense_double_data input)).
    repeat first [apply writes_prefix_send | apply writes_prefix_scaled_data].
    apply writes_prefix_silent. silence.
  - intros sk'. revert w.
    change (same_wire (Savings.client_session parms (with_secret_key keys sk') input rnd)
                      (Savings.client_session parms keys input rnd)).
    unfold Savings.client_session. cbv zeta.
    cbn [with_secret_key public_key relin_keys secret_key].
    repeat (apply same_wire_bind; intros ?).
    apply same_wire_silent; silence.
  - intros sk'. reflexivity.
Qed.

Section SavingsSession.
Context {L : SEAL}.
Variables (parms : EncryptionParameters) (keys : KeyGenerator).
Variable C : Contract parms keys.
Variables (input : Savings.UserInput) (rnd : Savings.Randomness).

Local Abbreviation context := (make_context parms).
Local Abbreviation n := (slot_count (make_context parms)).
Local Abbreviation read := (slots (make_context parms) (secret_key keys)).
Local Abbreviation income :=
  (prepared (slot_count (make_context parms))
            (Savings.income_double_data input) (Savings.expense_double_data input)).
Local Abbreviation expense :=
  (prepared (slot_count (make_context parms))
            (Savings.expense_double_data input) (Savings.income_double_data input)).






End SavingsSession.





(* ================================================================== *)
(** * The compute parties off the happy path *)
(* ================================================================== *)

(** A receive of [main] either hands on an object loaded from a non-empty
    string, or ends the run without anything having been written. *)
Lemma receive_object_cases {A} (load : bytes -> option A) (w : World) :
  (exists x a w1,
      x <> [] /\ receive_data w = (Val x, w1) /\ load x = Some a /\
      receive_object load w = (Val a, w1)) \/
  (exists s w1, receive_object load w = (Stop s, w1) /\ outbound w1 = outbound w).
Proof.
  unfold receive_object, bind.
  destruct (receive_data w) as [[x|s] w1] eqn:E.
  - pose proof (receive_data_keeps _ _ _ E) as [Hout _].
    destruct x as [|b x].
    + right. now exists (Returned 1), w1.
    + cbn [empty]. destruct (load (b :: x)) as [a|] eqn:El.
      * left. exists (b :: x), a, w1. repeat split; try assumption. discriminate.
      * right. now exists Uncaught, w1.
  - pose proof (receive_data_keeps _ _ _ E) as [Hout _].
    right. now exists s, w1.
Qed.

(** One receive of a [main] that goes on to write something. *)
Lemma receive_then_writes {A} (load : bytes -> option A) (k : A -> M Z) (w : World) :
  outbound (snd (bind (receive_object load) k w)) <> outbound w ->
  exists x a w1,
    x <> [] /\ receive_data w = (Val x, w1) /\ load x = Some a /\
    bind (receive_object load) k w = k a w1 /\
    outbound (snd (k a w1)) <> outbound w1.
Proof.
  intros Hw.
  destruct (receive_object_cases load w)
    as [(x & a & w1 & Hne & Hr & Hl & Ho) | (s & w1 & Ho & Hout)].
  - exists x, a, w1. rewrite (bind_val _ _ _ _ _ Ho) in *.
    pose proof (receive_data_keeps _ _ _ Hr) as [Hout _].
    repeat split; try assumption. now rewrite Hout.
  - rewrite (bind_stop _ _ _ _ _ Ho) in Hw. cbn [snd] in Hw. congruence.
Qed.

(** Neither compute party writes a byte before all of its inputs are in.
    Whatever the connection delivers, if a run of the two-input compute
    party has written anything, then its five receives each returned a
    non-empty string, the five strings loaded as parameters, public key,
    relinearization keys and two ciphertexts, and what was written is what
    the evaluation of these two ciphertexts sends; likewise for the eight
    receives of the income/expense/goal compute party. *)
Theorem nothing_sent_before_inputs {L : SEAL} (w : World) :
  (outbound (snd (Savings.server_main w)) <> outbound w ->
   exists P PK RLK INC EXP parms pk rlk inc exp w',
     receives [P; PK; RLK; INC; EXP] w w' /\
     parms_load P = Some parms /\
     public_key_load (make_context parms) PK = Some pk /\
     relin_keys_load (make_context parms) RLK = Some rlk /\
     ciphertext_load (make_context parms) INC = Some inc /\
     ciphertext_load (make_context parms) EXP = Some exp /\
     Savings.server_main w = Savings.respond (make_context parms) rlk inc exp w') /\
  (outbound (snd (Planning.server_main w)) <> outbound w ->
   exists P PK RLK GLK INC GOAL ESS NON parms pk rlk glk inc goal ess non w',
     receives [P; PK; RLK; GLK; INC; GOAL; ESS; NON] w w' /\
     parms_load P = Some parms /\
     public_key_load (make_context parms) PK = Some pk /\
     relin_keys_load (make_context parms) RLK = Some rlk /\
     galois_keys_load (make_context parms) GLK = Some glk /\
     ciphertext_load (make_context parms) INC = Some inc /\
     plaintext_load (make_context parms) GOAL = Some goal /\
     ciphertext_load (make_context parms) ESS = Some ess /\
     ciphertext_load (make_context parms) NON = Some non /\
     Planning.server_main w =
       Planning.respond (make_context parms) inc goal ess non w').
Proof.
  split.
  - unfold Savings.server_main. intros H0.
    apply receive_then_writes in H0.
    destruct H0 as (P & parms & w1 & N1 & R1 & L1 & E1 & H1).
    cbv zeta in H1. apply receive_then_writes in H1.
    destruct H1 as (PK & pk & w2 & N2 & R2 & L2 & E2 & H2).
    apply receive_then_writes in H2.
    destruct H2 as (RLK & rlk & w3 & N3 & R3 & L3 & E3 & H3).
    apply receive_then_writes in H3.
    destruct H3 as (INC & inc & w4 & N4 & R4 & L4 & E4 & H4).
    apply receive_then_writes in H4.
    destruct H4 as (EXP & exp & w5 & N5 & R5 & L5 & E5 & H5).
    exists P, PK, RLK, INC, EXP, parms, pk, rlk, inc, exp, w5.
    split; [|repeat split; try assumption].
    + cbn [receives]. repeat (split; [assumption|]; eexists; split; [eassumption|]).
      reflexivity.
    + rewrite E1. cbv zeta. rewrite E2, E3, E4, E5. reflexivity.
  - unfold Planning.server_main. intros H0.
    apply receive_then_writes in H0.
    destruct H0 as (P & parms & w1 & N1 & R1 & L1 & E1 & H1).
    cbv zeta in H1. apply receive_then_writes in H1.
    destruct H1 as (PK & pk & w2 & N2 & R2 & L2 & E2 & H2).
    apply receive_then_writes in H2.
    destruct H2 as (RLK & rlk & w3 & N3 & R3 & L3 & E3 & H3).
    apply receive_then_writes in H3.
    destruct H3 as (GLK & glk & w4 & N4 & R4 & L4 & E4 & H4).
    apply receive_then_writes in H4.
    destruct H4 as (INC & inc & w5 & N5 & R5 & L5 & E5 & H5).
    apply receive_then_writes in H5.
    destruct H5 as (GOAL & goal & w6 & N6 & R6 & L6 & E6 & H6).
    apply receive_then_writes in H6.
    destruct H6 as (ESS & ess & w7 & N7 & R7 & L7 & E7 & H7).
    apply receive_then_writes in H7.
    destruct H7 as (NON & non & w8 & N8 & R8 & L8 & E8 & H8).
    exists P, PK, RLK, GLK, INC, GOAL, ESS, NON, parms, pk, rlk, glk, inc, goal, ess, non, w8.
    split; [|repeat split; try assumption].
    + cbn [receives]. repeat (split; [assumption|]; eexists; split; [eassumption|]).
      reflexivity.
    + rewrite E1. cbv zeta. rewrite E2, E3, E4, E5, E6, E7, E8. reflexivity.
Qed.

(** The sample request delivered whole: the compute party has written, so
    all eight inputs were received and loaded. *)
Lemma nothing_sent_before_inputs_witness :
  exists P PK RLK GLK INC GOAL ESS NON w',
    receives [P; PK; RLK; GLK; INC; GOAL; ESS; NON] (Sample.server_world None) w' /\
    Reference.ciphertext_load Sample.parms ESS = Some Sample.essential.
Proof.
  destruct (proj2 (nothing_sent_before_inputs (L := Reference.library)
                     (Sample.server_world None)))
    as (P & PK & RLK & GLK & INC & GOAL & ESS & NON & parms & pk & rlk & glk &
        inc & goal & ess & non & w' & Hrec & _ & _ & _ & _ & _ & _ & Hess & _).
  - vm_compute. discriminate.
  - exists P, PK, RLK, GLK, INC, GOAL, ESS, NON, w'. split; [exact Hrec|].
    revert Hrec Hess. cbn [receives].
    intros (_ & w1 & H1 & _ & w2 & H2 & _ & w3 & H3 & _ & w4 & H4 & _ & w5 & H5 &
            _ & w6 & H6 & _ & w7 & H7 & _ & w8 & H8 & _).
    vm_compute in H1. injection H1 as <- <-.
    vm_compute in H2. injection H2 as <- <-.
    vm_compute in H3. injection H3 as <- <-.
    vm_compute in H4. injection H4 as <- <-.
    vm_compute in H5. injection H5 as <- <-.
    vm_compute in H6. injection H6 as <- <-.
    vm_compute in H7. injection H7 as <- <-.
    intros _. vm_compute. reflexivity.
Defined.

Lemma savings_respond_send_all {L : SEAL} (context : SEALContext) (rlk : RelinKeys)
    (inc exp : Ciphertext) (w : World) :
  Savings.respond context rlk inc exp w =
  (_ <- send_all (savings_results context rlk inc exp) ;; ret 0) w.
Proof.
  unfold Savings.respond, savings_results, savings_contribution.
  rewrite (bind_val _ _ _ _ _ (savings_rate_scaled w)).
  cbn [send_all]. unfold bind.
  repeat match goal with
         | |- context [send_object ?x ?v] =>
             destruct (send_object x v) as [[[]|?] ?]; [|reflexivity]
         end.
  reflexivity.
Qed.

(** The two results of the two-input compute party and its [send]
    calls. On a complete request it sends the net income frame, then the
    savings contribution frame, each with two [send] calls. When all four
    calls go through it returns 0 with both frames on the wire. When the
    first [n] calls go through and the next one returns -1 ([n] below
    four), it returns 1 there, and what it leaves on the wire is the first
    [n / 2] of the two frames, followed by the length header of the next
    one when [n] is odd: the net income can be delivered by a session that
    ends in error. *)
Theorem savings_results_in_order {L : SEAL}
    (P PK RLK INC EXP : bytes)
    (parms : EncryptionParameters) (pk : PublicKey) (rlk : RelinKeys)
    (inc exp : Ciphertext) (w : World) (rest : bytes) :
  savings_request P PK RLK INC EXP parms pk rlk inc exp ->
  inbound w = frames [P; PK; RLK; INC; EXP] ++ rest ->
  let results := savings_results (make_context parms) rlk inc exp in
  let status := fst (run Savings.server_main w) in
  let written := outbound (snd (run Savings.server_main w)) in
  (can_send 4 w -> status = Returned 0 /\ written = outbound w ++ frames results) /\
  (forall n : nat,
      send_credit w = Some n -> (n < 4)%nat ->
      status = Returned 1 /\
      written = outbound w ++ frames (firstn (n / 2) results) ++
                (if Nat.even n then [] else header_of (nth (n / 2) results []))).
Proof.
  intros Hreq Hin results status written. subst status written.
  unfold run.
  rewrite (savings_server_receives _ _ _ _ _ _ _ _ _ _ _ _ Hreq Hin).
  rewrite savings_respond_send_all. fold results. unfold bind.
  assert (Hlen : length results = 2%nat) by reflexivity.
  split.
  - intros Hc. rewrite send_all_whole by (rewrite Hlen; exact Hc).
    split; reflexivity.
  - intros n Hc Hn.
    rewrite (send_all_credit results _ n) by (rewrite ?Hlen; assumption || lia).
    split; reflexivity.
Qed.

(** The two-input request of the sample owner when the fourth [send] call
    of the compute party fails: the net income is delivered whole, then
    the header of the savings contribution. *)
Lemma savings_results_in_order_witness :
  let objects :=
    [Reference.parms_save Sample.parms; Reference.key_save Byte.x2a;
     Reference.key_save Byte.x2a;
     Reference.ciphertext_save Sample.savings_income;
     Reference.ciphertext_save Sample.savings_expense] in
  let w := mkWorld (frames objects) Silent [] (Some 3%nat) 0 in
  let results :=
    savings_results Sample.parms Byte.x2a Sample.savings_income Sample.savings_expense in
  fst (run Savings.server_main w) = Returned 1 /\
  outbound (snd (run Savings.server_main w)) =
    outbound w ++ frames (firstn 1 results) ++ header_of (nth 1 results []).
Proof.
  intros objects w results.
  refine (proj2 (savings_results_in_order (L := Reference.library)
                   (Reference.parms_save Sample.parms) (Reference.key_save Byte.x2a)
                   (Reference.key_save Byte.x2a)
                   (Reference.ciphertext_save Sample.savings_income)
                   (Reference.ciphertext_save Sample.savings_expense)
                   Sample.parms Byte.x2a Byte.x2a Sample.savings_income
                   Sample.savings_expense w [] _ _) 3%nat eq_refl _).
  - reference_side.
  - unfold w, objects. cbn [inbound]. now rewrite app_nil_r.
  - apply Nat.ltb_lt. reflexivity.
Defined.

(* ================================================================== *)
(** * Console output *)
(* ================================================================== *)

(** The banner by the length of its title. An empty title prints nothing.
    A title of at most 79 characters is printed between a rule of [=] and
    a rule of [-], both of [max(2, 79 - length)] characters after the two
    leading ones. For a longer title the unsigned subtraction wraps, the
    bar size exceeds every string size and the function throws before it
    has printed anything. *)
Theorem banner_by_title_length (title : bytes) :
  Z.of_nat (length title) <= Console.STRING_MAX_SIZE ->
  (title = [] -> Console.print_example_banner title = Some []) /\
  (title <> [] -> (length title <= 79)%nat ->
   let bar := Nat.max 2 (79 - length title) in
   Console.print_example_banner title =
   Some (Console.endl ++
         [Byte.x3d; Byte.x3d] ++ repeat Byte.x3d bar ++ Console.endl ++
         [Byte.x3d; Byte.x20] ++ title ++ Console.endl ++
         [Byte.x3d; Byte.x3d] ++ repeat Byte.x2d bar ++ Console.endl)) /\
  ((79 < length title)%nat -> Console.print_example_banner title = None).
Proof.
  intros Hmax. split; [|split].
  - intros ->. reflexivity.
  - intros Hne Hlen bar. unfold Console.print_example_banner.
    rewrite (empty_false _ Hne). cbn [negb].
    assert (Hbar : Z.max 2 (Console.minus_unsigned_long 79 (Z.of_nat (length title))) =
                   Z.of_nat bar).
    { unfold Console.minus_unsigned_long, bar.
      rewrite Z.mod_small by lia. lia. }
    rewrite Hbar. unfold Console.string_of_size.
    replace (Z.of_nat bar >? Console.STRING_MAX_SIZE) with false
      by (symmetry; rewrite Z.gtb_ltb; apply Z.ltb_ge;
          unfold Console.STRING_MAX_SIZE, bar; lia).
    now rewrite Nat2Z.id.
  - intros Hlen. unfold Console.print_example_banner.
    rewrite empty_false by (destruct title; [cbn in Hlen; lia | discriminate]).
    cbn [negb]. unfold Console.string_of_size.
    replace (_ >? Console.STRING_MAX_SIZE) with true; [reflexivity|].
    symmetry. rewrite Z.gtb_ltb. apply Z.ltb_lt.
    unfold Console.minus_unsigned_long, Console.STRING_MAX_SIZE in *.
    replace ((79 - Z.of_nat (length title)) mod 2 ^ 64)
      with (79 - Z.of_nat (length title) + 2 ^ 64)
      by (apply Z.mod_unique with (q := -1); lia).
    lia.
Qed.

(** The title of the two-input client, 74 characters long: rules of
    [2 + 5] characters. *)
Lemma banner_by_title_length_witness :
  let title := repeat Byte.x61 74 in
  Console.print_example_banner title =
  Some (Console.endl ++
        [Byte.x3d; Byte.x3d] ++ repeat Byte.x3d 5 ++ Console.endl ++
        [Byte.x3d; Byte.x20] ++ title ++ Console.endl ++
        [Byte.x3d; Byte.x3d] ++ repeat Byte.x2d 5 ++ Console.endl).
Proof.
  intros title.
  refine (proj1 (proj2 (banner_by_title_length title _)) _ _).
  - vm_compute. discriminate.
  - discriminate.
  - apply Nat.leb_le. reflexivity.
Defined.

Lemma print_elements_join {T} (show : T -> bytes) (rest : list T) (i : nat) :
  Console.print_elements show (i + length rest) i rest =
  Console.join [Byte.x2c; Byte.x20] (map show rest).
Proof.
  revert i. induction rest as [|x rest IH]; intros i; [reflexivity|].
  cbn [Console.print_elements length map].
  replace (i + S (length rest))%nat with (S i + length rest)%nat by lia.
  rewrite IH.
  destruct rest as [|y rest]; cbn [length map Console.join].
  - replace (i =? S i + 0 - 1)%nat with true by (symmetry; apply Nat.eqb_eq; lia).
    cbn [app]. apply app_nil_r.
  - replace (i =? S i + S (length rest) - 1)%nat with false
      by (symmetry; apply Nat.eqb_neq; lia).
    reflexivity.
Qed.

(** The format of [print_vector]: the name and a colon when there is a
    name, then the elements between brackets with a comma and a space
    between neighbours and none after the last, then the end of the line.
    An empty vector prints as [[]]. *)
Theorem print_vector_format {T} (show : T -> bytes) (vec : list T) (name : bytes) :
  Console.print_vector show vec name =
  (if empty name then [] else name ++ [Byte.x3a; Byte.x20]) ++
  [Byte.x5b] ++ Console.join [Byte.x2c; Byte.x20] (map show vec) ++
  [Byte.x5d; Byte.x0a].
Proof.
  unfold Console.print_vector.
  pose proof (print_elements_join show vec 0) as H. cbn [Nat.add] in H.
  rewrite H. now destruct (empty name).
Qed.

(* ================================================================== *)
(** * Typed input: words and lines *)
(* ================================================================== *)

Section TypedInput.
Import Stdin.

Lemma string_eqb_eq (a b : bytes) : string_eqb a b = true <-> a = b.
Proof.
  revert b. induction a as [|x a IH]; intros [|y b]; cbn; split; try easy.
  - intros H. apply andb_prop in H as [H1 H2].
    apply Byte.byte_dec_bl in H1. apply IH in H2. now subst.
  - intros H. inversion H; subst. apply andb_true_intro. split.
    + now apply Byte.byte_dec_lb.
    + now apply IH.
Qed.

Lemma string_eqb_neq (a b : bytes) : a <> b -> string_eqb a b = false.
Proof.
  intros H. destruct (string_eqb a b) eqn:E; [|reflexivity].
  apply string_eqb_eq in E. contradiction.
Qed.

Lemma done_is_word : is_word done.
Proof. split; [discriminate | repeat constructor]. Qed.

Lemma skip_space_word (w s : bytes) : is_word w -> skip_space (w ++ s) = w ++ s.
Proof.
  intros [Hne Hw]. destruct w as [|b w]; [congruence|].
  inversion Hw; subst. cbn. now rewrite H1.
Qed.

Lemma take_word_word (w s : bytes) :
  Forall (fun b => isspace b = false) w ->
  (s = [] \/ exists b q, s = b :: q /\ isspace b = true) ->
  take_word (w ++ s) = (w, s).
Proof.
  intros Hw Hs. induction Hw as [|b w Hb _ IH].
  - destruct Hs as [-> | (b & q & -> & Hb)]; [reflexivity|].
    cbn. now rewrite Hb.
  - cbn. now rewrite Hb, IH.
Qed.

Lemma line_tail_cons (w : bytes) (ws : list bytes) :
  line_tail (w :: ws) = space :: w ++ line_tail ws.
Proof. unfold line_tail. cbn [map concat]. now rewrite <- !app_assoc. Qed.

Lemma line_tail_head (ws : list bytes) :
  exists b q, line_tail ws = b :: q /\ isspace b = true.
Proof.
  destruct ws as [|w ws].
  - now exists newline, [].
  - rewrite line_tail_cons. now eexists _, _.
Qed.

Lemma line_tail_app_head (ws : list bytes) (s : bytes) :
  exists b q, line_tail ws ++ s = b :: q /\ isspace b = true.
Proof.
  destruct (line_tail_head ws) as (b & q & -> & Hb). now exists b, (q ++ s).
Qed.

Lemma join_space (w : bytes) (ws : list bytes) :
  Console.join [space] (w :: ws) = w ++ concat (map (cons space) ws).
Proof.
  revert w. induction ws as [|v ws IH]; intros w.
  - cbn. now rewrite app_nil_r.
  - change (Console.join [space] (w :: v :: ws))
      with (w ++ [space] ++ Console.join [space] (v :: ws)).
    rewrite IH. reflexivity.
Qed.

Lemma line_text_cons (w : bytes) (ws : list bytes) :
  line_text (w :: ws) = w ++ line_tail ws.
Proof. unfold line_text, line_tail. now rewrite join_space, <- app_assoc. Qed.

Lemma text_cons (l : list bytes) (ls : list (list bytes)) :
  text (l :: ls) = line_text l ++ text ls.
Proof. reflexivity. Qed.

Lemma skip_space_line (l : list bytes) (s : bytes) :
  skip_space (line_text l ++ s) = skip_space (line_tail l ++ s).
Proof.
  destruct l as [|w ws]; [reflexivity|].
  now rewrite line_text_cons, line_tail_cons.
Qed.

Lemma after_newline_word (w s : bytes) :
  Forall (fun b => isspace b = false) w -> after_newline (w ++ s) = after_newline s.
Proof.
  induction 1 as [|b w Hb _ IH]; [reflexivity|].
  cbn. destruct (Byte.eqb b Byte.x0a) eqn:E; [|exact IH].
  apply Byte.byte_dec_bl in E. subst. discriminate.
Qed.

Lemma after_newline_tail (ws : list bytes) (s : bytes) :
  Forall is_word ws -> after_newline (line_tail ws ++ s) = Some s.
Proof.
  induction 1 as [|w ws [_ Hw] _ IH]; [reflexivity|].
  rewrite line_tail_cons.
  change ((space :: w ++ line_tail ws) ++ s) with (space :: (w ++ line_tail ws) ++ s).
  cbn [after_newline]. change (Byte.eqb space Byte.x0a) with false. cbv iota.
  rewrite <- app_assoc. now rewrite after_newline_word.
Qed.

(** Reading the next word of a line. *)
Lemma extract_next_word (il w : bytes) (ws : list bytes) (s : bytes) :
  is_word w ->
  extract_string il (opened (line_tail (w :: ws) ++ s)) =
  (w, opened (line_tail ws ++ s)).
Proof.
  intros Hw. unfold extract_string, opened. cbn [good eofbit failbit orb negb pending].
  rewrite line_tail_cons. cbn [app skip_space]. change (isspace space) with true. cbv iota.
  rewrite <- app_assoc, skip_space_word by exact Hw.
  destruct Hw as [Hne Hall].
  destruct w as [|b w]; [congruence|]. cbn [app].
  change (b :: w ++ line_tail ws ++ s) with ((b :: w) ++ line_tail ws ++ s).
  rewrite take_word_word by (try exact Hall; right; apply line_tail_app_head).
  destruct (line_tail_app_head ws s) as (c & q & -> & _). reflexivity.
Qed.

Lemma extract_skip (il p1 p2 : bytes) :
  skip_space p1 = skip_space p2 ->
  extract_string il (opened p1) = extract_string il (opened p2).
Proof.
  intros H. unfold extract_string, opened. cbn [good eofbit failbit orb negb pending].
  now rewrite H.
Qed.

Lemma leaves_exit {S R} (body : S -> S + R) (s : S) (r : R) :
  body s = inr r -> leaves body s (Some r).
Proof. intros H. exists 1%nat. cbn. now rewrite H. Qed.

Lemma leaves_round {S R} (body : S -> S + R) (s s' : S) (o : option R) :
  body s = inl s' -> leaves body s' o -> leaves body s o.
Proof.
  intros H. destruct o as [r|]; cbn.
  - intros [fuel Hf]. exists (Datatypes.S fuel). cbn. now rewrite H.
  - intros Hn [|fuel]; [reflexivity|]. cbn. now rewrite H.
Qed.

Lemma leaves_same {S R} (body : S -> S + R) (s1 s2 : S) (o : option R) :
  body s1 = body s2 -> leaves body s1 o -> leaves body s2 o.
Proof.
  intros H. destruct (body s1) as [s'|r] eqn:E.
  - intros Hl. apply (leaves_round body s2 s' o); [now rewrite <- H|].
    destruct o as [r|]; cbn in *.
    + destruct Hl as [[|fuel] Hf]; [discriminate|]. cbn in Hf. rewrite E in Hf.
      now exists fuel.
    + intros fuel. specialize (Hl (Datatypes.S fuel)). cbn in Hl. now rewrite E in Hl.
  - intros Hl. destruct o as [r'|]; cbn in *.
    + destruct Hl as [[|fuel] Hf]; [discriminate|]. cbn in Hf. rewrite E in Hf.
      exists 1%nat. cbn. now rewrite <- H.
    + specialize (Hl 1%nat). cbn in Hl. rewrite E in Hl. discriminate.
Qed.

Lemma loop_more_fuel {S R} (body : S -> S + R) (fuel k : nat) (s : S) (r : R) :
  loop body fuel s = Some r -> loop body (fuel + k) s = Some r.
Proof.
  revert s. induction fuel as [|fuel IH]; intros s; [discriminate|].
  cbn. destruct (body s); [apply IH | easy].
Qed.

Variable stod : bytes -> Stod.

(** At the end of input [get_user_doubles] goes round for ever. *)
Lemma get_user_doubles_stuck (fuel : nat) (c : Cin) (il : bytes) (acc : list double) :
  pending c = [] -> il <> done -> stod il <> OutOfRange ->
  loop (get_user_doubles_body stod) fuel (mkLoop c il acc) = None.
Proof.
  revert c acc. induction fuel as [|fuel IH]; intros c acc Hp Hil Hst; [reflexivity|].
  cbn [loop]. unfold get_user_doubles_body. cbn [cin input_line data].
  assert (E : exists c', extract_string il c = (il, c') /\ pending c' = []).
  { unfold extract_string. rewrite Hp. destruct (good c); cbn; now eexists. }
  destruct E as (c' & -> & Hp').
  rewrite (string_eqb_neq _ _ Hil).
  destruct (stod il) as [v| |] eqn:Ev; [| |congruence].
  - now apply IH.
  - apply IH; try assumption.
    unfold ignore_line, clear. cbn [good eofbit failbit orb negb pending].
    now rewrite Hp'.
Qed.

Lemma get_user_doubles_skip (il : bytes) (acc : list double) (p1 p2 : bytes) :
  skip_space p1 = skip_space p2 ->
  get_user_doubles_body stod (mkLoop (opened p1) il acc) =
  get_user_doubles_body stod (mkLoop (opened p2) il acc).
Proof.
  intros H. unfold get_user_doubles_body. cbn [cin input_line data].
  now rewrite (extract_skip il p1 p2 H).
Qed.

Lemma get_user_doubles_mid_line (ls : list (list bytes)) :
  (forall il acc, il <> done -> stod il <> OutOfRange ->
     leaves (get_user_doubles_body stod) (mkLoop (opened (text ls)) il acc)
            (collect stod ls acc)) ->
  forall ws, Forall is_word ws ->
  forall il acc, il <> done -> stod il <> OutOfRange ->
    leaves (get_user_doubles_body stod)
           (mkLoop (opened (line_tail ws ++ text ls)) il acc)
           (collect stod (ws :: ls) acc).
Proof.
  intros HN ws Hws. induction Hws as [|w ws Hw Hws IH]; intros il acc Hil Hst.
  - cbn [collect collect_line].
    apply (leaves_same _ (mkLoop (opened (text ls)) il acc)); [|now apply HN].
    now apply get_user_doubles_skip.
  - cbn [collect collect_line].
    assert (Hbody : get_user_doubles_body stod
                      (mkLoop (opened (line_tail (w :: ws) ++ text ls)) il acc) =
                    if string_eqb w done
                    then inr (Got acc (opened (text ls)))
                    else match stod w with
                         | Converted value =>
                             inl (mkLoop (opened (line_tail ws ++ text ls)) w (acc ++ [value]))
                         | InvalidArgument => inl (mkLoop (opened (text ls)) w acc)
                         | OutOfRange => inr Threw
                         end).
    { unfold get_user_doubles_body. cbn [cin input_line data].
      rewrite (extract_next_word il w ws (text ls) Hw).
      unfold ignore_line, clear, opened.
      cbn [good eofbit failbit orb negb pending].
      now rewrite (after_newline_tail ws (text ls) Hws). }
    destruct (string_eqb w done) eqn:Ed.
    + now apply leaves_exit.
    + assert (Hw' : w <> done)
        by (intros ->; rewrite (proj2 (string_eqb_eq done done) eq_refl) in Ed;
            discriminate).
      destruct (stod w) as [v| |] eqn:Ev.
      * apply (leaves_round _ _ _ _ Hbody).
        specialize (IH w (acc ++ [v]) Hw').
        cbn [collect] in IH. apply IH. congruence.
      * apply (leaves_round _ _ _ _ Hbody). apply HN; congruence.
      * now apply leaves_exit.
Qed.

Lemma get_user_doubles_lines (ls : list (list bytes)) :
  Forall (Forall is_word) ls ->
  forall il acc, il <> done -> stod il <> OutOfRange ->
    leaves (get_user_doubles_body stod) (mkLoop (opened (text ls)) il acc)
           (collect stod ls acc).
Proof.
  induction 1 as [|l ls Hl _ IH]; intros il acc Hil Hst.
  - intros fuel. now apply get_user_doubles_stuck.
  - apply (leaves_same _ (mkLoop (opened (line_tail l ++ text ls)) il acc)).
    + apply get_user_doubles_skip. rewrite text_cons. symmetry. apply skip_space_line.
    + now apply get_user_doubles_mid_line.
Qed.

End TypedInput.



(* ================================================================== *)
(** * Typed input: no return without ["done"] *)
(* ================================================================== *)

Section NeedsDone.
Import Stdin.

Lemma occurs_nil (w : bytes) : ~ occurs_as_word w [].
Proof.
  intros [[Hne _] (before & after & E & _)].
  destruct before; [|discriminate]. destruct w; [congruence | discriminate].
Qed.

Lemma occurs_app (w pre r : bytes) :
  occurs_as_word w r ->
  (pre = [] \/
   (exists b q, r = b :: q /\ isspace b = true) \/
   (exists b p, pre = p ++ [b] /\ isspace b = true)) ->
  occurs_as_word w (pre ++ r).
Proof.
  intros [Hw (before & after & E & Hb & Ha)] Hpre. split; [exact Hw|].
  exists (pre ++ before), after. split; [now rewrite E, app_assoc|].
  split; [|exact Ha].
  destruct Hpre as [-> | [(b & q & Er & Hsp) | (b & p & -> & Hsp)]].
  - exact Hb.
  - destruct Hb as [-> | (b0 & p & -> & Hb0)].
    + exfalso. destruct Hw as [Hne Hall].
      destruct w as [|c w]; [congruence|].
      rewrite E in Er. cbn in Er. inversion Er; subst.
      inversion Hall; subst. congruence.
    + right. exists b0, (pre ++ p). now rewrite app_assoc.
  - destruct Hb as [-> | (b0 & p' & -> & Hb0)].
    + right. exists b, p. now rewrite app_nil_r.
    + right. exists b0, ((p ++ [b]) ++ p'). now rewrite app_assoc.
Qed.

Lemma skip_space_split (p : bytes) :
  exists pre, p = pre ++ skip_space p /\
              (pre = [] \/ exists b q, pre = q ++ [b] /\ isspace b = true).
Proof.
  induction p as [|b p IH].
  - exists []. auto.
  - cbn. destruct (isspace b) eqn:Hb.
    + destruct IH as (pre & E & Hpre). exists (b :: pre). split.
      * cbn. now rewrite <- E.
      * right. destruct Hpre as [-> | (b0 & q & -> & Hb0)].
        -- now exists b, [].
        -- now exists b0, (b :: q).
    + exists []. auto.
Qed.

Lemma skip_space_head (p : bytes) (b : byte) (s : bytes) :
  skip_space p = b :: s -> isspace b = false.
Proof.
  induction p as [|c p IH]; [discriminate|].
  cbn. destruct (isspace c) eqn:Hc; [exact IH|].
  intros H. inversion H; subst. exact Hc.
Qed.

Lemma take_word_split (s : bytes) :
  s = fst (take_word s) ++ snd (take_word s) /\
  Forall (fun b => isspace b = false) (fst (take_word s)) /\
  (snd (take_word s) = [] \/
   exists b q, snd (take_word s) = b :: q /\ isspace b = true).
Proof.
  induction s as [|b s (E & Hw & Hr)].
  - cbn. auto.
  - cbn. destruct (isspace b) eqn:Hb.
    + cbn. repeat split; auto. right. now exists b, s.
    + destruct (take_word s) as [w rest]. cbn in *. repeat split.
      * now rewrite <- E.
      * now constructor.
      * exact Hr.
Qed.

Lemma after_newline_split (p r : bytes) :
  after_newline p = Some r -> exists pre, p = pre ++ newline :: r.
Proof.
  revert r. induction p as [|b p IH]; intros r; [discriminate|].
  cbn. destruct (Byte.eqb b Byte.x0a) eqn:E.
  - intros H. inversion H; subst. apply Byte.byte_dec_bl in E. subst.
    now exists [].
  - intros H. destruct (IH r H) as (pre & ->). now exists (b :: pre).
Qed.

(** A word that stands in what [cin.ignore] leaves stood in the stream
    before. *)
Lemma ignore_line_occurs (c : Cin) (v : bytes) :
  occurs_as_word v (pending (ignore_line c)) -> occurs_as_word v (pending c).
Proof.
  unfold ignore_line. destruct (good c); [|easy].
  destruct (after_newline (pending c)) as [r|] eqn:E; cbn [pending].
  - intros H. destruct (after_newline_split _ _ E) as (pre & ->).
    change (pre ++ newline :: r) with (pre ++ [newline] ++ r).
    rewrite app_assoc. apply occurs_app; [exact H|].
    right. right. now exists newline, pre.
  - intros H. now apply occurs_nil in H.
Qed.

(** What [cin >> str] hands back is the old value of [str] or a word of
    the stream, and a word that stands in what it leaves stood in the
    stream before. *)
Lemma extract_string_occurs (il : bytes) (c : Cin) :
  (fst (extract_string il c) = il \/
   occurs_as_word (fst (extract_string il c)) (pending c)) /\
  (forall v, occurs_as_word v (pending (snd (extract_string il c))) ->
             occurs_as_word v (pending c)).
Proof.
  unfold extract_string. destruct (good c); [|cbn; auto].
  destruct (skip_space_split (pending c)) as (pre & Ep & Hpre).
  destruct (skip_space (pending c)) as [|b s] eqn:Es.
  - cbn. split; [auto|]. intros v H. now apply occurs_nil in H.
  - pose proof (skip_space_head _ _ _ Es) as Hb.
    destruct (take_word_split (b :: s)) as (Ew & Hw & Hr).
    destruct (take_word (b :: s)) as [w rest] eqn:Et. cbn [fst snd pending] in *.
    assert (Hword : is_word w).
    { split; [|exact Hw]. intros ->. cbn in Ew. subst rest.
      destruct Hr as [Hr | (b0 & q & Hr & Hb0)]; [discriminate|].
      inversion Hr; subst. congruence. }
    split.
    + right. split; [exact Hword|].
      exists pre, rest. split; [now rewrite <- Ew | split; assumption].
    + intros v Hv. rewrite Ep, Ew, app_assoc.
      apply occurs_app; [exact Hv|].
      destruct Hr as [-> | Hr]; [now apply occurs_nil in Hv | auto].
Qed.

Variable stod : bytes -> Stod.

Lemma get_user_doubles_loop_needs_done (fuel : nat) (c : Cin) (il : bytes)
    (acc collected : list double) (c' : Cin) :
  loop (get_user_doubles_body stod) fuel (mkLoop c il acc) = Some (Got collected c') ->
  il <> done -> occurs_as_word done (pending c).
Proof.
  revert c il acc. induction fuel as [|fuel IH]; intros c il acc; [discriminate|].
  cbn [loop]. unfold get_user_doubles_body. cbn [cin input_line data].
  destruct (extract_string_occurs il c) as [Hw Hlift].
  destruct (extract_string il c) as [w c1]. cbn [fst snd] in *.
  destruct (string_eqb w done) eqn:Ed.
  - apply string_eqb_eq in Ed. subst w. intros _ Hil.
    destruct Hw as [Hw | Hw]; [congruence | exact Hw].
  - assert (Hne : w <> done)
      by (intros ->; rewrite (proj2 (string_eqb_eq done done) eq_refl) in Ed;
          discriminate).
    destruct (stod w).
    + intros H _. apply Hlift. exact (IH _ _ _ H Hne).
    + intros H _. apply Hlift.
      change (pending c1) with (pending (clear c1)).
      apply ignore_line_occurs. exact (IH _ _ _ H Hne).
    + discriminate.
Qed.

End NeedsDone.

(** [get_user_doubles] returns only on the word ["done"]. Whatever the
    characters waiting on standard input and whatever the state of the
    stream, if the function returns then ["done"] stands in the input as a
    word of its own; on any other input, the end of input included, it
    does not return. *)
Theorem get_user_doubles_needs_done (stod : bytes -> Stdin.Stod) (fuel : nat)
    (c c' : Stdin.Cin) (collected : list double) :
  Stdin.get_user_doubles stod fuel c = Some (Stdin.Got collected c') ->
  Stdin.occurs_as_word Stdin.done (Stdin.pending c).
Proof.
  intros H.
  exact (get_user_doubles_loop_needs_done stod fuel c [] [] collected c' H
           ltac:(discriminate)).
Qed.

(** Typed: [7], a newline, [done], a newline. *)
Lemma get_user_doubles_needs_done_witness :
  Stdin.occurs_as_word Stdin.done
    ([Byte.x37; Stdin.newline] ++ Stdin.done ++ [Stdin.newline]).
Proof.
  refine (get_user_doubles_needs_done Stdin.stod_of_digits 2
            (Stdin.opened ([Byte.x37; Stdin.newline] ++ Stdin.done ++ [Stdin.newline]))
            (Stdin.opened []) [inject_Z 7] _).
  reflexivity.
Defined.

(* ================================================================== *)
(** * Typed input: the two loops of the two-input client *)
(* ================================================================== *)

Section TwoInputs.
Import Stdin.

Lemma loop_leaving_ignores {S A} (body : S -> S + Read A) (fuel : nat) (s : S) :
  loop (leaving_ignores body) fuel s = option_map then_ignore (loop body fuel s).
Proof.
  revert s. induction fuel as [|fuel IH]; intros s; [reflexivity|].
  cbn [loop]. unfold leaving_ignores at 1. destruct (body s); [apply IH | reflexivity].
Qed.

Lemma loop_deterministic {S R} (body : S -> S + R) (fuel fuel' : nat) (s : S) (r : R) :
  loop body fuel s = Some r -> loop body fuel' s = None \/ loop body fuel' s = Some r.
Proof.
  revert fuel' s. induction fuel as [|fuel IH]; intros fuel' s; [discriminate|].
  destruct fuel' as [|fuel']; [now left|].
  cbn. destruct (body s); [apply IH | auto].
Qed.

Variable stod : bytes -> Stod.

Local Abbreviation body := (leaving_ignores (read_amounts_body stod)).

Lemma read_amounts_loop (fuel : nat) (il : bytes) (c : Cin) :
  read_amounts stod fuel il c = loop body fuel (mkLoop c il []).
Proof. unfold read_amounts. now rewrite loop_leaving_ignores. Qed.

(** At the end of input a loop whose line variable does not hold ["done"]
    goes round for ever. *)
Lemma read_amounts_stuck (fuel : nat) (c : Cin) (il : bytes) (acc : list double) :
  pending c = [] -> il <> done -> stod il <> OutOfRange ->
  loop body fuel (mkLoop c il acc) = None.
Proof.
  revert c acc. induction fuel as [|fuel IH]; intros c acc Hp Hil Hst; [reflexivity|].
  cbn [loop]. unfold leaving_ignores, read_amounts_body. cbn [cin input_line data].
  assert (E : exists c', extract_string il c = (il, c') /\ pending c' = []).
  { unfold extract_string. rewrite Hp. destruct (good c); cbn; now eexists. }
  destruct E as (c' & -> & Hp').
  rewrite (string_eqb_neq _ _ Hil).
  destruct (stod il) as [v| |] eqn:Ev; [| |congruence]; now apply IH.
Qed.

Lemma read_amounts_skip (il : bytes) (acc : list double) (p1 p2 : bytes) :
  skip_space p1 = skip_space p2 ->
  body (mkLoop (opened p1) il acc) = body (mkLoop (opened p2) il acc).
Proof.
  intros H. unfold leaving_ignores, read_amounts_body. cbn [cin input_line data].
  now rewrite (extract_skip il p1 p2 H).
Qed.

Lemma read_amounts_mid_line (ls : list (list bytes)) :
  (forall il acc, il <> done -> stod il <> OutOfRange ->
     leaves body (mkLoop (opened (text ls)) il acc) (amounts stod ls acc)) ->
  forall ws, Forall is_word ws ->
  forall il acc, il <> done -> stod il <> OutOfRange ->
    leaves body (mkLoop (opened (line_tail ws ++ text ls)) il acc)
           (amounts stod (ws :: ls) acc).
Proof.
  intros HN ws Hws. induction Hws as [|w ws Hw Hws IH]; intros il acc Hil Hst.
  - cbn [amounts amounts_line].
    apply (leaves_same _ (mkLoop (opened (text ls)) il acc)); [|now apply HN].
    now apply read_amounts_skip.
  - cbn [amounts amounts_line].
    assert (Hbody : body (mkLoop (opened (line_tail (w :: ws) ++ text ls)) il acc) =
                    if string_eqb w done
                    then inr (Got acc (opened (text ls)))
                    else match stod w with
                         | Converted value =>
                             inl (mkLoop (opened (line_tail ws ++ text ls)) w (acc ++ [value]))
                         | InvalidArgument =>
                             inl (mkLoop (opened (line_tail ws ++ text ls)) w acc)
                         | OutOfRange => inr Threw
                         end).
    { unfold leaving_ignores, read_amounts_body. cbn [cin input_line data].
      rewrite (extract_next_word il w ws (text ls) Hw).
      destruct (string_eqb w done).
      - cbn [then_ignore]. unfold ignore_line, opened.
        cbn [good eofbit failbit orb negb pending].
        now rewrite (after_newline_tail ws (text ls) Hws).
      - now destruct (stod w). }
    destruct (string_eqb w done) eqn:Ed.
    + now apply leaves_exit.
    + assert (Hw' : w <> done)
        by (intros ->; rewrite (proj2 (string_eqb_eq done done) eq_refl) in Ed;
            discriminate).
      destruct (stod w) as [v| |] eqn:Ev.
      * apply (leaves_round _ _ _ _ Hbody).
        specialize (IH w (acc ++ [v]) Hw').
        cbn [amounts] in IH. apply IH. congruence.
      * apply (leaves_round _ _ _ _ Hbody).
        specialize (IH w acc Hw').
        cbn [amounts] in IH. apply IH. congruence.
      * now apply leaves_exit.
Qed.

Lemma read_amounts_lines (ls : list (list bytes)) :
  Forall (Forall is_word) ls ->
  forall il acc, il <> done -> stod il <> OutOfRange ->
    leaves body (mkLoop (opened (text ls)) il acc) (amounts stod ls acc).
Proof.
  induction 1 as [|l ls Hl _ IH]; intros il acc Hil Hst.
  - intros fuel. now apply read_amounts_stuck.
  - apply (leaves_same _ (mkLoop (opened (line_tail l ++ text ls)) il acc)).
    + apply read_amounts_skip. rewrite text_cons. symmetry. apply skip_space_line.
    + now apply read_amounts_mid_line.
Qed.

(** Entered with ["done"] still in the line variable, a loop that finds no
    further word leaves at once with nothing collected. *)
Lemma read_amounts_after_done (fuel : nat) (c : Cin) :
  skip_space (pending c) = [] ->
  exists c', read_amounts stod (Datatypes.S fuel) done c = Some (Got [] c').
Proof.
  intros Hs. rewrite read_amounts_loop. cbn [loop].
  unfold leaving_ignores, read_amounts_body. cbn [cin input_line data].
  assert (E : exists c', extract_string done c = (done, c')).
  { unfold extract_string. rewrite Hs. destruct (good c); now eexists. }
  destruct E as (c' & ->).
  rewrite (proj2 (string_eqb_eq done done) eq_refl). now eexists.
Qed.

End TwoInputs.

(** An input loop of the two-input client on input typed as lines of
    words, one space between the words of a line, with the word ["done"]
    among them. The loop is left: the amounts are collected in order up to
    the first ["done"], and what follows it on its line is dropped; a word
    that is no number is passed over and the rest of its line is still
    read; a number out of range ends the program on the exception. *)
Theorem read_amounts_by_lines (stod : bytes -> Stdin.Stod) (lines : list (list bytes))
    (r : Stdin.Read (list double)) :
  Forall (Forall Stdin.is_word) lines ->
  stod [] <> Stdin.OutOfRange ->
  Stdin.amounts stod lines [] = Some r ->
  exists fuel,
    Stdin.read_amounts stod fuel [] (Stdin.opened (Stdin.text lines)) = Some r.
Proof.
  intros Hl Hst Hr.
  pose proof (read_amounts_lines stod lines Hl [] [] ltac:(discriminate) Hst) as H.
  rewrite Hr in H. cbn [Stdin.leaves] in H.
  destruct H as [fuel H]. exists fuel. now rewrite read_amounts_loop.
Qed.

(** The same four lines as for [get_user_doubles]: here the [7] after
    [oops] is read. *)
Lemma read_amounts_by_lines_witness :
  let w1500 := [Byte.x31; Byte.x35; Byte.x30; Byte.x30] in
  let w250 := [Byte.x32; Byte.x35; Byte.x30] in
  let oops := [Byte.x6f; Byte.x6f; Byte.x70; Byte.x73] in
  let lines := [[w1500; w250]; [oops; [Byte.x37]]; [Stdin.done; [Byte.x78]]; [[Byte.x39]]] in
  exists fuel,
    Stdin.read_amounts Stdin.stod_of_digits fuel [] (Stdin.opened (Stdin.text lines)) =
    Some (Stdin.Got [inject_Z 1500; inject_Z 250; inject_Z 7]
                    (Stdin.opened (Stdin.text [[[Byte.x39]]]))).
Proof.
  intros w1500 w250 oops lines.
  refine (read_amounts_by_lines Stdin.stod_of_digits lines _ _ _ _).
  - repeat constructor; discriminate.
  - discriminate.
  - reflexivity.
Defined.

(** Input that ends after the income list. When the typed lines end with
    the line of the first ["done"], the two-input client does not wait for
    expenses: its expense loop, entered with ["done"] still in the shared
    line variable, fails to read and leaves at once, and the input section
    returns the incomes with no expense at all. With no input at all the
    income loop never ends. *)
Theorem expenses_missing_at_end_of_input (stod : bytes -> Stdin.Stod)
    (lines : list (list bytes)) (income : list double) :
  Forall (Forall Stdin.is_word) lines ->
  stod [] <> Stdin.OutOfRange ->
  Stdin.amounts stod lines [] = Some (Stdin.Got income (Stdin.opened [])) ->
  (exists fuel c',
      Stdin.read_two_inputs stod fuel (Stdin.opened (Stdin.text lines)) =
      Some (Stdin.Got (Savings.mkInput income []) c')) /\
  (forall fuel, Stdin.read_two_inputs stod fuel (Stdin.opened []) = None).
Proof.
  intros Hl Hst Ha. split.
  - pose proof (read_amounts_lines stod lines Hl [] [] ltac:(discriminate) Hst) as H.
    rewrite Ha in H. cbn [Stdin.leaves] in H.
    destruct H as [fuel H]. rewrite <- read_amounts_loop in H.
    destruct (read_amounts_after_done stod fuel (Stdin.opened []) eq_refl) as [c' Hc'].
    exists (Datatypes.S fuel), c'. unfold Stdin.read_two_inputs.
    assert (H1 : Stdin.read_amounts stod (Datatypes.S fuel) []
                   (Stdin.opened (Stdin.text lines)) =
                 Some (Stdin.Got income (Stdin.opened []))).
    { rewrite read_amounts_loop in *.
      replace (Datatypes.S fuel) with (fuel + 1)%nat by lia.
      now apply loop_more_fuel. }
    now rewrite H1, Hc'.
  - intros fuel. unfold Stdin.read_two_inputs.
    rewrite read_amounts_loop.
    now rewrite (read_amounts_stuck stod fuel (Stdin.opened []) [] [] eq_refl
                   ltac:(discriminate) Hst).
Qed.

(** Typed: [1500 250], then [done], then the input ends. *)
Lemma expenses_missing_at_end_of_input_witness :
  let w1500 := [Byte.x31; Byte.x35; Byte.x30; Byte.x30] in
  let w250 := [Byte.x32; Byte.x35; Byte.x30] in
  let lines := [[w1500; w250]; [Stdin.done]] in
  exists fuel c',
    Stdin.read_two_inputs Stdin.stod_of_digits fuel (Stdin.opened (Stdin.text lines)) =
    Some (Stdin.Got (Savings.mkInput [inject_Z 1500; inject_Z 250] []) c').
Proof.
  intros w1500 w250 lines.
  refine (proj1 (expenses_missing_at_end_of_input Stdin.stod_of_digits lines
                   [inject_Z 1500; inject_Z 250] _ _ _)).
  - repeat constructor; discriminate.
  - discriminate.
  - reflexivity.
Defined.

(* ================================================================== *)
(** * Typed input: single amounts *)
(* ================================================================== *)

Section SingleAmounts.
Import Stdin.

Lemma after_newline_blank (p r : bytes) :
  skip_space p = [] -> after_newline p = Some r -> skip_space r = [].
Proof.
  revert r. induction p as [|b p IH]; intros r; [discriminate|].
  cbn. destruct (isspace b); [|discriminate].
  intros Hs. destruct (Byte.eqb b Byte.x0a).
  - intros H. now inversion H; subst.
  - now apply IH.
Qed.

Lemma ignore_line_blank (c : Cin) :
  skip_space (pending c) = [] -> skip_space (pending (ignore_line c)) = [].
Proof.
  intros Hs. unfold ignore_line. destruct (good c); [|exact Hs].
  destruct (after_newline (pending c)) as [r|] eqn:E; cbn [pending]; [|reflexivity].
  now apply (after_newline_blank (pending c)).
Qed.

Variable stod : bytes -> Stod.
Variable num_get : bytes -> NumGet.

(** With nothing but white space left, [get_single_double_input] goes
    round for ever. *)
Lemma get_single_double_input_stuck (fuel : nat) (c : Cin) :
  skip_space (pending c) = [] -> get_single_double_input num_get fuel c = None.
Proof.
  unfold get_single_double_input.
  revert c. induction fuel as [|fuel IH]; intros c Hs; [reflexivity|].
  cbn [loop]. unfold get_single_double_input_body, extract_double.
  rewrite Hs. destruct (good c); apply IH; apply ignore_line_blank; cbn; try reflexivity.
  exact Hs.
Qed.

End SingleAmounts.

(** [get_single_double_input] line by line. When the first characters
    that are not white space are accepted as a number, the function
    returns the number and drops the rest of that line; when they are
    refused, the stream is cleared, the rest of that line is dropped and
    the question is asked again; and when nothing but white space is left
    to read the function never returns. *)
Theorem single_amount_line_by_line (num_get : bytes -> Stdin.NumGet)
    (before : bytes) (b : byte) (s : bytes) :
  Stdin.skip_space before = [] -> Stdin.isspace b = false ->
  let typed := Stdin.opened (before ++ b :: s) in
  (forall value rest tail fuel,
      num_get (b :: s) = Stdin.Number value rest ->
      Stdin.after_newline rest = Some tail ->
      Stdin.get_single_double_input num_get (S fuel) typed =
      Some (Stdin.Got value (Stdin.opened tail))) /\
  (forall rest tail fuel,
      num_get (b :: s) = Stdin.NoNumber rest ->
      Stdin.after_newline rest = Some tail ->
      Stdin.get_single_double_input num_get (S fuel) typed =
      Stdin.get_single_double_input num_get fuel (Stdin.opened tail)) /\
  (forall fuel,
      Stdin.get_single_double_input num_get fuel (Stdin.opened before) = None).
Proof.
  intros Hb Hsp typed.
  assert (Hskip : Stdin.skip_space (before ++ b :: s) = b :: s).
  { clear typed. induction before as [|c before IH]; cbn.
    - now rewrite Hsp.
    - cbn in Hb. destruct (Stdin.isspace c); [now apply IH | discriminate]. }
  split; [|split].
  - intros value rest tail fuel Hn Ha.
    unfold Stdin.get_single_double_input, typed. cbn [Stdin.loop].
    unfold Stdin.get_single_double_input_body, Stdin.extract_double, Stdin.opened.
    cbn [Stdin.good Stdin.eofbit Stdin.failbit orb negb Stdin.pending].
    rewrite Hskip, Hn. unfold Stdin.ignore_line.
    destruct rest as [|r0 rest]; [discriminate|].
    cbn [empty Stdin.good Stdin.eofbit Stdin.failbit orb negb Stdin.pending].
    now rewrite Ha.
  - intros rest tail fuel Hn Ha.
    unfold Stdin.get_single_double_input, typed. cbn [Stdin.loop].
    unfold Stdin.get_single_double_input_body, Stdin.extract_double, Stdin.opened.
    cbn [Stdin.good Stdin.eofbit Stdin.failbit orb negb Stdin.pending].
    rewrite Hskip, Hn. unfold Stdin.ignore_line, Stdin.clear.
    cbn [Stdin.good Stdin.eofbit Stdin.failbit orb negb Stdin.pending].
    now rewrite Ha.
  - intros fuel. now apply get_single_double_input_stuck.
Qed.

(** The income list ends the input. When the typed lines end with the
    line of the first ["done"], [client.cpp] has its income list and then
    asks for the essential expenses for ever: its input section never
    returns. *)
Theorem planning_input_needs_all_amounts (stod : bytes -> Stdin.Stod)
    (num_get : bytes -> Stdin.NumGet) (lines : list (list bytes)) (income : list double) :
  Forall (Forall Stdin.is_word) lines ->
  stod [] <> Stdin.OutOfRange ->
  Stdin.collect stod lines [] = Some (Stdin.Got income (Stdin.opened [])) ->
  (exists fuel,
      Stdin.get_user_doubles stod fuel (Stdin.opened (Stdin.text lines)) =
      Some (Stdin.Got income (Stdin.opened []))) /\
  (forall fuel,
      Stdin.read_planning_input stod num_get fuel (Stdin.opened (Stdin.text lines)) = None).
Proof.
  intros Hl Hst Hc.
  pose proof (get_user_doubles_lines stod lines Hl [] [] ltac:(discriminate) Hst) as H.
  rewrite Hc in H. cbn [Stdin.leaves] in H.
  split; [exact H|].
  destruct H as [fuel0 H]. intros fuel.
  unfold Stdin.read_planning_input, Stdin.get_user_doubles.
  destruct (loop_deterministic _ fuel0 fuel _ _ H) as [-> | ->]; [reflexivity|].
  now rewrite (get_single_double_input_stuck num_get fuel (Stdin.opened []) eq_refl).
Qed.

(** Typed: a blank line, then [450 120] on one line. The 450 is returned
    and the 120 is dropped with the rest of the line. *)
Lemma single_amount_line_by_line_witness :
  let w450 := [Byte.x34; Byte.x35; Byte.x30] in
  let w120 := [Byte.x31; Byte.x32; Byte.x30] in
  Stdin.get_single_double_input Stdin.num_get_digits 1
    (Stdin.opened ([Stdin.newline] ++ w450 ++ [Stdin.space] ++ w120 ++ [Stdin.newline])) =
  Some (Stdin.Got (inject_Z 450) (Stdin.opened [])).
Proof.
  intros w450 w120.
  refine (proj1 (single_amount_line_by_line Stdin.num_get_digits [Stdin.newline]
                   Byte.x34 ([Byte.x35; Byte.x30] ++ [Stdin.space] ++ w120 ++ [Stdin.newline])
                   _ _)
                (inject_Z 450) ([Stdin.space] ++ w120 ++ [Stdin.newline]) [] 0%nat _ _).
  - reflexivity.
  - reflexivity.
  - reflexivity.
  - reflexivity.
Defined.

(** Typed: [1500 250], then [done], then the input ends. *)
Lemma planning_input_needs_all_amounts_witness :
  let w1500 := [Byte.x31; Byte.x35; Byte.x30; Byte.x30] in
  let w250 := [Byte.x32; Byte.x35; Byte.x30] in
  let lines := [[w1500; w250]; [Stdin.done]] in
  exists fuel,
    Stdin.get_user_doubles Stdin.stod_of_digits fuel (Stdin.opened (Stdin.text lines)) =
    Some (Stdin.Got [inject_Z 1500; inject_Z 250] (Stdin.opened [])).
Proof.
  intros w1500 w250 lines.
  refine (proj1 (planning_input_needs_all_amounts Stdin.stod_of_digits
                   Stdin.num_get_digits lines [inject_Z 1500; inject_Z 250] _ _ _)).
  - repeat constructor; discriminate.
  - discriminate.
  - reflexivity.
Defined.

(* ================================================================== *)
(** * What a report of the owner rests on *)
(* ================================================================== *)

Lemma bind_val_inv {A B} (m : M A) (k : A -> M B) (w w' : World) (r : B) :
  bind m k w = (Val r, w') ->
  exists a w1, m w = (Val a, w1) /\ k a w1 = (Val r, w').
Proof.
  unfold bind. destruct (m w) as [[a|s] w1]; [eauto | discriminate].
Qed.

Lemma send_object_val_inv (x : bytes) (w w1 : World) (u : unit) :
  send_object x w = (Val u, w1) ->
  outbound w1 = outbound w ++ frame x /\ inbound w1 = inbound w.
Proof.
  rewrite send_object_cases.
  destruct (send_credit w) as [[|[|c]]|]; try discriminate;
    intros H; inversion H; subst; now cbn.
Qed.

Lemma scale_val_inv (d : double) (w w1 : World) (v : Z) :
  scale d w = (Val v, w1) -> w1 = w /\ v = round (d * SCALE_FACTOR)%Q /\ scalable d.
Proof.
  unfold scale, toScaled, to_int64, scalable, bind, or_undefined, ret.
  destruct (_ && _) eqn:E; [|discriminate].
  intros H. inversion H; subst. cbn [magnitude].
  apply andb_prop in E as [E1 E2]. apply Z.leb_le in E1. apply Z.ltb_lt in E2.
  auto.
Qed.

Lemma receive_object_val_inv {A} (load : bytes -> option A) (w w1 : World) (a : A) :
  receive_object load w = (Val a, w1) ->
  exists x, x <> [] /\ receive_data w = (Val x, w1) /\ load x = Some a.
Proof.
  intros H.
  destruct (receive_object_cases load w)
    as [(x & a' & w2 & Hne & Hr & Hl & Ho) | (s & w2 & Ho & _)].
  - rewrite Ho in H. inversion H; subst. now exists x.
  - rewrite Ho in H. discriminate.
Qed.

Lemma first_slot_val_inv (l : list Z) (w w1 : World) (v : double) :
  Planning.first_slot_descaled l w = (Val v, w1) ->
  w1 = w /\ exists z, hd_error l = Some z /\ v = descale 1 z.
Proof.
  unfold Planning.first_slot_descaled, bind, or_undefined, ret.
  destruct (hd_error l) as [z|]; [|discriminate].
  intros H. inversion H; subst. eauto.
Qed.

(** The owner's figures rest on five loaded results. Whatever the
    connection delivers, when the owner's program of the
    income/expense/goal session gets as far as its report, it has written
    exactly its eight frames, each of its five receives has returned a
    non-empty string that loaded as a ciphertext, and the five figures are
    the first slots of the decryptions of these five ciphertexts over the
    scale factor. *)
Theorem report_needs_five_results {L : SEAL} (parms : EncryptionParameters)
    (keys : KeyGenerator) (input : Planning.UserInput) (rnd : Planning.Randomness)
    (w w' : World) (report : Planning.Report) :
  Planning.client_session parms keys input rnd w = (Val report, w') ->
  let context := make_context parms in
  let read := slots context (secret_key keys) in
  exists R1 R2 R3 R4 R5 c1 c2 c3 c4 c5 z1 z2 z3 z4 z5 w0,
    goal_input_scalable input /\
    outbound w0 = outbound w ++ frames (goal_client_objects parms keys input rnd) /\
    inbound w0 = inbound w /\
    receives [R1; R2; R3; R4; R5] w0 w' /\
    ciphertext_load context R1 = Some c1 /\ ciphertext_load context R2 = Some c2 /\
    ciphertext_load context R3 = Some c3 /\ ciphertext_load context R4 = Some c4 /\
    ciphertext_load context R5 = Some c5 /\
    hd_error (read c1) = Some z1 /\ hd_error (read c2) = Some z2 /\
    hd_error (read c3) = Some z3 /\ hd_error (read c4) = Some z4 /\
    hd_error (read c5) = Some z5 /\
    report = Planning.mkReport (descale 1 z1) (descale 1 z2) (descale 1 z3)
                               (descale 1 z4) (descale 1 z5).
Proof.
  unfold Planning.client_session. cbv zeta. intros H.
  apply bind_val_inv in H. destruct H as (u1 & a1 & S1 & H).
  apply bind_val_inv in H. destruct H as (u2 & a2 & S2 & H).
  apply bind_val_inv in H. destruct H as (u3 & a3 & S3 & H).
  apply bind_val_inv in H. destruct H as (u4 & a4 & S4 & H).
  apply bind_val_inv in H. destruct H as (vi & b1 & V1 & H).
  apply bind_val_inv in H. destruct H as (ve & b2 & V2 & H).
  apply bind_val_inv in H. destruct H as (vx & b3 & V3 & H).
  apply bind_val_inv in H. destruct H as (vg & b4 & V4 & H).
  apply scale_val_inv in V1. destruct V1 as (-> & -> & Hi).
  apply scale_val_inv in V2. destruct V2 as (-> & -> & He).
  apply scale_val_inv in V3. destruct V3 as (-> & -> & Hx).
  apply scale_val_inv in V4. destruct V4 as (-> & -> & Hg).
  apply bind_val_inv in H. destruct H as (u5 & a5 & S5 & H).
  apply bind_val_inv in H. destruct H as (u6 & a6 & S6 & H).
  apply bind_val_inv in H. destruct H as (u7 & a7 & S7 & H).
  apply bind_val_inv in H. destruct H as (u8 & a8 & S8 & H).
  apply bind_val_inv in H. destruct H as (c1 & r1 & G1 & H).
  apply bind_val_inv in H. destruct H as (c2 & r2 & G2 & H).
  apply bind_val_inv in H. destruct H as (c3 & r3 & G3 & H).
  apply bind_val_inv in H. destruct H as (c4 & r4 & G4 & H).
  apply bind_val_inv in H. destruct H as (c5 & r5 & G5 & H).
  apply bind_val_inv in H. destruct H as (f1 & t1 & F1 & H).
  apply bind_val_inv in H. destruct H as (f2 & t2 & F2 & H).
  apply bind_val_inv in H. destruct H as (f3 & t3 & F3 & H).
  apply bind_val_inv in H. destruct H as (f4 & t4 & F4 & H).
  apply bind_val_inv in H. destruct H as (f5 & t5 & F5 & H).
  apply first_slot_val_inv in F1. destruct F1 as (-> & z1 & Z1 & ->).
  apply first_slot_val_inv in F2. destruct F2 as (-> & z2 & Z2 & ->).
  apply first_slot_val_inv in F3. destruct F3 as (-> & z3 & Z3 & ->).
  apply first_slot_val_inv in F4. destruct F4 as (-> & z4 & Z4 & ->).
  apply first_slot_val_inv in F5. destruct F5 as (-> & z5 & Z5 & ->).
  unfold ret in H. inversion H; subst.
  apply receive_object_val_inv in G1. destruct G1 as (R1 & N1 & D1 & L1).
  apply receive_object_val_inv in G2. destruct G2 as (R2 & N2 & D2 & L2).
  apply receive_object_val_inv in G3. destruct G3 as (R3 & N3 & D3 & L3).
  apply receive_object_val_inv in G4. destruct G4 as (R4 & N4 & D4 & L4).
  apply receive_object_val_inv in G5. destruct G5 as (R5 & N5 & D5 & L5).
  apply send_object_val_inv in S1, S2, S3, S4, S5, S6, S7, S8.
  exists R1, R2, R3, R4, R5, c1, c2, c3, c4, c5, z1, z2, z3, z4, z5, a8.
  split; [unfold goal_input_scalable; tauto|].
  split.
  { destruct S1 as [O1 _], S2 as [O2 _], S3 as [O3 _], S4 as [O4 _],
             S5 as [O5 _], S6 as [O6 _], S7 as [O7 _], S8 as [O8 _].
    rewrite O8, O7, O6, O5, O4, O3, O2, O1.
    unfold goal_client_objects, frames, encrypt_amount, encode_amount.
    cbv zeta. cbn [map concat magnitude].
    now rewrite <- !app_assoc, app_nil_r. }
  split.
  { destruct S1 as [_ I1], S2 as [_ I2], S3 as [_ I3], S4 as [_ I4],
             S5 as [_ I5], S6 as [_ I6], S7 as [_ I7], S8 as [_ I8].
    congruence. }
  split.
  { cbn [receives].
    repeat (split; [assumption|]; eexists; split; [eassumption|]). reflexivity. }
  repeat split; assumption.
Qed.

(** The sample session: the owner's report on the reply of the compute
    party. *)
Lemma report_needs_five_results_witness :
  let owner := Planning.client_session Sample.parms Reference.keys Sample.input Sample.rnd in
  let reply := outbound (snd (run Planning.server_main (Sample.server_world None))) in
  exists R1 R2 R3 R4 R5 w0,
    receives [R1; R2; R3; R4; R5] w0 (snd (owner (fresh reply PeerClosed))) /\
    outbound w0 =
      frames (goal_client_objects Sample.parms Reference.keys Sample.input Sample.rnd).
Proof.
  intros owner reply.
  destruct (report_needs_five_results (L := Reference.library) Sample.parms Reference.keys
              Sample.input Sample.rnd (fresh reply PeerClosed)
              (snd (owner (fresh reply PeerClosed)))
              (Planning.mkReport (descale 1 57050) (descale 1 93025) (descale 1 43025)
                                 (descale 1 45050) (descale 1 12000)))
    as (R1 & R2 & R3 & R4 & R5 & _ & _ & _ & _ & _ & _ & _ & _ & _ & _ & w0 &
        _ & Hout & _ & Hrec & _).
  - vm_compute. reflexivity.
  - exists R1, R2, R3, R4, R5, w0. split; [exact Hrec | exact Hout].
Defined.

(* ================================================================== *)
(** * What travels unencrypted *)
(* ================================================================== *)



(* ================================================================== *)
(** * Amounts beyond half the plain modulus *)
(* ================================================================== *)




Section Wraparound.
Context {L : SEAL}.
Variables (parms : EncryptionParameters) (keys : KeyGenerator).
Variable C : Contract parms keys.

Local Abbreviation context := (make_context parms).
Local Abbreviation t := (plain_modulus (make_context parms)).
Local Abbreviation n := (slot_count (make_context parms)).
Local Abbreviation read := (slots (make_context parms) (secret_key keys)).



End Wraparound.





